(** * A shallow embedding of the retrieval core of [src/src/search.py]

    The module-level helpers ([proximity], the query parsers, the
    preprocessor) and the [InvertedIndex] class are translated into Rocq.
    Python ints are [Z], Python sets of ints are [gset Z], dictionaries
    keyed by strings are [gmap string _].  Raised exceptions (including
    [sys.exit], which raises [SystemExit]) are values of the [result] type
    below. *)

From Stdlib Require Import ZArith Lia Lra Ascii Rdefinitions RIneq Rpower.
From stdpp Require Import base gmap sets list strings sorting.

Local Open Scope Z_scope.

(* ------------------------------------------------------------------ *)
(** ** Python results: values or raised exceptions *)

Inductive exc :=
  | IndexError
  | KeyError
  | TypeError
  | SystemExit (code : Z)
  | OutOfFuel.  (* a loop ran longer than the bound given to its model *)

Inductive result (A : Type) :=
  | Ok (a : A)
  | Raise (e : exc).
Arguments Ok {A} a.
Arguments Raise {A} e.

Global Instance result_ret : MRet result := λ A a, Ok a.
Global Instance result_bind : MBind result :=
  λ A B f m, match m with Ok a => f a | Raise e => Raise e end.

(** [l[k]] on a Python list, negative indices counting from the end. *)
Definition py_get {A} (l : list A) (k : Z) : result A :=
  let k' := if k <? 0 then k + Z.of_nat (length l) else k in
  if k' <? 0 then Raise IndexError
  else match l !! Z.to_nat k' with
       | Some x => Ok x
       | None => Raise IndexError
       end.

(* ------------------------------------------------------------------ *)
(** ** [proximity(list_0, list_1)] *)

(** [np.inf] or a number. *)
Inductive ext := Fin (z : Z) | Inf.

(** [a < b] where [np.inf] is larger than every int. *)
Definition ext_ltb (a b : ext) : bool :=
  match a, b with
  | Fin x, Fin y => x <? y
  | Fin _, Inf => true
  | Inf, _ => false
  end.

Definition ext_eqb (a b : ext) : bool :=
  match a, b with
  | Fin x, Fin y => x =? y
  | Inf, Inf => true
  | _, _ => false
  end.

(** Elements of [merged_list]: ints, or the slice [list_k[c:]] that the
    exhausted-list branches append as a single element. *)
Inductive mval := MInt (z : Z) | MSlice (l : list Z).

Definition mval_int (v : mval) : result Z :=
  match v with MInt z => Ok z | MSlice _ => Raise TypeError end.

(** The local variables of the loop.  [min_prox_list_0_pos] and
    [min_prox_list_1_pos] are assigned right before their only read, so
    they are inlined into the pair built in [check_proximity]. *)
Record prox_state := mk_prox_state {
  min_proximity : ext;
  positions : list (Z * Z);
  list_0_counter : nat;
  list_1_counter : nat;
  loop_i : nat;
  previous_list_add : Z;
  merged_list : list mval
}.

(** The block repeated verbatim in the four branches of the loop body,
    run after [merged_list[i]] has been appended:
    [if current_list_add + previous_list_add == 1: ...]. *)
Definition check_proximity (current_list_add : Z) (st : prox_state)
    : result prox_state :=
  if current_list_add + previous_list_add st =? 1 then
    let i := Z.of_nat (loop_i st) in
    vi ← py_get (merged_list st) i ≫= mval_int;
    vp ← py_get (merged_list st) (i - 1) ≫= mval_int;
    let current_proximity := Z.abs (vi - vp) in
    if ext_ltb (Fin current_proximity) (min_proximity st) then
      let pair := if current_list_add =? 1 then (vp, vi) else (vi, vp) in
      Ok (mk_prox_state (Fin current_proximity) [pair]
            (list_0_counter st) (list_1_counter st) (loop_i st)
            (previous_list_add st) (merged_list st))
    else if ext_eqb (Fin current_proximity) (min_proximity st) then
      let pair := if current_list_add =? 1 then (vp, vi) else (vi, vp) in
      Ok (mk_prox_state (min_proximity st) (positions st ++ [pair])
            (list_0_counter st) (list_1_counter st) (loop_i st)
            (previous_list_add st) (merged_list st))
    else Ok st
  else Ok st.

Definition set_counters (st : prox_state) (c0 c1 : nat) (merged : list mval)
    : prox_state :=
  mk_prox_state (min_proximity st) (positions st) c0 c1 (loop_i st)
    (previous_list_add st) merged.

Definition set_i_prev (st : prox_state) (i : nat) (prev : Z) : prox_state :=
  mk_prox_state (min_proximity st) (positions st) (list_0_counter st)
    (list_1_counter st) i prev (merged_list st).

(** Outcome of one pass of the loop body: go on, or [break]. *)
Inductive step_outcome := Continue (st : prox_state) | Break (st : prox_state).

(** One pass of [while i < len(list_0) + len(list_1): ...], including
    the final [i += 1]. *)
Definition prox_step (list_0 list_1 : list Z) (st : prox_state)
    : result step_outcome :=
  let total := (length list_0 + length list_1)%nat in
  let c0 := list_0_counter st in
  let c1 := list_1_counter st in
  if (c0 =? length list_0)%nat then
    x ← py_get list_1 (Z.of_nat c1);
    let merged := merged_list st ++ [MInt x] in
    st1 ← check_proximity 1 (set_counters st c0 (S c1) merged);
    let merged' := if (S c1 <? length list_1)%nat
                   then merged_list st1 ++ [MSlice (drop (S c1) list_1)]
                   else merged_list st1 in
    let st2 := set_counters st1 c0 (S c1) merged' in
    Ok (Continue (set_i_prev st2 (S total) (previous_list_add st2)))
  else if (c1 =? length list_1)%nat then
    x ← py_get list_0 (Z.of_nat c0);
    let merged := merged_list st ++ [MInt x] in
    st1 ← check_proximity 0 (set_counters st (S c0) c1 merged);
    let merged' := if (S c0 <? length list_0)%nat
                   then merged_list st1 ++ [MSlice (drop (S c0) list_0)]
                   else merged_list st1 in
    let st2 := set_counters st1 (S c0) c1 merged' in
    Ok (Break (set_i_prev st2 total (previous_list_add st2)))
  else
    x0 ← py_get list_0 (Z.of_nat c0);
    x1 ← py_get list_1 (Z.of_nat c1);
    if x0 <=? x1 then
      st1 ← check_proximity 0 (set_counters st (S c0) c1 (merged_list st ++ [MInt x0]));
      Ok (Continue (set_i_prev st1 (S (loop_i st1)) 0))
    else
      st1 ← check_proximity 1 (set_counters st c0 (S c1) (merged_list st ++ [MInt x1]));
      Ok (Continue (set_i_prev st1 (S (loop_i st1)) 1)).

Fixpoint prox_loop (fuel : nat) (list_0 list_1 : list Z) (st : prox_state)
    : result prox_state :=
  if (loop_i st <? length list_0 + length list_1)%nat then
    match fuel with
    | O => Raise OutOfFuel
    | S fuel' =>
        o ← prox_step list_0 list_1 st;
        match o with
        | Continue st' => prox_loop fuel' list_0 list_1 st'
        | Break st' => Ok st'
        end
    end
  else Ok st.

(** The whole function.  The loop bound [len(list_0) + len(list_1)] is
    enough fuel: [i] starts at 1 and grows every pass. *)
Definition proximity (list_0 list_1 : list Z) : result (ext * list (Z * Z)) :=
  a ← py_get list_0 0;
  b ← py_get list_1 0;
  let st0 :=
    if a <=? b then mk_prox_state Inf [] 1 0 1 0 [MInt a]
    else mk_prox_state Inf [] 0 1 1 1 [MInt b] in
  st ← prox_loop (length list_0 + length list_1) list_0 list_1 st0;
  Ok (min_proximity st, positions st).

Example proximity_spec_example :
  proximity [2; 10] [5; 11] = Ok (Fin 1, [(10, 11)]).
Proof. reflexivity. Qed.

(** *** Reference reading of [proximity]: merge, then scan adjacent pairs

    [merge_tagged] is the merge the loop performs, each element tagged
    with the list it came from (0 or 1); ties go to [list_0], as in
    [list_0[c0] <= list_1[c1]]. *)
Fixpoint merge_tagged (l0 l1 : list Z) : list (Z * Z) :=
  match l0 with
  | [] => map (λ y, (y, 1)) l1
  | x :: xs =>
      (fix merge_aux (l1 : list Z) : list (Z * Z) :=
         match l1 with
         | [] => map (λ x', (x', 0)) (x :: xs)
         | y :: ys =>
             if x <=? y then (x, 0) :: merge_tagged xs l1
             else (y, 1) :: merge_aux ys
         end) l1
  end.

(** The pair an adjacent [(v1,t1), (v2,t2)] contributes when the tags
    differ, written (element of [list_0], element of [list_1]). *)
Definition adj_one (p q : Z * Z) : list (Z * Z) :=
  if q.2 + p.2 =? 1 then [if q.2 =? 1 then (p.1, q.1) else (q.1, p.1)] else [].

Fixpoint adj_cross (m : list (Z * Z)) : list (Z * Z) :=
  match m with
  | p :: ((q :: _) as r) => adj_one p q ++ adj_cross r
  | _ => []
  end.

Definition dist (p : Z * Z) : Z := Z.abs (p.1 - p.2).

(** The update of [(min_proximity, positions)] by one candidate pair. *)
Definition upd (acc : ext * list (Z * Z)) (p : Z * Z) : ext * list (Z * Z) :=
  if ext_ltb (Fin (dist p)) acc.1 then (Fin (dist p), [p])
  else if ext_eqb (Fin (dist p)) acc.1 then (acc.1, acc.2 ++ [p])
  else acc.

(** Strictly increasing lists: sorted and duplicate-free. *)
Definition strictly_sorted (l : list Z) : Prop := StronglySorted Z.lt l.

Section ProximityLoop.
Variables list_0 list_1 : list Z.

Definition prox_inv (st : prox_state) (lv : Z) : Prop :=
  length (merged_list st) = loop_i st /\
  merged_list st !! (loop_i st - 1)%nat = Some (MInt lv) /\
  (1 <= loop_i st)%nat /\
  (list_0_counter st + list_1_counter st = loop_i st)%nat /\
  (list_0_counter st <= length list_0)%nat /\
  (list_1_counter st <= length list_1)%nat.

(** What the rest of the loop will produce from [st]: the fold of [upd]
    over the cross pairs of the merge still ahead, starting from the
    last merged element. *)
Definition prox_expected (st : prox_state) (lv : Z) : ext * list (Z * Z) :=
  fold_left upd
    (adj_cross ((lv, previous_list_add st)
                  :: merge_tagged (drop (list_0_counter st) list_0)
                                  (drop (list_1_counter st) list_1)))
    (min_proximity st, positions st).

End ProximityLoop.

(* ------------------------------------------------------------------ *)
(** ** Characters and strings

    Texts are [string]s of 8-bit characters.  The character classes of
    Python's [re] module ([\w], [\s], [\d]) and of [str.split] are given
    on the ASCII range; the model covers ASCII text. *)

Definition char_code (c : ascii) : nat := Ascii.nat_of_ascii c.

Definition is_digit (c : ascii) : bool :=
  (48 <=? char_code c)%nat && (char_code c <=? 57)%nat.

Definition is_upper (c : ascii) : bool :=
  (65 <=? char_code c)%nat && (char_code c <=? 90)%nat.

Definition is_lower (c : ascii) : bool :=
  (97 <=? char_code c)%nat && (char_code c <=? 122)%nat.

(** [\w]: letters, digits and the underscore. *)
Definition is_word_char (c : ascii) : bool :=
  is_upper c || is_lower c || is_digit c || (char_code c =? 95)%nat.

(** [\s] and [str.isspace]: tab, newline, vertical tab, form feed,
    carriage return, the separators 28..31 and the space. *)
Definition is_space (c : ascii) : bool :=
  ((9 <=? char_code c)%nat && (char_code c <=? 13)%nat)
  || ((28 <=? char_code c)%nat && (char_code c <=? 32)%nat).

Definition newline : ascii := Ascii.ascii_of_nat 10.

(** [str.lower] *)
Fixpoint lower (s : string) : string :=
  match s with
  | EmptyString => EmptyString
  | String c s' =>
      String (if is_upper c then Ascii.ascii_of_nat (char_code c + 32) else c) (lower s')
  end.

Fixpoint all_chars (p : ascii -> bool) (s : string) : bool :=
  match s with
  | EmptyString => true
  | String c s' => p c && all_chars p s'
  end.

(** [space_only]: [re.match(r"^[\s\n]+$", line)] *)
Definition space_only (line : string) : bool :=
  match line with
  | EmptyString => false
  | String _ _ => all_chars is_space line
  end.

Fixpoint lstrip (s : string) : string :=
  match s with
  | String c s' => if is_space c then lstrip s' else s
  | EmptyString => EmptyString
  end.

Definition rev_string (s : string) : string :=
  String.string_of_list_ascii (rev (String.list_ascii_of_string s)).

(** [str.strip()] *)
Definition strip (s : string) : string := rev_string (lstrip (rev_string (lstrip s))).

(** [str.split()]: maximal runs of non-space characters.  [cur] is the
    word being read, reversed. *)
Fixpoint split_aux (s : string) (cur : list ascii) : list string :=
  match s with
  | EmptyString =>
      match cur with [] => [] | _ => [String.string_of_list_ascii (rev cur)] end
  | String c s' =>
      if is_space c then
        match cur with
        | [] => split_aux s' []
        | _ => String.string_of_list_ascii (rev cur) :: split_aux s' []
        end
      else split_aux s' (c :: cur)
  end.

Definition split (s : string) : list string := split_aux s [].

(** [" ".join(words)] *)
Fixpoint join_space (ws : list string) : string :=
  match ws with
  | [] => EmptyString
  | [w] => w
  | w :: ws' => (w ++ " " ++ join_space ws')%string
  end.

(** [convert_non_alphanumeric_to_space]: [re.sub(r"[^\w\s]", " ", text)] *)
Fixpoint convert_non_alphanumeric_to_space (s : string) : string :=
  match s with
  | EmptyString => EmptyString
  | String c s' =>
      String (if is_word_char c || is_space c then c else " "%char)
             (convert_non_alphanumeric_to_space s')
  end.

(** [remove_single_s]: [re.sub(" s ", " ", text)], leftmost and
    non-overlapping. *)
Fixpoint remove_single_s (s : string) : string :=
  match s with
  | EmptyString => EmptyString
  | String c s' =>
      match s' with
      | String c1 (String c2 rest) =>
          if Ascii.eqb c " " && Ascii.eqb c1 "s" && Ascii.eqb c2 " "
          then String " " (remove_single_s rest)
          else String c (remove_single_s s')
      | _ => String c (remove_single_s s')
      end
  end.

(** [remove_end_single_s]: [re.sub(" s\n", "\n", text)] *)
Fixpoint remove_end_single_s (s : string) : string :=
  match s with
  | EmptyString => EmptyString
  | String c s' =>
      match s' with
      | String c1 (String c2 rest) =>
          if Ascii.eqb c " " && Ascii.eqb c1 "s" && Ascii.eqb c2 newline
          then String newline (remove_end_single_s rest)
          else String c (remove_end_single_s s')
      | _ => String c (remove_end_single_s s')
      end
  end.

(** The preprocessing settings of an [InvertedIndex]: the two flags, the
    stop-word set and the stemmer ([default_stop_words] and
    [default_stemmer.stemWord] in the program). *)
Record config := mk_config {
  remove_stop_words : bool;
  apply_stemming : bool;
  stop_words : list string;
  porter_stemmer : string -> string
}.

Definition my_preprocessor (cfg : config) (text_line : string) : string :=
  if space_only text_line then EmptyString else
  let processed_text := lower text_line in
  let processed_text :=
    if remove_stop_words cfg then
      join_space (filter (λ w, w ∉ stop_words cfg) (split processed_text))
    else processed_text in
  let processed_text := convert_non_alphanumeric_to_space processed_text in
  let processed_text := remove_single_s processed_text in
  let processed_text := remove_end_single_s processed_text in
  let processed_text :=
    if apply_stemming cfg then join_space (map (porter_stemmer cfg) (split processed_text))
    else processed_text in
  if space_only processed_text then EmptyString else processed_text.

(** No stopping and no stemming, as chosen with the answers N and N. *)
Definition plain_config : config := mk_config false false [] (λ w, w).

(* ------------------------------------------------------------------ *)
(** ** The [InvertedIndex] object

    [self._inverted_index] is a [defaultdict] from strings to
    dictionaries.  A word's dictionary has the keys [frequency],
    [document_set] and [position_dict] (itself a [defaultdict(set)]);
    the special key ["_total_document_set"] holds [size] and
    [document_set]. *)

Record posting := mk_posting {
  frequency : Z;
  document_set : gset Z;
  position_dict : gmap Z (gset Z)
}.

Inductive entry :=
  | Posting (p : posting)
  | TotalEntry (size : Z) (docs : gset Z).

Definition total_key : string := "_total_document_set".

(** The value the [defaultdict] factory creates. *)
Definition default_posting : posting := mk_posting 0 ∅ ∅.

(** Python set objects are shared by reference.  A reference is either a
    set stored in the index (a word's [document_set], one of its
    position sets) or a set object created during a call ([RHeap]). *)
Inductive sref :=
  | RDocs (w : string)
  | RPos (w : string) (d : Z)
  | RHeap (n : nat).

Record store := mk_store {
  inverted_index : gmap string entry;
  heap : gmap nat (gset Z);
  next_obj : nat
}.

Definition set_index (s : store) (idx : gmap string entry) : store :=
  mk_store idx (heap s) (next_obj s).

(** The state-and-exception monad of the methods. *)
Definition M (A : Type) : Type := store -> result (A * store).

Definition ret {A} (a : A) : M A := λ s, Ok (a, s).

Definition throw {A} (e : exc) : M A := λ _, Raise e.

Definition bindM {A B} (m : M A) (f : A -> M B) : M B :=
  λ s, match m s with Ok (a, s') => f a s' | Raise e => Raise e end.

Definition lift {A} (r : result A) : M A :=
  λ s, match r with Ok a => Ok (a, s) | Raise e => Raise e end.

Notation "'let*' x ':=' m 'in' k" := (bindM m (λ x, k))
  (at level 200, x name, m at level 100, k at level 200, right associativity).

Fixpoint map_M {A B} (f : A -> M B) (l : list A) : M (list B) :=
  match l with
  | [] => ret []
  | x :: xs => let* y := f x in let* ys := map_M f xs in ret (y :: ys)
  end.

Fixpoint fold_M {A B} (f : B -> A -> M B) (l : list A) (b : B) : M B :=
  match l with
  | [] => ret b
  | x :: xs => let* b' := f b x in fold_M f xs b'
  end.

(** [self._inverted_index[word]]: a missing key is inserted with the
    factory's value. *)
Definition index_get (w : string) : M entry := λ s,
  match inverted_index s !! w with
  | Some e => Ok (e, s)
  | None =>
      Ok (Posting default_posting,
          set_index s (<[w := Posting default_posting]> (inverted_index s)))
  end.

(** [word_dict["position_dict"][doc]] on the dictionary stored at [w]:
    a missing document is inserted with an empty set. *)
Definition pos_get (w : string) (d : Z) : M sref := λ s,
  match inverted_index s !! w with
  | Some (Posting p) =>
      match position_dict p !! d with
      | Some _ => Ok (RPos w d, s)
      | None =>
          Ok (RPos w d,
              set_index s (<[w := Posting (mk_posting (frequency p) (document_set p)
                                              (<[d := ∅]> (position_dict p)))]>
                             (inverted_index s)))
      end
  | _ => Raise KeyError
  end.

Definition sref_get (s : store) (r : sref) : option (gset Z) :=
  match r with
  | RDocs w =>
      match inverted_index s !! w with
      | Some (Posting p) => Some (document_set p)
      | Some (TotalEntry _ ds) => Some ds
      | None => None
      end
  | RPos w d =>
      match inverted_index s !! w with
      | Some (Posting p) => position_dict p !! d
      | _ => None
      end
  | RHeap n => heap s !! n
  end.

Definition sref_put (s : store) (r : sref) (v : gset Z) : option store :=
  match r with
  | RDocs w =>
      match inverted_index s !! w with
      | Some (Posting p) =>
          Some (set_index s (<[w := Posting (mk_posting (frequency p) v (position_dict p))]>
                               (inverted_index s)))
      | Some (TotalEntry n _) => Some (set_index s (<[w := TotalEntry n v]> (inverted_index s)))
      | None => None
      end
  | RPos w d =>
      match inverted_index s !! w with
      | Some (Posting p) =>
          Some (set_index s (<[w := Posting (mk_posting (frequency p) (document_set p)
                                                (<[d := v]> (position_dict p)))]>
                               (inverted_index s)))
      | _ => None
      end
  | RHeap n => Some (mk_store (inverted_index s) (<[n := v]> (heap s)) (next_obj s))
  end.

Definition set_read (r : sref) : M (gset Z) := λ s,
  match sref_get s r with Some v => Ok (v, s) | None => Raise KeyError end.

Definition set_modify (r : sref) (f : gset Z -> result (gset Z)) : M unit := λ s,
  match sref_get s r with
  | Some v =>
      match f v with
      | Ok v' => match sref_put s r v' with Some s' => Ok (tt, s') | None => Raise KeyError end
      | Raise e => Raise e
      end
  | None => Raise KeyError
  end.

(** [set.add] and [set.remove] (which raises [KeyError] on a missing
    element). *)
Definition set_add (r : sref) (x : Z) : M unit := set_modify r (λ v, Ok ({[x]} ∪ v)).

Definition set_remove (r : sref) (x : Z) : M unit :=
  set_modify r (λ v, if decide (x ∈ v) then Ok (v ∖ {[x]}) else Raise KeyError).

(** A new set object ([set.copy()], [a & b]). *)
Definition alloc (v : gset Z) : M sref := λ s,
  Ok (RHeap (next_obj s), mk_store (inverted_index s) (<[next_obj s := v]> (heap s)) (S (next_obj s))).

(** [word_dict["frequency"] += 1] on the dictionary stored at [w]. *)
Definition incr_frequency (w : string) : M unit := λ s,
  match inverted_index s !! w with
  | Some (Posting p) =>
      Ok (tt, set_index s (<[w := Posting (mk_posting (frequency p + 1) (document_set p)
                                              (position_dict p))]> (inverted_index s)))
  | _ => Raise KeyError
  end.

(** [InvertedIndex._word_dict]: the flag says whether the frequency is
    non-zero; the dictionary is the one stored at [word]. *)
Definition _word_dict (word : string) : M bool :=
  let* e := index_get word in
  match e with
  | Posting p => ret (negb (frequency p =? 0))
  | TotalEntry _ _ => throw KeyError
  end.

(* ------------------------------------------------------------------ *)
(** ** Building the index *)

(** A [DOC] element of the XML file: its [DOCNO] (already converted by
    [int]) and the texts of its optional [HEADLINE] and [TEXT]
    elements.  A file with a [DOC] lacking [DOCNO], a [DOCNO] that is not
    an integer literal, or an element without text makes [preprocess_xml]
    or [_build_index] raise [AttributeError] or [ValueError]; such files
    are not represented. *)
Record doc := mk_doc {
  docno : Z;
  headline : option string;
  doc_text : option string
}.

(** [preprocess_xml]: each text is stripped and preprocessed. *)
Definition preprocess_doc (cfg : config) (d : doc) : doc :=
  mk_doc (docno d)
    (option_map (λ t, my_preprocessor cfg (strip t)) (headline d))
    (option_map (λ t, my_preprocessor cfg (strip t)) (doc_text d)).

(** The body of the loops of [_build_index] for one word at position
    [pos]. *)
Definition add_word (word : string) (doc_id pos : Z) : M unit :=
  let* _ := index_get word in
  let* _ := incr_frequency word in
  let* _ := index_get word in
  let* _ := set_add (RDocs word) doc_id in
  let* _ := index_get word in
  let* r := pos_get word doc_id in
  let* _ := set_add r pos in
  let* _ := index_get total_key in
  set_add (RDocs total_key) doc_id.

(** [for i, word in enumerate(words): ... add(i + offset)] *)
Fixpoint add_words (doc_id : Z) (words : list string) (i offset : Z) : M unit :=
  match words with
  | [] => ret tt
  | word :: ws =>
      let* _ := add_word word doc_id (i + offset) in
      add_words doc_id ws (i + 1) offset
  end.

Definition index_doc (d : doc) : M unit :=
  let doc_id := docno d in
  let* headline_length :=
    match headline d with
    | Some t =>
        let headline_list := split t in
        let* _ := add_words doc_id headline_list 0 0 in
        ret (Z.of_nat (length headline_list))
    | None => ret 0
    end in
  match doc_text d with
  | Some t => add_words doc_id (split t) 0 headline_length
  | None => ret tt
  end.

(** [self._inverted_index["_total_document_set"]["size"] = len(...)]; the
    key holds the total entry here, since a word equal to it raises in
    [add_word]. *)
Definition set_total_size : M unit := λ s,
  match inverted_index s !! total_key with
  | Some (TotalEntry _ ds) =>
      Ok (tt, set_index s (<[total_key := TotalEntry (Z.of_nat (size ds)) ds]> (inverted_index s)))
  | _ => Raise KeyError
  end.

Definition _build_index (docs : list doc) : M unit :=
  let* _ := fold_M (λ _ d, index_doc d) docs tt in
  set_total_size.

(** The state after [__init__] has set up the special key. *)
Definition initial_store : store :=
  mk_store {[total_key := TotalEntry 0 ∅]} ∅ 0.

(** [InvertedIndex(file, remove_stop_words, apply_stemming)]. *)
Definition build_index (cfg : config) (docs : list doc) : result store :=
  match _build_index (map (preprocess_doc cfg) docs) initial_store with
  | Ok (_, s) => Ok s
  | Raise e => Raise e
  end.

(* ------------------------------------------------------------------ *)
(** ** [_phrase_search] *)

(** [d[key]] on a local dictionary. *)
Definition py_dict_get {V} (m : gmap Z V) (k : Z) : M V :=
  match m !! k with Some v => ret v | None => throw KeyError end.

(** The first loop: the dictionaries of the words, or [None] when a word
    is absent ([return False, {}]). *)
Fixpoint check_words (word_list : list string) : M (option (list string)) :=
  match word_list with
  | [] => ret (Some [])
  | word :: ws =>
      let* present := _word_dict word in
      if present then
        let* rest := check_words ws in
        ret (option_map (cons word) rest)
      else ret None
  end.

(** [{document: word_dicts[0]["position_dict"][document].copy() for
    document in document_set}] *)
Definition init_ppd (w0 : string) (docs : list Z) : M (gmap Z sref) :=
  fold_M (λ acc document,
            let* r := pos_get w0 document in
            let* v := set_read r in
            let* c := alloc v in
            ret (<[document := c]> acc)) docs ∅.

(** [{document: potential_positions_dict[document] for document in
    document_set}] *)
Definition restrict_ppd (ppd : gmap Z sref) (docs : list Z) : M (gmap Z sref) :=
  fold_M (λ acc document,
            let* r := py_dict_get ppd document in
            ret (<[document := r]> acc)) docs ∅.

(** The loop over the positions of the current word in [match_doc]. *)
Fixpoint remove_starts (i : Z) (next_w : string) (ppd : gmap Z sref) (match_doc : Z)
    (positions : list Z) : M unit :=
  match positions with
  | [] => ret tt
  | position :: ps =>
      let* nr := pos_get next_w match_doc in
      let* nv := set_read nr in
      let* _ :=
        if decide (position + 1 ∉ nv) then
          let* pr := py_dict_get ppd match_doc in
          let* pv := set_read pr in
          if decide (position - i ∈ pv) then
            let* pr' := py_dict_get ppd match_doc in
            set_remove pr' (position - i)
          else ret tt
        else ret tt in
      remove_starts i next_w ppd match_doc ps
  end.

(** The loop over [document_set]; [None] is the early
    [return False, {}], otherwise the documents to remove. *)
Fixpoint doc_loop (i : Z) (cur_w next_w : string) (ppd : gmap Z sref) (docs : list Z)
    (docs_with_no_matches : Z) (docs_to_remove : gset Z) : M (option (gset Z)) :=
  match docs with
  | [] => ret (Some docs_to_remove)
  | match_doc :: ds =>
      let* cr := pos_get cur_w match_doc in
      let* cv := set_read cr in
      let* _ := remove_starts i next_w ppd match_doc (elements cv) in
      let* pr := py_dict_get ppd match_doc in
      let* pv := set_read pr in
      let n := if decide (size pv = 0%nat) then docs_with_no_matches + 1
               else docs_with_no_matches in
      let tr := if decide (size pv = 0%nat) then {[match_doc]} ∪ docs_to_remove
                else docs_to_remove in
      if decide (n = Z.of_nat (size ppd)) then ret None
      else doc_loop i cur_w next_w ppd ds n tr
  end.

(** [for doc in docs_to_remove: document_set.remove(doc);
    del potential_positions_dict[doc]] *)
Definition remove_docs (dset : sref) (ppd : gmap Z sref) (docs : list Z) : M (gmap Z sref) :=
  fold_M (λ acc d,
            let* _ := set_remove dset d in
            match acc !! d with Some _ => ret (delete d acc) | None => throw KeyError end)
         docs ppd.

(** [for i in range(len(word_list) - 1)] *)
Fixpoint word_loop (is : list nat) (word_dicts : list string) (dset : sref)
    (ppd : gmap Z sref) : M (option (gmap Z sref)) :=
  match is with
  | [] => ret (Some ppd)
  | i :: is' =>
      let* next_w := lift (py_get word_dicts (Z.of_nat i + 1)) in
      let* cur_w := lift (py_get word_dicts (Z.of_nat i)) in
      let* dv := set_read dset in
      let* nv := set_read (RDocs next_w) in
      let* dset' := alloc (dv ∩ nv) in
      let* dv' := set_read dset' in
      let* ppd' := restrict_ppd ppd (elements dv') in
      let* r := doc_loop (Z.of_nat i) cur_w next_w ppd' (elements dv') 0 ∅ in
      match r with
      | None => ret None
      | Some docs_to_remove =>
          let* ppd'' := remove_docs dset' ppd' (elements docs_to_remove) in
          word_loop is' word_dicts dset' ppd''
      end
  end.

Definition phrase_result : Type := (bool * list (Z * list Z))%type.

(** The search once the text is split into words. *)
Definition phrase_search_words (word_list : list string) : M phrase_result :=
  let* found := check_words word_list in
  match found with
  | None => ret (false, [])
  | Some word_dicts =>
      let* w0 := lift (py_get word_dicts 0) in
      let* dv := set_read (RDocs w0) in
      let* ppd := init_ppd w0 (elements dv) in
      let* r := word_loop (seq 0 (length word_list - 1)) word_dicts (RDocs w0) ppd in
      match r with
      | None => ret (false, [])
      | Some ppd' =>
          if decide (ppd' = ∅) then ret (false, [])
          else
            let keys := merge_sort Z.le (elements (dom ppd')) in
            let* m := map_M (λ match_doc,
                               let* pr := py_dict_get ppd' match_doc in
                               let* pv := set_read pr in
                               ret (match_doc, merge_sort Z.le (elements pv))) keys in
            ret (true, m)
      end
  end.

Definition _phrase_search (cfg : config) (text_input_string : string) : M phrase_result :=
  phrase_search_words (split (my_preprocessor cfg text_input_string)).

(* ------------------------------------------------------------------ *)
(** ** Boolean queries *)

Fixpoint starts_with (p s : string) : bool :=
  match p, s with
  | EmptyString, _ => true
  | String a p', String b s' => Ascii.eqb a b && starts_with p' s'
  | _, _ => false
  end.

Fixpoint drop_chars (n : nat) (s : string) : string :=
  match n, s with
  | S n', String _ s' => drop_chars n' s'
  | _, _ => s
  end.

Fixpoint nth_char (n : nat) (s : string) : option ascii :=
  match n, s with
  | O, String c _ => Some c
  | S n', String _ s' => nth_char n' s'
  | _, EmptyString => None
  end.

Definition word_char_opt (c : option ascii) : bool :=
  match c with Some c => is_word_char c | None => false end.

(** [\bAND\b|\bOR\b] at the head of [s], [prev] being the character
    before it (none at the start of the text). *)
Definition conn_at (prev : option ascii) (s : string) : option string :=
  if word_char_opt prev then None
  else if starts_with "AND" s && negb (word_char_opt (nth_char 3 s)) then Some "AND"%string
  else if starts_with "OR" s && negb (word_char_opt (nth_char 2 s)) then Some "OR"%string
  else None.

(** The text before the first [AND]/[OR] word, and that word with the
    text after it. *)
Fixpoint find_conn (prev : option ascii) (s : string) : string * option (string * string) :=
  match conn_at prev s with
  | Some c => (EmptyString, Some (c, drop_chars (String.length c) s))
  | None =>
      match s with
      | EmptyString => (EmptyString, None)
      | String c s' => let '(pre, r) := find_conn (Some c) s' in (String c pre, r)
      end
  end.

Fixpoint has_char (c : ascii) (s : string) : bool :=
  match s with
  | EmptyString => false
  | String c' s' => Ascii.eqb c c' || has_char c s'
  end.

(** [$] also matches before a final newline. *)
Definition drop_final_newline (s : string) : string :=
  let l := String.list_ascii_of_string s in
  match rev l with
  | c :: r => if Ascii.eqb c newline then String.string_of_list_ascii (rev r) else s
  | [] => s
  end.

(** [re.match(query_regex_pattern, text)]: the groups [initial],
    [Connector] and [Remaining_Text].  [.] does not match a newline, so a
    newline other than a final one makes the match fail; [(NOT)?] and the
    first character of [.+] cannot start at an [AND]/[OR] word. *)
Definition query_match (text : string) : option (string * string * string) :=
  let u := drop_final_newline text in
  if has_char newline u then None else
  match u with
  | EmptyString => None
  | String _ _ =>
      match conn_at None u with
      | Some _ => None
      | None =>
          match find_conn None u with
          | (initial, Some (c, rest)) => Some (initial, c, rest)
          | (initial, None) => Some (initial, EmptyString, EmptyString)
          end
      end
  end.

(** [re.match(NOT_regex_pattern, initial_group)]: [NOT_group] is ["NOT"]
    when the group starts with [NOT] and text follows it. *)
Definition not_split (initial : string) : bool * string :=
  if starts_with "NOT" initial && (3 <? String.length initial)%nat
  then (true, drop_chars 3 initial)
  else (false, initial).

Definition _documents_containing_phrase (cfg : config) (phrase : string) : M (gset Z) :=
  let* r := _phrase_search cfg phrase in
  if r.1 then ret (list_to_set (map fst r.2)) else ret ∅.

Definition _not_operator (document_set : gset Z) : M (gset Z) :=
  let* _ := index_get total_key in
  let* total_docs_set := set_read (RDocs total_key) in
  ret (total_docs_set ∖ document_set).

Inductive qitem := QSet (s : gset Z) | QConn (c : string).

(** The [while] loop of [boolean_query_parser], with
    [documents_function = _documents_containing_phrase] and
    [not_function = _not_operator].  Each round consumes a non-empty
    prefix, so [fuel = length text + 1] rounds suffice. *)
Fixpoint boolean_query_parser_loop (fuel : nat) (cfg : config) (text : string)
    (acc : list qitem) : M (list qitem) :=
  match fuel with
  | O => throw OutOfFuel
  | S fuel' =>
      match query_match text with
      | None => throw (SystemExit (-1))
      | Some (initial_group, connector, remaining) =>
          let '(initial_NOT, phrase) := not_split initial_group in
          let initial_text := strip phrase in
          let* document_set := _documents_containing_phrase cfg initial_text in
          let* item := if initial_NOT then _not_operator document_set else ret document_set in
          let acc' := acc ++ [QSet item] in
          let remaining_text := strip remaining in
          if String.eqb connector "" && String.eqb remaining_text "" then ret acc'
          else if String.eqb connector "" || String.eqb remaining_text "" then
            throw (SystemExit (-1))
          else boolean_query_parser_loop fuel' cfg remaining_text (acc' ++ [QConn connector])
      end
  end.

Definition boolean_query_parser (cfg : config) (text : string) : M (list qitem) :=
  boolean_query_parser_loop (S (String.length text)) cfg text [].

(** The slices of [_AND_OR_list] between the ["OR"] items. *)
Fixpoint split_at_or (l : list qitem) : list (list qitem) :=
  match l with
  | [] => [[]]
  | QConn c :: l' =>
      if String.eqb c "OR" then [] :: split_at_or l'
      else match split_at_or l' with g :: gs => (QConn c :: g) :: gs | [] => [[QConn c]] end
  | x :: l' => match split_at_or l' with g :: gs => (x :: g) :: gs | [] => [[x]] end
  end.

(** [set.intersection( *sets)] and [set.union( *sets)]: a [TypeError]
    without arguments or on a non-set. *)
Definition sets_of (l : list qitem) : result (list (gset Z)) :=
  mapM (λ x, match x with QSet s => Ok s | QConn _ => Raise TypeError end) l.

Definition _and_operator (l : list qitem) : result (gset Z) :=
  ss ← sets_of l;
  match ss with [] => Raise TypeError | s :: rest => Ok (foldl intersection s rest) end.

Definition _or_operator (ss : list (gset Z)) : result (gset Z) :=
  match ss with [] => Raise TypeError | s :: rest => Ok (foldl union s rest) end.

(** [item != "AND"] *)
Definition is_AND (x : qitem) : bool :=
  match x with QConn c => String.eqb c "AND" | QSet _ => false end.

(** What [boolean_query] does with the parser's list. *)
Definition evaluate_and_or (l : list qitem) : result (list Z) :=
  or_sets ← mapM (λ g, _and_operator (filter (λ x, is_AND x = false) g)) (split_at_or l);
  final_set ← _or_operator or_sets;
  Ok (merge_sort Z.le (elements final_set)).

Definition boolean_query (cfg : config) (text : string) : M (list Z) :=
  let* l := boolean_query_parser cfg text in
  lift (evaluate_and_or l).

(* ------------------------------------------------------------------ *)
(** ** Proximity queries *)

(** The longest prefix of characters satisfying [p], and the rest. *)
Fixpoint span_chars (p : ascii -> bool) (s : string) : string * string :=
  match s with
  | String c s' =>
      if p c then let '(a, b) := span_chars p s' in (String c a, b) else (EmptyString, s)
  | EmptyString => (EmptyString, EmptyString)
  end.

Definition digit_value (c : ascii) : Z := Z.of_nat (char_code c) - 48.

(** [int] of a string of digits. *)
Definition digits_value (s : string) : Z :=
  fold_left (λ acc c, 10 * acc + digit_value c) (String.list_ascii_of_string s) 0.

Definition is_phrase_char (c : ascii) : bool := is_word_char c || is_space c.

(** The regex of [parse_proximity_query]: ["#"], the digits [Prox],
    ["("], [Phrase_1] of word and space characters, [","], [Phrase_2]
    likewise, [")"], and the end of the text or a final newline.  The
    classes exclude ["("], [","] and [")"], so every group is the longest
    run of its class. *)
Definition proximity_match (text : string) : option (string * string * string) :=
  match text with
  | String "#" t =>
      let '(prox, t1) := span_chars is_digit t in
      match prox, t1 with
      | String _ _, String "(" t2 =>
          let '(p1, t3) := span_chars is_phrase_char t2 in
          match p1, t3 with
          | String _ _, String "," t4 =>
              let '(p2, t5) := span_chars is_phrase_char t4 in
              match p2, t5 with
              | String _ _, String ")" EmptyString => Some (prox, p1, p2)
              | String _ _, String ")" (String c EmptyString) =>
                  if Ascii.eqb c newline then Some (prox, p1, p2) else None
              | _, _ => None
              end
          | _, _ => None
          end
      | _, _ => None
      end
  | _ => None
  end.

Definition parse_proximity_query (proximity_query_text : string)
    : result ((string * string) * Z) :=
  match proximity_match proximity_query_text with
  | None => Raise (SystemExit (-1))
  | Some (prox, phrase_1, phrase_2) => Ok ((phrase_1, phrase_2), digits_value prox)
  end.

Fixpoint assoc_get (m : list (Z * list Z)) (k : Z) : result (list Z) :=
  match m with
  | [] => Raise KeyError
  | (k', v) :: m' => if k =? k' then Ok v else assoc_get m' k
  end.

Definition ext_le_Z (a : ext) (z : Z) : bool :=
  match a with Fin x => x <=? z | Inf => false end.

Definition _proximity_search (cfg : config) (tuple_of_two_phrases : string * string)
    (proximity_value : Z) : M (list Z) :=
  let* r1 := _phrase_search cfg tuple_of_two_phrases.1 in
  if negb r1.1 then ret [] else
  let* r2 := _phrase_search cfg tuple_of_two_phrases.2 in
  if negb r2.1 then ret [] else
  let common_docs : gset Z := list_to_set (map fst r1.2) ∩ list_to_set (map fst r2.2) in
  let* proximity_list :=
    lift (mapM (λ d, l1 ← assoc_get r1.2 d; l2 ← assoc_get r2.2 d;
                     p ← proximity l1 l2; Ok (d, p)) (elements common_docs)) in
  let min_set : gset Z :=
    list_to_set (map fst (filter (λ dt, ext_le_Z dt.2.1 proximity_value = true) proximity_list)) in
  ret (merge_sort Z.le (elements min_set)).

(* ------------------------------------------------------------------ *)
(** ** The query files of [main] *)

(** [re.sub(r"^q?[0-9][0-9]?:?(\s)+", "", line)]: the optional parts are
    tried present first, as the regex engine backtracks. *)
Definition question_prefix (s : string) : option string :=
  let opt (b : bool) (p : ascii -> bool) (t : string) : option string :=
    if b then match t with String c t' => if p c then Some t' else None | _ => None end
    else Some t in
  let attempt (bq bd bc : bool) : option string :=
    match opt bq (λ c, Ascii.eqb c "q") s with
    | None => None
    | Some t =>
        match t with
        | String c t' =>
            if is_digit c then
              match opt bd is_digit t' with
              | None => None
              | Some t'' =>
                  match opt bc (λ c, Ascii.eqb c ":") t'' with
                  | Some (String c' rest) => if is_space c' then Some (lstrip rest) else None
                  | _ => None
                  end
              end
            else None
        | EmptyString => None
        end
    end in
  let fix first (l : list (bool * bool * bool)) :=
    match l with
    | [] => None
    | (bq, bd, bc) :: l' => match attempt bq bd bc with Some r => Some r | None => first l' end
    end in
  first [(true, true, true); (true, true, false); (true, false, true); (true, false, false);
         (false, true, true); (false, true, false); (false, false, true); (false, false, false)].

Definition parse_question_file (line_of_text : string) : string :=
  match question_prefix line_of_text with Some r => r | None => line_of_text end.

(** One line of the boolean query file, numbered [i]: the lines
    [f"{i+1},{doc}"] it writes. *)
Definition boolean_line (cfg : config) (i : Z) (line : string) : M (list (Z * Z)) :=
  let text := parse_question_file line in
  let* c := lift (match text with String c _ => Ok c | EmptyString => Raise IndexError end) in
  let* output_list :=
    if negb (Ascii.eqb c "#") then boolean_query cfg text
    else
      let* pq := lift (parse_proximity_query text) in
      _proximity_search cfg pq.1 pq.2 in
  ret (map (λ d, (i + 1, d)) output_list).

(** The loop over the boolean query file: the lines written to
    [results.boolean.txt], and the exception that ended the run, if
    any. *)
Fixpoint boolean_batch (cfg : config) (i : Z) (lines : list string) (s : store)
    : list (Z * Z) * option exc :=
  match lines with
  | [] => ([], None)
  | line :: rest =>
      match boolean_line cfg i line s with
      | Ok (out, s') => let '(out', e) := boolean_batch cfg (i + 1) rest s' in (out ++ out', e)
      | Raise e => ([], Some e)
      end
  end.

(* ------------------------------------------------------------------ *)
(** ** Ranked retrieval

    The scores are written over an arbitrary number type with its zero,
    its addition, the comparison used by [sorted] and the TF-IDF formula
    as a function of [N], the term frequency and the document
    frequency; [ranked_ir_tfidf_R] below takes them in [R]. *)

Section Ranked.
Context {score : Type} (zero : score) (add : score -> score -> score)
        (weight : Z -> nat -> nat -> score) (ge : score -> score -> bool).

(** [self._inverted_index["_total_document_set"]["size"]] *)
Definition total_size : M Z :=
  let* e := index_get total_key in
  match e with TotalEntry n _ => ret n | Posting _ => throw KeyError end.

Definition _tfidf_term_weighting (term : string) (document : Z) : M score :=
  let* ds := set_read (RDocs term) in
  if decide (document ∉ ds) then ret zero else
  let* my_N := total_size in
  let* r := pos_get term document in
  let* term_positions := set_read r in
  ret (weight my_N (size term_positions) (size ds)).

(** [wtd_score_dict[document] += x] on a [defaultdict(lambda: 0)] kept
    in insertion order. *)
Fixpoint add_score (scores : list (Z * score)) (document : Z) (x : score) : list (Z * score) :=
  match scores with
  | [] => [(document, add zero x)]
  | (d, v) :: rest =>
      if d =? document then (d, add v x) :: rest else (d, v) :: add_score rest document x
  end.

(** [sorted(..., key=lambda x: x[1], reverse=True)]: stable, by
    descending score. *)
Fixpoint insert_desc (x : Z * score) (l : list (Z * score)) : list (Z * score) :=
  match l with
  | [] => [x]
  | y :: l' => if ge y.2 x.2 then y :: insert_desc x l' else x :: l
  end.

Definition sort_desc (l : list (Z * score)) : list (Z * score) :=
  fold_left (λ acc x, insert_desc x acc) l [].

Definition ranked_ir_tfidf (cfg : config) (text_query : string) : M (list (Z * score)) :=
  let list_of_terms := split (my_preprocessor cfg text_query) in
  let* wtd_score_dict :=
    fold_M (λ acc term,
              let* term_present_in_collection := _word_dict term in
              if term_present_in_collection then
                let* document_set := set_read (RDocs term) in
                fold_M (λ acc' document,
                          let* x := _tfidf_term_weighting term document in
                          ret (add_score acc' document x)) (elements document_set) acc
              else ret acc) list_of_terms [] in
  let sorted_wtd_score := sort_desc wtd_score_dict in
  (* [remove_zero_sorted_wtd_score = {key: sorted_wtd_score[key] for key in sorted_wtd_score}] *)
  let remove_zero_sorted_wtd_score := sorted_wtd_score in
  ret remove_zero_sorted_wtd_score.

End Ranked.

Definition log10 (x : R) : R := (ln x / ln 10)%R.

(** [(1 + np.log10(term_frequency)) * np.log10(my_N / document_frequency)] *)
Definition tfidf_weight (my_N : Z) (term_frequency document_frequency : nat) : R :=
  ((1 + log10 (INR term_frequency)) * log10 (IZR my_N / INR document_frequency))%R.

Definition Rge_bool (a b : R) : bool := if Rge_dec a b then true else false.

Definition ranked_ir_tfidf_R (cfg : config) (text_query : string) : M (list (Z * R)) :=
  ranked_ir_tfidf 0%R Rplus tfidf_weight Rge_bool cfg text_query.

(* ------------------------------------------------------------------ *)
(** ** Sample collections *)

(** Two documents that both consist of the word [cat]. *)
Definition cat_docs : list doc :=
  [mk_doc 0 None (Some "cat"%string); mk_doc 1 None (Some "cat"%string)].

Definition store_of (r : result store) : store :=
  match r with Ok s => s | Raise _ => initial_store end.

Definition cat_store : store := store_of (build_index plain_config cat_docs).

(** Document 0 is [cat], document 1 is [note]. *)
Definition note_docs : list doc :=
  [mk_doc 0 None (Some "cat"%string); mk_doc 1 None (Some "note"%string)].

Definition note_store : store := store_of (build_index plain_config note_docs).

(** The value of a method call on a state, the state after it dropped. *)
Definition run_query {A} (m : M A) (s : store) : result A :=
  match m s with Ok (a, _) => Ok a | Raise e => Raise e end.

(* ------------------------------------------------------------------ *)
(** ** Malformed queries

    The syntax the parser loop accepts, with the phrase lookups left out:
    each round needs a match, and then either both the connector and the
    remaining text are empty (the end) or both are non-empty. *)
Fixpoint query_syntax_ok (fuel : nat) (text : string) : bool :=
  match fuel with
  | O => false
  | S fuel' =>
      match query_match text with
      | None => false
      | Some (_, connector, remaining) =>
          let remaining_text := strip remaining in
          if String.eqb connector "" && String.eqb remaining_text "" then true
          else if String.eqb connector "" || String.eqb remaining_text "" then false
          else query_syntax_ok fuel' remaining_text
      end
  end.

(** A line of the boolean query file that is syntactically malformed: a
    proximity query that does not match its pattern, or a boolean query
    the parser loop rejects. *)
Definition malformed_query (line : string) : Prop :=
  let text := parse_question_file line in
  match text with
  | String c _ =>
      if Ascii.eqb c "#" then proximity_match text = None
      else query_syntax_ok (S (String.length text)) text = false
  | EmptyString => False
  end.

(* ------------------------------------------------------------------ *)
(** ** Index states *)

(** The sum over documents of the sizes of a word's position sets. *)
Definition positions_total (pd : gmap Z (gset Z)) : nat :=
  map_fold (λ _ ps acc, size ps + acc)%nat 0%nat pd.

(** A word's dictionary is consistent: its frequency is the number of
    its positions, and its document set holds exactly the documents with
    a non-empty position set. *)
Definition posting_ok (p : posting) : Prop :=
  frequency p = Z.of_nat (positions_total (position_dict p)) /\
  ∀ d, d ∈ document_set p <-> exists ps, position_dict p !! d = Some ps /\ ps ≠ ∅.

Definition index_ok (idx : gmap string entry) : Prop :=
  ∀ w p, idx !! w = Some (Posting p) -> posting_ok p.

(** The query operations of an [InvertedIndex]. *)
Inductive query_op :=
  | QPhrase (text : string)
  | QBoolean (text : string)
  | QProximity (phrase_1 phrase_2 : string) (prox : Z)
  | QRanked (text : string).

Definition run_query_op (cfg : config) (op : query_op) : M unit :=
  match op with
  | QPhrase t => let* _ := _phrase_search cfg t in ret tt
  | QBoolean t => let* _ := boolean_query cfg t in ret tt
  | QProximity p1 p2 k => let* _ := _proximity_search cfg (p1, p2) k in ret tt
  | QRanked t => let* _ := ranked_ir_tfidf_R cfg t in ret tt
  end.

(** The states an index reaches: built from documents with distinct
    [DOCNO]s, then queried any number of times. *)
Inductive reachable (cfg : config) : store -> Prop :=
  | reachable_build docs s :
      NoDup (map docno docs) -> build_index cfg docs = Ok s -> reachable cfg s
  | reachable_query s op u s' :
      reachable cfg s -> run_query_op cfg op s = Ok (u, s') -> reachable cfg s'.

(** How queries may change the index: entries of new keys that are the
    factory's value with empty position sets, and, in existing
    dictionaries, empty position sets for new documents. *)
Definition entry_le (e e' : entry) : Prop :=
  match e, e' with
  | Posting p, Posting p' =>
      frequency p' = frequency p /\ document_set p' = document_set p /\
      position_dict p ⊆ position_dict p' /\
      (∀ d ps, position_dict p' !! d = Some ps -> position_dict p !! d = None -> ps = ∅)
  | TotalEntry n ds, TotalEntry n' ds' => n' = n /\ ds' = ds
  | _, _ => False
  end.

Definition opt_entry_le (o o' : option entry) : Prop :=
  match o, o' with
  | None, None => True
  | None, Some e' => entry_le (Posting default_posting) e'
  | Some e, Some e' => entry_le e e'
  | Some _, None => False
  end.

Definition index_le (s s' : store) : Prop :=
  ∀ w, opt_entry_le (inverted_index s !! w) (inverted_index s' !! w).

(* ------------------------------------------------------------------ *)
(** ** Auxiliary notions for the proofs *)

(** The document set stored for [w], empty when [w] has no posting. *)
Definition docs_of (idx : gmap string entry) (w : string) : gset Z :=
  match idx !! w with Some (Posting p) => document_set p | _ => ∅ end.

(** [potential_positions_dict] only holds set objects created by the call. *)
Definition heap_refs (ppd : gmap Z sref) : Prop :=
  ∀ d r, ppd !! d = Some r -> exists n, r = RHeap n.

(** The set objects created by a call only lose elements. *)
Definition shrinks (s s' : store) : Prop :=
  ∀ n v', heap s' !! n = Some v' -> exists v, heap s !! n = Some v /\ v' ⊆ v.

(** The dictionary of a word after [add_word] at document [d], position [pos]. *)
Definition add_word_post (p : posting) (d pos : Z) : posting :=
  mk_posting (frequency p + 1) ({[d]} ∪ document_set p)
    (<[d := {[pos]} ∪ default ∅ (position_dict p !! d)]> (position_dict p)).

(** No word has positions in document [d] yet. *)
Definition fresh_doc (idx : gmap string entry) (d : Z) : Prop :=
  ∀ w p, idx !! w = Some (Posting p) -> position_dict p !! d = None.

(** The positions recorded for document [d] are all below [pos]. *)
Definition before_pos (idx : gmap string entry) (d pos : Z) : Prop :=
  ∀ w p ps, idx !! w = Some (Posting p) -> position_dict p !! d = Some ps ->
            ∀ x, x ∈ ps -> x < pos.

(** The invariant of [_build_index] between two words. *)
Definition build_inv (idx : gmap string entry) : Prop :=
  index_ok idx /\ exists n ds, idx !! total_key = Some (TotalEntry n ds).

(** A method that, from a consistent index, only extends it. *)
Definition mono {A} (m : M A) : Prop :=
  ∀ s a s', index_ok (inverted_index s) -> m s = Ok (a, s') -> index_le s s'.

(** The state after a method call. *)
Definition state_after {A} (m : M A) (s : store) : option store :=
  match m s with Ok (_, s') => Some s' | Raise _ => None end.

(** The entry at [w] after running a query. *)
Definition entry_after (cfg : config) (op : query_op) (s : store) (w : string) : option (option entry) :=
  option_map (λ s', inverted_index s' !! w) (state_after (run_query_op cfg op) s).

(** Document 0 is [the cat sat], document 1 is [cat the]. *)
Definition sat_docs : list doc :=
  [mk_doc 0 None (Some "the cat sat"%string); mk_doc 1 None (Some "cat the"%string)].

Definition sat_store : store := store_of (build_index plain_config sat_docs).

(* ------------------------------------------------------------------ *)
(** ** Auxiliary notions for the proofs of the code's properties *)

(** The words of a document in the order [_build_index] numbers them:
    those of the headline, then those of the text. *)
Definition raw_doc_words (dc : doc) : list string :=
  from_option split [] (headline dc) ++ from_option split [] (doc_text dc).

Definition doc_words (cfg : config) (dc : doc) : list string :=
  raw_doc_words (preprocess_doc cfg dc).

(** The positions recorded for [w] in document [d] (none without a posting). *)
Definition word_positions (idx : gmap string entry) (w : string) (d : Z) : gset Z :=
  match idx !! w with Some (Posting p) => default ∅ (position_dict p !! d) | _ => ∅ end.

Definition word_frequency (idx : gmap string entry) (w : string) : Z :=
  match idx !! w with Some (Posting p) => frequency p | _ => 0 end.

(** Only the special key holds the total entry. *)
Definition total_only_at_key (idx : gmap string entry) : Prop :=
  ∀ w n ds, idx !! w = Some (TotalEntry n ds) -> w = total_key.

(** The total set of documents recorded under the special key. *)
Definition total_docs (idx : gmap string entry) : gset Z :=
  match idx !! total_key with Some (TotalEntry _ ds) => ds | _ => ∅ end.

(** The (word, document, position) triples that [add_words] records. *)
Fixpoint word_occs (d : Z) (words : list string) (i offset : Z) : list (string * Z * Z) :=
  match words with
  | [] => []
  | w :: ws => (w, d, i + offset) :: word_occs d ws (i + 1) offset
  end.

(** The occurrences of a document's words, numbered from 0. *)
Definition doc_occs (dc : doc) : list (string * Z * Z) :=
  word_occs (docno dc) (raw_doc_words dc) 0 0.

(** [idx'] is [idx] with the occurrences [L] recorded. *)
Definition contents_add (idx idx' : gmap string entry) (L : list (string * Z * Z)) : Prop :=
  (∀ w d x, x ∈ word_positions idx' w d <-> x ∈ word_positions idx w d \/ In (w, d, x) L) /\
  (∀ w, word_frequency idx' w =
        word_frequency idx w + Z.of_nat (length (filter (λ o, o.1.1 = w) L))) /\
  (∀ w x, x ∈ docs_of idx' w <-> x ∈ docs_of idx w \/ exists y, In (w, x, y) L) /\
  (∀ x, x ∈ total_docs idx' <-> x ∈ total_docs idx \/ exists w y, In (w, x, y) L).

(** The shape of the index during [_build_index]. *)
Definition build_shape (idx : gmap string entry) : Prop :=
  (exists n ds, idx !! total_key = Some (TotalEntry n ds)) /\ total_only_at_key idx.

(** The words [ws] occur in document [d] at consecutive positions from [p]. *)
Definition phrase_at (idx : gmap string entry) (ws : list string) (d p : Z) : Prop :=
  ∀ j w, ws !! j = Some w -> p + Z.of_nat j ∈ word_positions idx w d.

(** The first [m] words of [ws] occur from [p]. *)
Definition match_upto (idx : gmap string entry) (ws : list string) (d p : Z) (m : nat) : Prop :=
  ∀ j w, (j < m)%nat -> ws !! j = Some w -> p + Z.of_nat j ∈ word_positions idx w d.

(** The start positions kept by round [i] of the word loop: those whose
    current word is not followed by the next word are dropped. *)
Definition trim (i : Z) (cv nv v : gset Z) : gset Z :=
  filter (λ x, x + i ∉ cv \/ x + i + 1 ∈ nv) v.

(** The state of [potential_positions_dict] once the first [m] words are
    matched: fresh set objects, one per document, holding exactly the
    start positions of those words, and a key for every document where
    they occur. *)
Definition ppd_inv (idx : gmap string entry) (ws : list string) (m : nat) (s : store)
    (ppd : gmap Z sref) : Prop :=
  (∀ d r, ppd !! d = Some r -> exists n v, r = RHeap n /\ (n < next_obj s)%nat /\
     heap s !! n = Some v /\ v ≠ ∅ /\ ∀ p, p ∈ v <-> match_upto idx ws d p m) /\
  (∀ d1 d2 n, ppd !! d1 = Some (RHeap n) -> ppd !! d2 = Some (RHeap n) -> d1 = d2) /\
  (∀ d p, match_upto idx ws d p m -> is_Some (ppd !! d)).

(** The characters of a query with no connector and no capital letter. *)
Definition lower_digit_space (c : ascii) : bool := is_lower c || is_digit c || Ascii.eqb c " ".

(** The score stored under [d] in a [wtd_score_dict] kept as an
    association list. *)
Fixpoint assoc_lookup {V} (acc : list (Z * V)) (d : Z) : option V :=
  match acc with
  | [] => None
  | (k, v) :: rest => if k =? d then Some v else assoc_lookup rest d
  end.

(** The TF-IDF weights a document receives, one per query word (repeats
    included) whose document set holds it, in query order. *)
Definition term_weights {score} (weight : Z -> nat -> nat -> score) (idx : gmap string entry)
    (my_N : Z) (terms : list string) (d : Z) : list score :=
  map (λ w, weight my_N (size (word_positions idx w d)) (size (docs_of idx w)))
      (filter (λ w, d ∈ docs_of idx w) terms).

(** The entry of [d] in [wtd_score_dict]: absent when no query word
    holds [d], else the running sum of its weights from [0]. *)
Definition score_of {score} (zero : score) (add : score -> score -> score)
    (weight : Z -> nat -> nat -> score) (idx : gmap string entry) (my_N : Z)
    (terms : list string) (d : Z) : option score :=
  match term_weights weight idx my_N terms d with
  | [] => None
  | ws => Some (foldl add zero ws)
  end.

(** [sorted(..., key=lambda x: x[1], reverse=True)] as a relation: the
    first score is at least the second. *)
Definition ge_snd {score} (ge : score -> score -> bool) (x y : Z * score) : Prop := ge x.2 y.2 = true.

(* ------------------------------------------------------------------ *)
(** ** The lookups a query makes *)

(** [_word_dict] finds [w] with a non-zero frequency. *)
Definition word_present (idx : gmap string entry) (w : string) : Prop :=
  exists p, idx !! w = Some (Posting p) /\ frequency p ≠ 0.

(** The first loop of [_phrase_search] over [ws] reaches [w]: every word
    before it is present (the loop stops at the first absent one). *)
Fixpoint reaches (idx : gmap string entry) (ws : list string) (w : string) : Prop :=
  match ws with
  | [] => False
  | w' :: ws' => w' = w \/ (word_present idx w' /\ reaches idx ws' w)
  end.

(** The phrases the parser loop of [boolean_query] searches, round by
    round, until the end of the text or a syntax error. *)
Fixpoint boolean_phrases (fuel : nat) (text : string) : list string :=
  match fuel with
  | O => []
  | S fuel' =>
      match query_match text with
      | None => []
      | Some (initial_group, connector, remaining) =>
          let initial_text := strip (not_split initial_group).2 in
          let remaining_text := strip remaining in
          initial_text ::
            (if String.eqb connector "" || String.eqb remaining_text "" then []
             else boolean_phrases fuel' remaining_text)
      end
  end.

(** The query passes [w] to [_word_dict]: a phrase search when its loop
    reaches [w]; a boolean query when the loop of one of its phrases
    does; a proximity query when the loop of its first phrase does, or
    when the first phrase occurs and the loop of the second reaches [w];
    a ranked query when [w] is one of its words. *)
Definition looks_up (cfg : config) (idx : gmap string entry) (op : query_op) (w : string) : Prop :=
  match op with
  | QPhrase t => reaches idx (split (my_preprocessor cfg t)) w
  | QBoolean t =>
      exists phrase, In phrase (boolean_phrases (S (String.length t)) t) /\
                     reaches idx (split (my_preprocessor cfg phrase)) w
  | QProximity p1 p2 _ =>
      reaches idx (split (my_preprocessor cfg p1)) w \/
      ((exists d p, phrase_at idx (split (my_preprocessor cfg p1)) d p) /\
       reaches idx (split (my_preprocessor cfg p2)) w)
  | QRanked t => In w (split (my_preprocessor cfg t))
  end.

(** [w] is stored with an empty-but-present dictionary: frequency 0, no
    document and only empty position sets. *)
Definition empty_entry (idx : gmap string entry) (w : string) : Prop :=
  exists p, idx !! w = Some (Posting p) /\ frequency p = 0 /\ document_set p = ∅ /\
            ∀ d ps, position_dict p !! d = Some ps -> ps = ∅.

(** [w] is absent or stored with an empty-but-present dictionary. *)
Definition absent_or_empty (idx : gmap string entry) (w : string) : Prop :=
  idx !! w = None \/ empty_entry idx w.

(* ================================================================== *)
(** * Proofs *)

(** ** Proofs about [proximity] *)

Lemma merge_tagged_cons_cons x xs y ys :
  merge_tagged (x :: xs) (y :: ys) =
  if x <=? y then (x, 0) :: merge_tagged xs (y :: ys)
  else (y, 1) :: merge_tagged (x :: xs) ys.
Proof. reflexivity. Qed.

Lemma merge_tagged_nil_r l0 : merge_tagged l0 [] = map (λ x, (x, 0)) l0.
Proof. destruct l0; reflexivity. Qed.

Lemma adj_cross_cons_cons p q r : adj_cross (p :: q :: r) = adj_one p q ++ adj_cross (q :: r).
Proof. reflexivity. Qed.

(** A run from a single list has no cross pair. *)
Lemma adj_cross_single_tag (t : Z) (l : list Z) :
  t + t <> 1 -> adj_cross (map (λ y, (y, t)) l) = [].
Proof.
  intros Ht. induction l as [|x [|y l] IH]; [done|done|].
  rewrite map_cons, map_cons, adj_cross_cons_cons.
  unfold adj_one; simpl. rewrite (proj2 (Z.eqb_neq _ _) Ht).
  simpl in IH. exact IH.
Qed.

Lemma py_get_nat {A} (l : list A) (n : nat) :
  py_get l (Z.of_nat n) = match l !! n with Some x => Ok x | None => Raise IndexError end.
Proof.
  unfold py_get. cbv zeta.
  assert (H : (Z.of_nat n <? 0) = false) by (apply Z.ltb_ge; lia).
  rewrite !H, Nat2Z.id. reflexivity.
Qed.

Lemma py_get_pred {A} (l : list A) (n : nat) :
  (1 <= n)%nat ->
  py_get l (Z.of_nat n - 1) = match l !! (n - 1)%nat with Some x => Ok x | None => Raise IndexError end.
Proof.
  intros Hn. replace (Z.of_nat n - 1) with (Z.of_nat (n - 1)) by lia. apply py_get_nat.
Qed.

Lemma check_proximity_ok cur st lv x :
  merged_list st !! loop_i st = Some (MInt x) ->
  merged_list st !! (loop_i st - 1)%nat = Some (MInt lv) ->
  (1 <= loop_i st)%nat ->
  check_proximity cur st =
  Ok (let r := fold_left upd (adj_one (lv, previous_list_add st) (x, cur))
                 (min_proximity st, positions st) in
      mk_prox_state r.1 r.2 (list_0_counter st) (list_1_counter st) (loop_i st)
        (previous_list_add st) (merged_list st)).
Proof.
  destruct st as [mn ps c0 c1 i prev merged]; simpl. intros Hx Hlv Hi.
  unfold check_proximity, adj_one; simpl.
  destruct (cur + prev =? 1) eqn:E; [|reflexivity].
  rewrite py_get_nat, Hx, py_get_pred, Hlv by exact Hi. simpl.
  unfold upd, dist; simpl.
  destruct (cur =? 1); simpl.
  1: replace (Z.abs (lv - x)) with (Z.abs (x - lv)) by lia.
  all: destruct mn as [y|]; [|reflexivity].
  all: destruct (Z.abs (x - lv) <? y); [reflexivity|].
  all: destruct (Z.abs (x - lv) =? y); reflexivity.
Qed.

Section ProximityLoopProofs.
Variables list_0 list_1 : list Z.

Lemma prox_loop_spec fuel st lv :
  prox_inv list_0 list_1 st lv ->
  (length list_0 + length list_1 - loop_i st <= fuel)%nat ->
  exists st', prox_loop fuel list_0 list_1 st = Ok st' /\
    (min_proximity st', positions st') = prox_expected list_0 list_1 st lv.
Proof.
  revert st lv. induction fuel as [|fuel IH]; intros st lv Hinv Hfuel;
  destruct Hinv as (Hlen & Hlast & Hi1 & Hc & Hc0 & Hc1); simpl.
  - destruct (loop_i st <? length list_0 + length list_1)%nat eqn:E.
    { apply Nat.ltb_lt in E. lia. }
    apply Nat.ltb_ge in E.
    exists st. split; [done|]. unfold prox_expected.
    rewrite !drop_ge by lia. reflexivity.
  - destruct (loop_i st <? length list_0 + length list_1)%nat eqn:E.
    2:{ apply Nat.ltb_ge in E. exists st. split; [done|]. unfold prox_expected.
        rewrite !drop_ge by lia. reflexivity. }
    apply Nat.ltb_lt in E.
    unfold prox_step. cbv zeta.
    destruct (list_0_counter st =? length list_0)%nat eqn:E0.
    + (* list_0 exhausted: one more element of list_1, then stop *)
      apply Nat.eqb_eq in E0.
      destruct (list_1 !! list_1_counter st) as [x|] eqn:Hx.
      2:{ apply lookup_ge_None in Hx. lia. }
      rewrite py_get_nat, Hx. simpl.
      rewrite check_proximity_ok with (lv := lv) (x := x); simpl.
      2:{ rewrite lookup_app_r by lia. rewrite Hlen, Nat.sub_diag. done. }
      2:{ rewrite lookup_app_l by lia. done. }
      2:{ done. }
      eexists. split.
      { destruct fuel; simpl; rewrite (proj2 (Nat.ltb_ge _ _)) by lia; reflexivity. }
      unfold prox_expected. rewrite E0, drop_all, (drop_S _ _ _ Hx).
      change (merge_tagged [] (x :: ?r)) with ((x, 1) :: map (λ y, (y, 1)) r).
      rewrite adj_cross_cons_cons.
      change ((x, 1) :: map (λ y, (y, 1)) ?r) with (map (λ y, (y, 1)) (x :: r)).
      rewrite (adj_cross_single_tag 1) by lia.
      rewrite app_nil_r. simpl. destruct (fold_left _ _ _). reflexivity.
    + apply Nat.eqb_neq in E0.
      destruct (list_1_counter st =? length list_1)%nat eqn:E1.
      * (* list_1 exhausted: one more element of list_0, then break *)
        apply Nat.eqb_eq in E1.
        destruct (list_0 !! list_0_counter st) as [x|] eqn:Hx.
        2:{ apply lookup_ge_None in Hx. lia. }
        rewrite py_get_nat, Hx. simpl.
        rewrite check_proximity_ok with (lv := lv) (x := x); simpl.
        2:{ rewrite lookup_app_r by lia. rewrite Hlen, Nat.sub_diag. done. }
        2:{ rewrite lookup_app_l by lia. done. }
        2:{ done. }
        eexists. split; [reflexivity|].
        unfold prox_expected. rewrite E1, drop_all, (drop_S _ _ _ Hx).
        rewrite merge_tagged_nil_r, map_cons, adj_cross_cons_cons.
        change ((x, 0) :: map (λ y, (y, 0)) ?r) with (map (λ y, (y, 0)) (x :: r)).
        rewrite (adj_cross_single_tag 0) by lia.
        rewrite app_nil_r. simpl. destruct (fold_left _ _ _). reflexivity.
      * apply Nat.eqb_neq in E1.
        destruct (list_0 !! list_0_counter st) as [x0|] eqn:Hx0.
        2:{ apply lookup_ge_None in Hx0. lia. }
        destruct (list_1 !! list_1_counter st) as [x1|] eqn:Hx1.
        2:{ apply lookup_ge_None in Hx1. lia. }
        rewrite !py_get_nat, Hx0, Hx1. simpl.
        destruct (x0 <=? x1) eqn:Hle.
        -- rewrite check_proximity_ok with (lv := lv) (x := x0); simpl.
           2:{ rewrite lookup_app_r by lia. rewrite Hlen, Nat.sub_diag. done. }
           2:{ rewrite lookup_app_l by lia. done. }
           2:{ done. }
           match goal with |- context [prox_loop fuel list_0 list_1 ?s] =>
             destruct (IH s x0) as (st' & Hrun & Hres) end;
             [| |exists st'; split; [exact Hrun|]].
           { unfold prox_inv; simpl. rewrite length_app; simpl.
             repeat split; try lia.
             replace (loop_i st - 0)%nat with (length (merged_list st)) by lia.
             rewrite lookup_app_r, Nat.sub_diag by lia. done. }
           { simpl. lia. }
           rewrite Hres. unfold prox_expected.
           cbn [set_i_prev set_counters min_proximity positions previous_list_add
                list_0_counter list_1_counter].
           rewrite (drop_S _ _ _ Hx0), (drop_S _ _ _ Hx1), merge_tagged_cons_cons, Hle.
           rewrite (adj_cross_cons_cons (lv, _)), fold_left_app.
           destruct (fold_left upd (adj_one _ _) _). reflexivity.
        -- rewrite check_proximity_ok with (lv := lv) (x := x1); simpl.
           2:{ rewrite lookup_app_r by lia. rewrite Hlen, Nat.sub_diag. done. }
           2:{ rewrite lookup_app_l by lia. done. }
           2:{ done. }
           match goal with |- context [prox_loop fuel list_0 list_1 ?s] =>
             destruct (IH s x1) as (st' & Hrun & Hres) end;
             [| |exists st'; split; [exact Hrun|]].
           { unfold prox_inv; simpl. rewrite length_app; simpl.
             repeat split; try lia.
             replace (loop_i st - 0)%nat with (length (merged_list st)) by lia.
             rewrite lookup_app_r, Nat.sub_diag by lia. done. }
           { simpl. lia. }
           rewrite Hres. unfold prox_expected.
           cbn [set_i_prev set_counters min_proximity positions previous_list_add
                list_0_counter list_1_counter].
           rewrite (drop_S _ _ _ Hx0), (drop_S _ _ _ Hx1), merge_tagged_cons_cons, Hle.
           rewrite (adj_cross_cons_cons (lv, _)), fold_left_app.
           destruct (fold_left upd (adj_one _ _) _). reflexivity.
Qed.

End ProximityLoopProofs.

(** The loop computes the fold of [upd] over the cross pairs of the
    merge, whenever both lists are non-empty. *)
Lemma proximity_fold (l0 l1 : list Z) :
  l0 <> [] -> l1 <> [] ->
  proximity l0 l1 = Ok (fold_left upd (adj_cross (merge_tagged l0 l1)) (Inf, [])).
Proof.
  destruct l0 as [|a r0]; [done|]. destruct l1 as [|b r1]; [done|]. intros _ _.
  unfold proximity. rewrite !(py_get_nat _ 0).
  change ((a :: r0) !! 0%nat) with (Some a). change ((b :: r1) !! 0%nat) with (Some b).
  cbn [mbind result_bind].
  destruct (a <=? b) eqn:Hab.
  - destruct (prox_loop_spec (a :: r0) (b :: r1) (length (a :: r0) + length (b :: r1))
                (mk_prox_state Inf [] 1 0 1 0 [MInt a]) a) as (st & Hrun & Hres).
    { repeat split; simpl; try lia. }
    { simpl. lia. }
    rewrite Hrun. cbn [mbind result_bind]. rewrite Hres.
    unfold prox_expected. cbn [list_0_counter list_1_counter previous_list_add
      min_proximity positions drop].
    rewrite (merge_tagged_cons_cons a r0 b r1), Hab. reflexivity.
  - destruct (prox_loop_spec (a :: r0) (b :: r1) (length (a :: r0) + length (b :: r1))
                (mk_prox_state Inf [] 0 1 1 1 [MInt b]) b) as (st & Hrun & Hres).
    { repeat split; simpl; try lia. }
    { simpl. lia. }
    rewrite Hrun. cbn [mbind result_bind]. rewrite Hres.
    unfold prox_expected. cbn [list_0_counter list_1_counter previous_list_add
      min_proximity positions drop].
    rewrite (merge_tagged_cons_cons a r0 b r1), Hab. reflexivity.
Qed.

Lemma filter_none (P : Z * Z -> Prop) `{!∀ x, Decision (P x)} (L : list (Z * Z)) :
  (∀ x, In x L -> ¬ P x) -> filter P L = [].
Proof.
  induction L as [|x L IH]; intros Hn; [done|].
  rewrite filter_cons. rewrite decide_False by (apply Hn; left; done).
  apply IH. intros y Hy. apply Hn. right. done.
Qed.

(** The fold of [upd] from [(np.inf, [])]: the minimum distance, and all
    the pairs at that distance, in order. *)
Lemma fold_upd_spec (L : list (Z * Z)) :
  L <> [] ->
  exists m, fold_left upd L (Inf, []) = (Fin m, filter (λ p, dist p = m) L) /\
    (exists p, In p L /\ dist p = m) /\ (∀ p, In p L -> m <= dist p).
Proof.
  induction L as [|p L IH] using rev_ind; [done|]. intros _.
  rewrite fold_left_app. simpl.
  destruct (decide (L = [])) as [->|HL].
  - exists (dist p). simpl. unfold upd; simpl.
    rewrite filter_cons, filter_nil, decide_True by done. split; [done|]. split.
    + exists p. split; [left|]; done.
    + intros q [<-|[]]. lia.
  - destruct (IH HL) as (m & Hf & (q & Hq & Hqm) & Hmin). rewrite Hf.
    unfold upd; simpl.
    destruct (dist p <? m) eqn:Hlt.
    + apply Z.ltb_lt in Hlt. exists (dist p). rewrite filter_app.
      rewrite (filter_none (λ x, dist x = dist p)).
      2:{ intros x Hx Heq. specialize (Hmin x Hx). lia. }
      rewrite filter_cons, filter_nil, decide_True by done. simpl. split; [done|]. split.
      * exists p. rewrite in_app_iff. split; [right; left|]; done.
      * intros x Hx. apply in_app_iff in Hx as [Hx|[<-|[]]]; [|lia].
        specialize (Hmin x Hx). lia.
    + apply Z.ltb_ge in Hlt. exists m. rewrite filter_app, filter_cons, filter_nil.
      destruct (dist p =? m) eqn:Heq.
      * apply Z.eqb_eq in Heq. rewrite decide_True by done. split; [done|]. split.
        -- exists q. rewrite in_app_iff. split; [left|]; done.
        -- intros x Hx. apply in_app_iff in Hx as [Hx|[<-|[]]]; [auto|lia].
      * apply Z.eqb_neq in Heq. rewrite decide_False by done. rewrite app_nil_r.
        split; [done|]. split.
        -- exists q. rewrite in_app_iff. split; [left|]; done.
        -- intros x Hx. apply in_app_iff in Hx as [Hx|[<-|[]]]; [auto|lia].
Qed.

Lemma merge_tagged_perm (l0 l1 : list Z) :
  Permutation (merge_tagged l0 l1) (map (λ x, (x, 0)) l0 ++ map (λ y, (y, 1)) l1).
Proof.
  revert l1. induction l0 as [|x xs IH]; intros l1; [done|].
  induction l1 as [|y ys IHy].
  - rewrite merge_tagged_nil_r. simpl. rewrite app_nil_r. done.
  - rewrite merge_tagged_cons_cons. destruct (x <=? y).
    + simpl. constructor. apply IH.
    + rewrite IHy. simpl.
      apply (Permutation_middle ((x, 0) :: map (λ x0 : Z, (x0, 0)) xs)).
Qed.

Lemma merge_tagged_elem (l0 l1 : list Z) v t :
  In (v, t) (merge_tagged l0 l1) <->
  (t = 0 /\ In v l0) \/ (t = 1 /\ In v l1).
Proof.
  split.
  - intros H. eapply Permutation_in in H; [|apply merge_tagged_perm].
    apply in_app_iff in H as [H|H]; apply in_map_iff in H as (x & [= <- <-] & Hx); auto.
  - intros H. eapply Permutation_in; [symmetry; apply merge_tagged_perm|].
    apply in_app_iff. destruct H as [[-> H]|[-> H]];
      [left|right]; apply in_map_iff; eauto.
Qed.

Lemma adj_cross_cons_sub p m z : In z (adj_cross m) -> In z (adj_cross (p :: m)).
Proof. destruct m as [|q r]; [done|]. intros H. simpl. apply in_app_iff. right. exact H. Qed.

Lemma adj_cross_elem (m : list (Z * Z)) z :
  In z (adj_cross m) ->
  exists v1 t1 v2 t2, In (v1, t1) m /\ In (v2, t2) m /\ t2 + t1 = 1 /\
    z = if t2 =? 1 then (v1, v2) else (v2, v1).
Proof.
  induction m as [|[v1 t1] r IH]; [done|].
  destruct r as [|[v2 t2] r']; [done|].
  rewrite adj_cross_cons_cons. intros H. apply in_app_iff in H as [H|H].
  - unfold adj_one in H; simpl in H.
    destruct (t2 + t1 =? 1) eqn:E; [|done]. destruct H as [<-|[]].
    apply Z.eqb_eq in E. exists v1, t1, v2, t2.
    split; [left; done|]. split; [right; left; done|]. done.
  - destruct (IH H) as (a1 & s1 & a2 & s2 & H1 & H2 & Hs & ->).
    exists a1, s1, a2, s2. split; [right; exact H1|]. split; [right; exact H2|]. done.
Qed.

(** Every adjacent cross pair is a pair (element of [l0], element of [l1]). *)
Lemma adj_cross_sound (l0 l1 : list Z) a b :
  In (a, b) (adj_cross (merge_tagged l0 l1)) -> In a l0 /\ In b l1.
Proof.
  intros H. apply adj_cross_elem in H as (v1 & t1 & v2 & t2 & H1 & H2 & Ht & Hz).
  apply merge_tagged_elem in H1, H2.
  destruct H1 as [[-> H1]|[-> H1]]; destruct H2 as [[-> H2]|[-> H2]];
    simpl in Hz, Ht; try lia; injection Hz as -> ->; auto.
Qed.

(** A merge holding elements of both lists has an adjacent cross pair. *)
Lemma adj_cross_nonempty (m : list (Z * Z)) v w :
  In (v, 0) m -> In (w, 1) m -> (∀ q, In q m -> q.2 = 0 \/ q.2 = 1) ->
  adj_cross m <> [].
Proof.
  revert v w. induction m as [|p r IH]; intros v w Hv Hw Ht; [done|].
  destruct r as [|q r'].
  - destruct Hv as [->|[]]. destruct Hw as [[=]|[]].
  - rewrite adj_cross_cons_cons. intros Hnil. apply app_eq_nil in Hnil as [H1 H2].
    destruct (Ht p (or_introl eq_refl)) as [Hp|Hp];
    destruct (Ht q (or_intror (or_introl eq_refl))) as [Hq|Hq];
      try (unfold adj_one in H1; rewrite Hp, Hq in H1; simpl in H1; discriminate).
    + apply (IH q.1 w); [left; destruct q; simpl in *; subst; done| |
        intros x Hx; apply Ht; right; exact Hx|exact H2].
      destruct Hw as [->|Hw]; [simpl in Hp; lia|exact Hw].
    + apply (IH v q.1); [|left; destruct q; simpl in *; subst; done|
        intros x Hx; apply Ht; right; exact Hx|exact H2].
      destruct Hv as [->|Hv]; [simpl in Hp; lia|exact Hv].
Qed.

Lemma strictly_sorted_cons x xs :
  strictly_sorted (x :: xs) -> strictly_sorted xs /\ ∀ z, In z xs -> x < z.
Proof.
  intros H. apply StronglySorted_inv in H as [H1 H2]. split; [exact H1|].
  intros z Hz. rewrite List.Forall_forall in H2. apply H2, Hz.
Qed.

(** A pair [a <= b] with nothing of [l0] in [(a, b]] and nothing of [l1]
    in [[a, b)] is adjacent in the merge. *)
Lemma adj_complete_le (l0 l1 : list Z) a b :
  strictly_sorted l0 -> strictly_sorted l1 -> In a l0 -> In b l1 -> a <= b ->
  (∀ c, In c l0 -> ¬ (a < c <= b)) -> (∀ c, In c l1 -> ¬ (a <= c < b)) ->
  In (a, b) (adj_cross (merge_tagged l0 l1)).
Proof.
  revert l1. induction l0 as [|x xs IH]; intros l1 H0 H1 Ha Hb Hab Hc0 Hc1; [done|].
  revert H1 Hb Hc1. induction l1 as [|y ys IHy]; intros H1 Hb Hc1; [done|].
  pose proof H1 as H1'.
  apply strictly_sorted_cons in H0 as [S0 G0]. apply strictly_sorted_cons in H1 as [S1 G1].
  rewrite merge_tagged_cons_cons. destruct (x <=? y) eqn:Hxy.
  - apply Z.leb_le in Hxy. destruct (decide (x = a)) as [->|Hxa].
    + assert (y = b) as ->.
      { destruct Hb as [->|Hb]; [done|]. specialize (G1 b Hb).
        specialize (Hc1 y (or_introl eq_refl)). lia. }
      destruct xs as [|x' xs'].
      * simpl. left. done.
      * assert (b < x').
        { specialize (G0 x' (or_introl eq_refl)).
          specialize (Hc0 x' (or_intror (or_introl eq_refl))). lia. }
        rewrite merge_tagged_cons_cons.
        rewrite (proj2 (Z.leb_gt x' b)) by lia. simpl. left. done.
    + destruct Ha as [->|Ha]; [done|].
      apply adj_cross_cons_sub. apply IH; auto.
      intros c Hc. apply Hc0. right. exact Hc.
  - apply Z.leb_gt in Hxy. destruct (decide (y = b)) as [->|Hyb].
    + exfalso. destruct Ha as [->|Ha]; [lia|]. specialize (G0 a Ha). lia.
    + destruct Hb as [->|Hb]; [done|].
      apply adj_cross_cons_sub. apply IHy; auto.
      intros c Hc. apply Hc1. right. exact Hc.
Qed.

(** The mirror case [b < a]. *)
Lemma adj_complete_gt (l0 l1 : list Z) a b :
  strictly_sorted l0 -> strictly_sorted l1 -> In a l0 -> In b l1 -> b < a ->
  (∀ c, In c l1 -> ¬ (b < c <= a)) -> (∀ c, In c l0 -> ¬ (b <= c < a)) ->
  In (a, b) (adj_cross (merge_tagged l0 l1)).
Proof.
  revert l1. induction l0 as [|x xs IH]; intros l1 H0 H1 Ha Hb Hba Hc1 Hc0; [done|].
  revert H1 Hb Hc1. induction l1 as [|y ys IHy]; intros H1 Hb Hc1; [done|].
  pose proof H0 as H0'.
  pose proof H1 as H1'.
  apply strictly_sorted_cons in H0 as [S0 G0]. apply strictly_sorted_cons in H1 as [S1 G1].
  rewrite merge_tagged_cons_cons. destruct (x <=? y) eqn:Hxy.
  - apply Z.leb_le in Hxy. destruct (decide (x = a)) as [->|Hxa].
    + exfalso. destruct Hb as [->|Hb]; [lia|]. specialize (G1 b Hb). lia.
    + destruct Ha as [->|Ha]; [done|].
      apply adj_cross_cons_sub. apply IH; auto.
      intros c Hc. apply Hc0. right. exact Hc.
  - apply Z.leb_gt in Hxy. destruct (decide (y = b)) as [->|Hyb].
    + assert (x = a) as ->.
      { destruct Ha as [->|Ha]; [done|]. specialize (G0 a Ha).
        specialize (Hc0 x (or_introl eq_refl)). lia. }
      destruct ys as [|y' ys'].
      * rewrite merge_tagged_nil_r. simpl. left. done.
      * assert (a < y').
        { specialize (G1 y' (or_introl eq_refl)).
          specialize (Hc1 y' (or_intror (or_introl eq_refl))). lia. }
        rewrite merge_tagged_cons_cons.
        rewrite (proj2 (Z.leb_le a y')) by lia. simpl. left. done.
    + destruct Hb as [->|Hb]; [done|].
      apply adj_cross_cons_sub. apply IHy; auto.
      intros c Hc. apply Hc1. right. exact Hc.
Qed.

(** A cross pair at the least cross distance is adjacent in the merge. *)
Lemma adj_complete_min (l0 l1 : list Z) a b :
  strictly_sorted l0 -> strictly_sorted l1 -> In a l0 -> In b l1 ->
  (∀ a' b', In a' l0 -> In b' l1 -> Z.abs (a - b) <= Z.abs (a' - b')) ->
  In (a, b) (adj_cross (merge_tagged l0 l1)).
Proof.
  intros H0 H1 Ha Hb Hmin. destruct (Z_le_gt_dec a b) as [Hab|Hab].
  - apply adj_complete_le; auto.
    + intros c Hc Hr. specialize (Hmin c b Hc Hb). lia.
    + intros c Hc Hr. specialize (Hmin a c Ha Hc). lia.
  - apply adj_complete_gt; auto; [lia| |].
    + intros c Hc Hr. specialize (Hmin a c Ha Hc). lia.
    + intros c Hc Hr. specialize (Hmin c b Hc Hb). lia.
Qed.

Lemma exists_min_pair (L : list (Z * Z)) :
  L <> [] -> exists p, In p L /\ ∀ q, In q L -> dist p <= dist q.
Proof.
  induction L as [|p L IH]; [done|]. intros _.
  destruct (decide (L = [])) as [->|HL].
  - exists p. split; [left; done|]. intros q [<-|[]]. lia.
  - destruct (IH HL) as (p' & Hp' & Hmin).
    destruct (Z_le_gt_dec (dist p) (dist p')).
    + exists p. split; [left; done|]. intros q [<-|Hq]; [lia|]. specialize (Hmin q Hq). lia.
    + exists p'. split; [right; done|]. intros q [<-|Hq]; [lia|]. auto.
Qed.

(** Some cross pair is at the least cross distance. *)
Lemma exists_min_cross (l0 l1 : list Z) :
  l0 <> [] -> l1 <> [] ->
  exists a b, In a l0 /\ In b l1 /\
    ∀ a' b', In a' l0 -> In b' l1 -> Z.abs (a - b) <= Z.abs (a' - b').
Proof.
  intros H0 H1. destruct (exists_min_pair (list_prod l0 l1)) as ([a b] & Hab & Hmin).
  { destruct l0 as [|x l0]; [done|]. destruct l1 as [|y l1]; [done|]. simpl. done. }
  apply in_prod_iff in Hab as [Ha Hb]. exists a, b. split; [done|]. split; [done|].
  intros a' b' Ha' Hb'. apply (Hmin (a', b')). apply in_prod_iff. auto.
Qed.

Lemma proximity_fold_result (l0 l1 : list Z) :
  l0 <> [] -> l1 <> [] ->
  exists m, proximity l0 l1 =
    Ok (Fin m, filter (λ p, dist p = m) (adj_cross (merge_tagged l0 l1))) /\
    (exists p, In p (adj_cross (merge_tagged l0 l1)) /\ dist p = m) /\
    (∀ p, In p (adj_cross (merge_tagged l0 l1)) -> m <= dist p).
Proof.
  intros H0 H1. rewrite proximity_fold by done.
  destruct (fold_upd_spec (adj_cross (merge_tagged l0 l1))) as (m & Hf & Hrest).
  2:{ exists m. rewrite Hf. split; [done|exact Hrest]. }
  destruct l0 as [|a r0]; [done|]. destruct l1 as [|b r1]; [done|].
  apply (adj_cross_nonempty _ a b).
  - apply merge_tagged_elem. left. split; [done|left; done].
  - apply merge_tagged_elem. right. split; [done|left; done].
  - intros [v t] Hq. apply merge_tagged_elem in Hq as [[-> _]|[-> _]]; auto.
Qed.

(** ** C4: what [proximity] returns *)

(** C4.  For non-empty, strictly increasing [list_0] and [list_1],
    [proximity] returns [(m, ps)] where [m] is the least distance between
    two adjacent merged elements from different lists, which is also the
    least [|a - b|] over all [a] of [list_0] and [b] of [list_1]; and [ps]
    holds exactly the pairs [(a, b)] ([a] from [list_0], [b] from
    [list_1]) at distance [m], ties included. *)
Theorem proximity_min_and_all_ties (list_0 list_1 : list Z) :
  list_0 <> [] -> list_1 <> [] ->
  strictly_sorted list_0 -> strictly_sorted list_1 ->
  exists m ps, proximity list_0 list_1 = Ok (Fin m, ps) /\
    (exists p, In p (adj_cross (merge_tagged list_0 list_1)) /\ dist p = m) /\
    (∀ p, In p (adj_cross (merge_tagged list_0 list_1)) -> m <= dist p) /\
    (exists a b, In a list_0 /\ In b list_1 /\ Z.abs (a - b) = m) /\
    (∀ a b, In a list_0 -> In b list_1 -> m <= Z.abs (a - b)) /\
    (∀ a b, In (a, b) ps <-> In a list_0 /\ In b list_1 /\ Z.abs (a - b) = m).
Proof.
  intros H0 H1 S0 S1.
  destruct (proximity_fold_result list_0 list_1 H0 H1) as (m & Hrun & Hex & Hadj).
  assert (Hglob : ∀ a b, In a list_0 -> In b list_1 -> m <= Z.abs (a - b)).
  { destruct (exists_min_cross list_0 list_1 H0 H1) as (a0 & b0 & Ha0 & Hb0 & Hmin).
    pose proof (adj_complete_min list_0 list_1 a0 b0 S0 S1 Ha0 Hb0 Hmin) as Hin.
    specialize (Hadj _ Hin). unfold dist in Hadj; simpl in Hadj.
    intros a b Ha Hb. specialize (Hmin a b Ha Hb). lia. }
  eexists m, _. split; [exact Hrun|]. split; [exact Hex|]. split; [exact Hadj|].
  split; [|split; [exact Hglob|]].
  - destruct Hex as ([a b] & Hin & Hd). apply adj_cross_sound in Hin as [Ha Hb].
    exists a, b. auto.
  - intros a b. rewrite <- list_elem_of_In, list_elem_of_filter, list_elem_of_In.
    unfold dist; simpl. split.
    + intros [Hd Hin]. apply adj_cross_sound in Hin as [Ha Hb]. auto.
    + intros (Ha & Hb & Hd). split; [exact Hd|].
      apply adj_complete_min; auto.
      intros a' b' Ha' Hb'. specialize (Hglob a' b' Ha' Hb'). lia.
Qed.

(** ** C9: [proximity] is total on non-empty lists *)

(** C9.  For any two non-empty lists (sorted or not), [proximity] raises
    nothing (no list index out of range, no type error, and the loop ends
    within its bound), returns a finite minimum (never the [np.inf] it
    starts from) that is the distance of some pair (element of [list_0],
    element of [list_1]), and a non-empty list of minimising pairs. *)
Theorem proximity_total_finite (list_0 list_1 : list Z) :
  list_0 <> [] -> list_1 <> [] ->
  exists m ps, proximity list_0 list_1 = Ok (Fin m, ps) /\ ps <> [] /\
    exists a b, In a list_0 /\ In b list_1 /\ m = Z.abs (a - b).
Proof.
  intros H0 H1.
  destruct (proximity_fold_result list_0 list_1 H0 H1) as (m & Hrun & ([a b] & Hin & Hd) & _).
  eexists m, _. split; [exact Hrun|]. split.
  - intros Hnil.
    assert (Hf : (a, b) ∈ filter (λ p, dist p = m) (adj_cross (merge_tagged list_0 list_1))).
    { apply list_elem_of_filter. split; [exact Hd|]. apply list_elem_of_In. exact Hin. }
    rewrite Hnil in Hf. apply not_elem_of_nil in Hf. exact Hf.
  - apply adj_cross_sound in Hin as [Ha Hb]. exists a, b. unfold dist in Hd. auto.
Qed.

Lemma strictly_sorted_2_10 : strictly_sorted [2; 10].
Proof. repeat constructor; lia. Qed.

Lemma strictly_sorted_5_11 : strictly_sorted [5; 11].
Proof. repeat constructor; lia. Qed.

Lemma proximity_min_and_all_ties_witness :
  strictly_sorted [2; 10] /\ strictly_sorted [5; 11] /\
  proximity [2; 10] [5; 11] = Ok (Fin 1, [(10, 11)]) /\
  (∀ a b, In (a, b) [(10, 11)] <-> In a [2; 10] /\ In b [5; 11] /\ Z.abs (a - b) = 1).
Proof.
  destruct (proximity_min_and_all_ties [2; 10] [5; 11] ltac:(discriminate) ltac:(discriminate)
              strictly_sorted_2_10 strictly_sorted_5_11)
    as (m & ps & Hrun & _ & _ & _ & _ & Hties).
  assert (Hr : proximity [2; 10] [5; 11] = Ok (Fin 1, [(10, 11)])) by reflexivity.
  rewrite Hr in Hrun. injection Hrun as <- <-.
  split; [exact strictly_sorted_2_10|]. split; [exact strictly_sorted_5_11|].
  split; [exact Hr|exact Hties].
Defined.

Lemma proximity_total_finite_witness :
  [3; 1] <> [] /\ [2] <> [] /\
  exists m ps, proximity [3; 1] [2] = Ok (Fin m, ps) /\ ps <> [] /\
    exists a b, In a [3; 1] /\ In b [2] /\ m = Z.abs (a - b).
Proof.
  split; [discriminate|]. split; [discriminate|].
  exact (proximity_total_finite [3; 1] [2] ltac:(discriminate) ltac:(discriminate)).
Defined.

(* ------------------------------------------------------------------ *)
(** ** Proofs about [ranked_ir_tfidf] *)

Lemma insert_desc_perm {score} (ge : score -> score -> bool) x l :
  insert_desc ge x l ≡ₚ x :: l.
Proof.
  induction l as [|y l IH]; simpl; [reflexivity|].
  destruct (ge y.2 x.2); [|reflexivity].
  rewrite IH. constructor.
Qed.

Lemma sort_desc_perm {score} (ge : score -> score -> bool) l :
  sort_desc ge l ≡ₚ l.
Proof.
  unfold sort_desc.
  assert (H : ∀ acc, fold_left (λ acc x, insert_desc ge x acc) l acc ≡ₚ rev l ++ acc).
  { induction l as [|x l IH]; intros acc; simpl; [reflexivity|].
    rewrite IH, insert_desc_perm, <- app_assoc. reflexivity. }
  rewrite H, app_nil_r. symmetry. apply Permutation_rev.
Qed.

Lemma cat_store_built : build_index plain_config cat_docs = Ok cat_store.
Proof. vm_compute. reflexivity. Qed.

Lemma ranked_cat_generic {score} (zero : score) add weight ge :
  ranked_ir_tfidf zero add weight ge plain_config "cat" cat_store
  = Ok (sort_desc ge [(1, add zero (weight 2 1%nat 2%nat)); (0, add zero (weight 2 1%nat 2%nat))],
        cat_store).
Proof. vm_compute. reflexivity. Qed.

Lemma tfidf_weight_everywhere : tfidf_weight 2 1 2 = 0%R.
Proof.
  unfold tfidf_weight, log10. simpl INR.
  replace (IZR 2 / (1 + 1))%R with 1%R by (field; lra).
  rewrite ln_1. unfold Rdiv. rewrite Rmult_0_l, Rmult_0_r. reflexivity.
Qed.

(** C3 (the zero-score exclusion fails).  Two documents consist of the word
    [cat], so [N = 2] and [cat] has document frequency 2: the query [cat]
    gives both documents the score (1 + log10 1) * log10 (2/2) = 0, and
    both are in the ranking [ranked_ir_tfidf] returns, although its
    documentation says documents scoring zero are excluded. *)
Theorem ranked_ir_tfidf_keeps_zero_scores :
  build_index plain_config cat_docs = Ok cat_store /\
  exists out, ranked_ir_tfidf_R plain_config "cat" cat_store = Ok (out, cat_store) /\
    In (0, 0%R) out /\ In (1, 0%R) out.
Proof.
  split; [exact cat_store_built|].
  unfold ranked_ir_tfidf_R. rewrite ranked_cat_generic.
  eexists; split; [reflexivity|].
  rewrite tfidf_weight_everywhere, Rplus_0_l.
  split; eapply Permutation_in; try (symmetry; apply sort_desc_perm); simpl; auto.
Qed.

(* ------------------------------------------------------------------ *)
(** ** Proofs about boolean queries *)

Lemma note_store_built : build_index plain_config note_docs = Ok note_store.
Proof. vm_compute. reflexivity. Qed.

(** Once the parser has produced its list, [AND] groups are intersected
    before the [OR] union. *)
Lemma evaluate_and_or_precedence (a b c : gset Z) :
  evaluate_and_or [QSet a; QConn "AND"; QSet b; QConn "OR"; QSet c]
  = Ok (merge_sort Z.le (elements ((a ∩ b) ∪ c))).
Proof. reflexivity. Qed.

(** A phrase with no [AND]/[OR] word, not starting with [NOT]: the parser
    yields one set. *)
Lemma docs_of_phrases_note_store :
  run_query (_documents_containing_phrase plain_config "NOTE") note_store = Ok {[1]} /\
  run_query (_documents_containing_phrase plain_config "cat") note_store = Ok {[0]} /\
  run_query (_documents_containing_phrase plain_config "dog") note_store = Ok ∅.
Proof. vm_compute. repeat split. Qed.

(** C6 (fails for a phrase that starts with the letters NOT).  In the
    collection [cat] (document 0), [note] (document 1), the phrase [NOTE]
    is in document 1 only, [cat] in document 0 only and [dog] nowhere, so
    [(docs(NOTE) ∩ docs(cat)) ∪ docs(dog)] is empty; but the query
    ["NOTE AND cat OR dog"] returns [[0]], because the parser's [(NOT)?]
    has no word boundary and reads [NOTE] as [NOT] applied to [E]. *)
Theorem boolean_precedence_not_prefix :
  run_query (boolean_query plain_config "NOTE AND cat OR dog") note_store = Ok [0] /\
  run_query (_documents_containing_phrase plain_config "NOTE") note_store = Ok {[1]} /\
  run_query (_documents_containing_phrase plain_config "cat") note_store = Ok {[0]} /\
  run_query (_documents_containing_phrase plain_config "dog") note_store = Ok ∅ /\
  ({[1]} ∩ {[0]}) ∪ (∅ : gset Z) = ∅.
Proof.
  split; [vm_compute; reflexivity|].
  split; [|split; [|split]]; try apply docs_of_phrases_note_store.
  set_solver.
Qed.

(** C7 (fails for a phrase that starts with the letters NOT).  In the same
    collection, [boolean("NOTE")] returns both documents (it is read as
    [NOT E], and no document contains [e]) and [boolean("NOT NOTE")]
    returns document 0: the two results share document 0. *)
Theorem boolean_not_complement_not_prefix :
  run_query (boolean_query plain_config "NOTE") note_store = Ok [0; 1] /\
  run_query (boolean_query plain_config "NOT NOTE") note_store = Ok [0] /\
  In 0 [0; 1] /\ In 0 [0].
Proof. vm_compute. repeat split; simpl; auto. Qed.

(** C8 (fails for the term [_total_document_set]).  The term is a single
    word token that no document of [cat_docs] contains, yet the phrase
    search raises [KeyError] instead of returning [(false, {})]: it is the
    special key of the index, whose dictionary has no [frequency]. *)
Theorem phrase_search_total_key_raises :
  run_query (_phrase_search plain_config "_total_document_set") cat_store = Raise KeyError /\
  split (my_preprocessor plain_config "_total_document_set") = ["_total_document_set"%string].
Proof. vm_compute. split; reflexivity. Qed.

(* ------------------------------------------------------------------ *)
(** ** Proofs about the query batch *)

Lemma parser_loop_raises fuel cfg text acc s :
  query_syntax_ok fuel text = false ->
  exists e, boolean_query_parser_loop fuel cfg text acc s = Raise e.
Proof.
  revert text acc s. induction fuel as [|fuel IH]; intros text acc s H; simpl; [eauto|].
  simpl in H.
  destruct (query_match text) as [[[initial c] rem]|]; [|eauto].
  destruct (not_split initial) as [nt ph].
  unfold bindM at 1.
  destruct (_documents_containing_phrase cfg (strip ph) s) as [[ds s1]|e]; [|eauto].
  unfold bindM at 1.
  destruct (if nt then _not_operator ds else ret ds) as [[item s2]|e] eqn:Hi; [|eauto].
  destruct (String.eqb c "" && String.eqb (strip rem) "") eqn:E1; [discriminate|].
  destruct (String.eqb c "" || String.eqb (strip rem) "") eqn:E2; [unfold throw; eauto|].
  apply IH. exact H.
Qed.

Lemma malformed_line_raises cfg i line s :
  malformed_query line -> exists e, boolean_line cfg i line s = Raise e.
Proof.
  unfold malformed_query, boolean_line.
  destruct (parse_question_file line) as [|c t] eqn:Ht; [contradiction|].
  intros H. unfold bindM at 1. simpl.
  destruct (Ascii.eqb c "#") eqn:Hc; simpl.
  - unfold parse_proximity_query. rewrite H. simpl. eauto.
  - unfold boolean_query, bindM at 1.
    destruct (parser_loop_raises (S (String.length (String c t))) cfg (String c t) [] s H) as [e He].
    unfold bindM at 1, boolean_query_parser. rewrite He. eauto.
Qed.

(** C2 (amended).  A malformed line of the boolean query file (a
    proximity query that does not match its pattern, or a boolean query
    with a trailing connector, a missing operand or no match at all)
    raises, and the exception ends the run: the outcome of the batch is
    the same whatever lines follow it, it reports an exception, and the
    result lines written for the earlier lines remain. *)
Theorem boolean_batch_malformed_ends_run cfg i before bad after s :
  malformed_query bad ->
  boolean_batch cfg i (before ++ bad :: after) s = boolean_batch cfg i (before ++ [bad]) s /\
  snd (boolean_batch cfg i (before ++ [bad]) s) <> None /\
  fst (boolean_batch cfg i (before ++ bad :: after) s) = fst (boolean_batch cfg i before s).
Proof.
  intros Hbad. revert i s. induction before as [|line before IH]; intros i s; simpl.
  - destruct (malformed_line_raises cfg i bad s Hbad) as [e He]. rewrite He.
    split; [reflexivity|split; [discriminate|reflexivity]].
  - destruct (boolean_line cfg i line s) as [[out s']|e];
      [|split; [reflexivity|split; [discriminate|reflexivity]]].
    destruct (IH (i + 1) s') as (Heq & Hne & Hfst). rewrite Heq. rewrite Heq in Hfst.
    destruct (boolean_batch cfg (i + 1) (before ++ [bad]) s') as [out' e'].
    destruct (boolean_batch cfg (i + 1) before s') as [out'' e''].
    simpl in Hfst. subst out''.
    split; [reflexivity|split; [exact Hne|reflexivity]].
Qed.

Lemma boolean_batch_malformed_ends_run_witness : malformed_query "1 cat AND" /\
  boolean_batch plain_config 0 (["0 cat"] ++ "1 cat AND" :: ["2 cat"]) cat_store
  = boolean_batch plain_config 0 (["0 cat"] ++ ["1 cat AND"]) cat_store /\
  snd (boolean_batch plain_config 0 (["0 cat"] ++ ["1 cat AND"]) cat_store) <> None /\
  fst (boolean_batch plain_config 0 (["0 cat"] ++ "1 cat AND" :: ["2 cat"]) cat_store)
  = fst (boolean_batch plain_config 0 ["0 cat"] cat_store).
Proof.
  assert (H : malformed_query "1 cat AND") by (vm_compute; reflexivity).
  split; [exact H|]. apply boolean_batch_malformed_ends_run. exact H.
Defined.

(** C2 (counterexample).  After the malformed line [1 cat AND] the run
    ends with [SystemExit(-1)]: the line [2 cat], whose query alone
    returns documents 0 and 1, is never processed and nothing is
    written. *)
Lemma boolean_batch_malformed_counterexample :
  boolean_batch plain_config 0 ["1 cat AND"; "2 cat"] cat_store = ([], Some (SystemExit (-1))) /\
  run_query (boolean_line plain_config 1 "2 cat") cat_store = Ok [(2, 0); (2, 1)].
Proof. vm_compute. split; reflexivity. Qed.

(* ------------------------------------------------------------------ *)
(** ** Frame and invariant proofs *)

Lemma positions_total_insert_new pd d v :
  pd !! d = None -> positions_total (<[d := v]> pd) = (size v + positions_total pd)%nat.
Proof.
  intros Hd. unfold positions_total.
  rewrite map_fold_insert_L; [reflexivity| |exact Hd].
  intros. lia.
Qed.

Lemma positions_total_insert pd d v :
  positions_total (<[d := v]> pd) = (size v + positions_total (delete d pd))%nat.
Proof.
  rewrite <- insert_delete_eq. apply positions_total_insert_new. apply lookup_delete_eq.
Qed.

Lemma positions_total_delete pd d v :
  pd !! d = Some v -> positions_total pd = (size v + positions_total (delete d pd))%nat.
Proof.
  intros Hd. rewrite <- (insert_delete_id pd d v Hd) at 1.
  apply positions_total_insert_new. apply lookup_delete_eq.
Qed.

Lemma positions_total_extend pd' : ∀ pd,
  pd ⊆ pd' ->
  (∀ d ps, pd' !! d = Some ps -> pd !! d = None -> ps = ∅) ->
  positions_total pd' = positions_total pd.
Proof.
  induction pd' as [|i x m Hi IH] using map_ind; intros pd Hsub Hext;
    rewrite map_subseteq_spec in Hsub.
  - assert (pd = ∅) as ->; [|reflexivity].
    apply map_empty. intros j. destruct (pd !! j) as [y|] eqn:E; [|reflexivity].
    apply Hsub in E. rewrite lookup_empty in E. discriminate.
  - rewrite positions_total_insert_new by exact Hi.
    destruct (pd !! i) as [y|] eqn:Hy.
    + assert (y = x) as ->.
      { apply Hsub in Hy. rewrite lookup_insert_eq in Hy. congruence. }
      rewrite (positions_total_delete pd i x Hy).
      f_equal. apply IH.
      * apply map_subseteq_spec. intros j z Hj.
        destruct (decide (j = i)) as [->|Hne]; [rewrite lookup_delete_eq in Hj; discriminate|].
        rewrite lookup_delete_ne in Hj by congruence.
        apply Hsub in Hj. rewrite lookup_insert_ne in Hj by congruence. exact Hj.
      * intros j ps Hj Hn.
        destruct (decide (j = i)) as [->|Hne]; [congruence|].
        rewrite lookup_delete_ne in Hn by congruence.
        apply (Hext j); [rewrite lookup_insert_ne by congruence; exact Hj|exact Hn].
    + assert (x = ∅) as ->.
      { apply (Hext i); [apply lookup_insert_eq|exact Hy]. }
      rewrite size_empty. simpl. apply IH.
      * apply map_subseteq_spec. intros j z Hj.
        destruct (decide (j = i)) as [->|Hne]; [congruence|].
        apply Hsub in Hj. rewrite lookup_insert_ne in Hj by congruence. exact Hj.
      * intros j ps Hj Hn.
        destruct (decide (j = i)) as [->|Hne]; [congruence|].
        apply (Hext j); [rewrite lookup_insert_ne by congruence; exact Hj|exact Hn].
Qed.

Lemma entry_le_refl e : entry_le e e.
Proof.
  destruct e as [p|n ds]; simpl; [|auto].
  split; [reflexivity|]. split; [reflexivity|]. split; [reflexivity|].
  intros d ps H1 H2. congruence.
Qed.

Lemma entry_le_trans e1 e2 e3 : entry_le e1 e2 -> entry_le e2 e3 -> entry_le e1 e3.
Proof.
  destruct e1 as [p1|n1 d1], e2 as [p2|n2 d2], e3 as [p3|n3 d3]; simpl; try tauto.
  - intros (Hf1 & Hd1 & Hs1 & He1) (Hf2 & Hd2 & Hs2 & He2).
    split; [congruence|]. split; [congruence|]. split; [etrans; eassumption|].
    intros d ps H3 H1.
    destruct (position_dict p2 !! d) as [y|] eqn:H2.
    + assert (y = ∅) as -> by (eapply He1; eauto).
      pose proof (lookup_weaken _ _ _ _ H2 Hs2). congruence.
    + eapply He2; eauto.
  - intros [-> ->] [-> ->]. auto.
Qed.

Lemma opt_entry_le_trans o1 o2 o3 :
  opt_entry_le o1 o2 -> opt_entry_le o2 o3 -> opt_entry_le o1 o3.
Proof.
  destruct o1 as [e1|], o2 as [e2|], o3 as [e3|]; unfold opt_entry_le; try tauto.
  - apply entry_le_trans.
  - apply entry_le_trans.
Qed.

Lemma index_le_refl s : index_le s s.
Proof. intros w. destruct (inverted_index s !! w); unfold opt_entry_le; auto using entry_le_refl. Qed.

Lemma index_le_trans s1 s2 s3 : index_le s1 s2 -> index_le s2 s3 -> index_le s1 s3.
Proof. intros H1 H2 w. eapply opt_entry_le_trans; [apply H1|apply H2]. Qed.

Lemma index_le_same s s' : inverted_index s' = inverted_index s -> index_le s s'.
Proof. intros H. unfold index_le. rewrite H. apply index_le_refl. Qed.

Lemma posting_ok_le p p' : posting_ok p -> entry_le (Posting p) (Posting p') -> posting_ok p'.
Proof.
  intros [Hf Hd] (Hf' & Hd' & Hs & He). split.
  - rewrite Hf', Hf. f_equal. symmetry. apply positions_total_extend; assumption.
  - intros d. rewrite Hd', Hd. split.
    + intros (ps & Hps & Hne). exists ps. split; [|exact Hne]. eapply lookup_weaken; eassumption.
    + intros (ps & Hps & Hne). exists ps. split; [|exact Hne].
      destruct (position_dict p !! d) as [y|] eqn:Hy.
      * pose proof (lookup_weaken _ _ _ _ Hy Hs). congruence.
      * exfalso. apply Hne. eapply He; eassumption.
Qed.

Lemma default_posting_ok : posting_ok default_posting.
Proof.
  split; [reflexivity|]. intros d. simpl. split.
  - intros H. apply elem_of_empty in H. contradiction.
  - intros (ps & Hps & _). rewrite lookup_empty in Hps. discriminate.
Qed.

Lemma index_ok_le s s' : index_ok (inverted_index s) -> index_le s s' -> index_ok (inverted_index s').
Proof.
  intros Hok Hle w p' Hp'. specialize (Hle w). rewrite Hp' in Hle.
  destruct (inverted_index s !! w) as [[p|n ds]|] eqn:Hw; unfold opt_entry_le in Hle; try contradiction.
  - eapply posting_ok_le; [eapply Hok; exact Hw|exact Hle].
  - eapply posting_ok_le; [exact default_posting_ok|exact Hle].
Qed.

Lemma bind_ok {A B} (m : M A) (k : A -> M B) s b s' :
  bindM m k s = Ok (b, s') -> exists a s1, m s = Ok (a, s1) /\ k a s1 = Ok (b, s').
Proof. unfold bindM. destruct (m s) as [[a s1]|e]; [eauto|discriminate]. Qed.

Ltac inv_bind H a s1 H1 := apply bind_ok in H as (a & s1 & H1 & H).

Lemma ret_ok {A} (a : A) s b s' : ret a s = Ok (b, s') -> b = a /\ s' = s.
Proof. unfold ret. intros H. injection H as -> ->. auto. Qed.

Lemma throw_ok {A} e s (b : A) s' : throw e s = Ok (b, s') -> False.
Proof. unfold throw. discriminate. Qed.

Lemma lift_ok {A} (r : result A) s a s' : lift r s = Ok (a, s') -> r = Ok a /\ s' = s.
Proof. unfold lift. destruct r; intros H; [injection H as -> ->; auto|discriminate]. Qed.

Lemma set_read_ok r s v s' : set_read r s = Ok (v, s') -> sref_get s r = Some v /\ s' = s.
Proof.
  unfold set_read. destruct (sref_get s r); intros H; [injection H as -> ->; auto|discriminate].
Qed.

Lemma py_dict_get_ok {V} (m : gmap Z V) k s v s' :
  py_dict_get m k s = Ok (v, s') -> m !! k = Some v /\ s' = s.
Proof.
  unfold py_dict_get. destruct (m !! k); intros H.
  - apply ret_ok in H as [-> ->]. auto.
  - apply throw_ok in H. contradiction.
Qed.

Lemma alloc_ok v s r s' :
  alloc v s = Ok (r, s') ->
  r = RHeap (next_obj s) /\ inverted_index s' = inverted_index s /\
  heap s' = <[next_obj s := v]> (heap s).
Proof. unfold alloc. intros H. injection H as <- <-. auto. Qed.

Lemma index_get_le w s e s' : index_get w s = Ok (e, s') -> index_le s s'.
Proof.
  unfold index_get. destruct (inverted_index s !! w) as [e0|] eqn:Hw; intros H.
  - injection H as -> <-. apply index_le_refl.
  - injection H as _ <-. intros w'. simpl.
    destruct (decide (w' = w)) as [->|Hne].
    + rewrite Hw, lookup_insert_eq. unfold opt_entry_le. apply entry_le_refl.
    + rewrite lookup_insert_ne by congruence.
      destruct (inverted_index s !! w'); unfold opt_entry_le; auto using entry_le_refl.
Qed.

Lemma index_get_present w s e0 e s' :
  inverted_index s !! w = Some e0 -> index_get w s = Ok (e, s') -> e = e0 /\ s' = s.
Proof. unfold index_get. intros Hw. rewrite Hw. intros H. injection H as -> ->. auto. Qed.

Lemma pos_get_le w d s r s' : pos_get w d s = Ok (r, s') -> index_le s s'.
Proof.
  unfold pos_get. destruct (inverted_index s !! w) as [[p|n ds]|] eqn:Hw; try discriminate.
  destruct (position_dict p !! d) as [x|] eqn:Hd; intros H.
  - injection H as _ <-. apply index_le_refl.
  - injection H as _ <-. intros w'. simpl.
    destruct (decide (w' = w)) as [->|Hne].
    + rewrite Hw, lookup_insert_eq. unfold opt_entry_le, entry_le. simpl.
      split; [reflexivity|]. split; [reflexivity|]. split.
      * apply insert_subseteq. exact Hd.
      * intros d' ps H1 H2. destruct (decide (d' = d)) as [->|Hne'].
        -- rewrite lookup_insert_eq in H1. congruence.
        -- rewrite lookup_insert_ne in H1 by congruence. congruence.
    + rewrite lookup_insert_ne by congruence. apply index_le_refl.
Qed.

Lemma pos_get_present w d s p ps r s' :
  inverted_index s !! w = Some (Posting p) -> position_dict p !! d = Some ps ->
  pos_get w d s = Ok (r, s') -> r = RPos w d /\ s' = s.
Proof.
  unfold pos_get. intros Hw Hd. rewrite Hw, Hd. intros H. injection H as -> ->. auto.
Qed.

(** Updates of set objects created during a call leave the index as it is. *)
Lemma set_modify_heap n f s u s' :
  set_modify (RHeap n) f s = Ok (u, s') ->
  inverted_index s' = inverted_index s /\
  exists v v', heap s !! n = Some v /\ f v = Ok v' /\ heap s' = <[n := v']> (heap s).
Proof.
  unfold set_modify. simpl. destruct (heap s !! n) as [v|] eqn:Hn; [|discriminate].
  destruct (f v) as [v'|e] eqn:Hf; [|discriminate].
  intros H. injection H as _ <-. simpl. split; [reflexivity|]. eauto.
Qed.

Lemma shrinks_refl s : shrinks s s.
Proof. intros n v' H. exists v'. split; [exact H|reflexivity]. Qed.

Lemma shrinks_trans s1 s2 s3 : shrinks s1 s2 -> shrinks s2 s3 -> shrinks s1 s3.
Proof.
  intros H1 H2 n v3 H. destruct (H2 n v3 H) as (v2 & Hv2 & Hs2).
  destruct (H1 n v2 Hv2) as (v1 & Hv1 & Hs1). exists v1. split; [exact Hv1|set_solver].
Qed.

Lemma set_remove_heap n x s u s' :
  set_remove (RHeap n) x s = Ok (u, s') -> inverted_index s' = inverted_index s /\ shrinks s s'.
Proof.
  unfold set_remove. intros H. apply set_modify_heap in H as (Hi & v & v' & Hv & Hf & Hh).
  split; [exact Hi|]. intros m w Hm. rewrite Hh in Hm.
  destruct (decide (m = n)) as [->|Hne].
  - rewrite lookup_insert_eq in Hm. injection Hm as <-. exists v. split; [exact Hv|].
    destruct (decide (x ∈ v)); [injection Hf as <-; set_solver|discriminate].
  - rewrite lookup_insert_ne in Hm by congruence. exists w. split; [exact Hm|reflexivity].
Qed.

Lemma map_M_pure {A B} (f : A -> M B) l s r s' :
  (∀ x s b s', f x s = Ok (b, s') -> s' = s) -> map_M f l s = Ok (r, s') -> s' = s.
Proof.
  intros Hf. revert s r s'. induction l as [|x l IH]; intros s r s' H; simpl in H.
  - apply ret_ok in H as [_ ->]. reflexivity.
  - inv_bind H y s1 Hy. apply Hf in Hy as ->. inv_bind H ys s2 Hys.
    apply IH in Hys as ->. apply ret_ok in H as [_ ->]. reflexivity.
Qed.

Lemma py_get_in {A} (l : list A) k x : py_get l k = Ok x -> In x l.
Proof.
  unfold py_get. intros H.
  set (k' := if k <? 0 then k + Z.of_nat (length l) else k) in H.
  destruct (k' <? 0); [discriminate|].
  destruct (l !! Z.to_nat k') eqn:Hl; [|discriminate]. injection H as <-.
  apply list_elem_of_In. eapply list_elem_of_lookup_2. exact Hl.
Qed.

Section PhraseFrame.
Variable idx0 : gmap string entry.
Hypothesis idx0_ok : index_ok idx0.

Lemma pos_get_docs w d s r s' :
  inverted_index s = idx0 -> d ∈ docs_of idx0 w ->
  pos_get w d s = Ok (r, s') -> r = RPos w d /\ s' = s.
Proof.
  intros Hs Hd. unfold docs_of in Hd.
  destruct (idx0 !! w) as [[p|n ds]|] eqn:Hw; try (apply elem_of_empty in Hd; contradiction).
  destruct (proj1 (proj2 (idx0_ok w p Hw) d) Hd) as (ps & Hps & _).
  apply pos_get_present with (p := p) (ps := ps); [congruence|exact Hps].
Qed.

Lemma remove_starts_frame i next_w ppd d ps : ∀ s u s',
  inverted_index s = idx0 -> d ∈ docs_of idx0 next_w -> heap_refs ppd ->
  remove_starts i next_w ppd d ps s = Ok (u, s') -> inverted_index s' = idx0 /\ shrinks s s'.
Proof.
  induction ps as [|position ps IH]; intros s u s' Hs Hd Hppd H; simpl in H.
  - apply ret_ok in H as [_ ->]. auto using shrinks_refl.
  - inv_bind H nr s0 Hnr. apply pos_get_docs in Hnr as [-> ->]; [|exact Hs|exact Hd].
    inv_bind H nv s0 Hnv. apply set_read_ok in Hnv as [_ ->].
    inv_bind H u1 s1 Hu.
    assert (Hmid : inverted_index s1 = idx0 /\ shrinks s s1).
    { destruct (decide (position + 1 ∉ nv)) as [Hn1|Hn1].
      - inv_bind Hu pr s2 Hpr. apply py_dict_get_ok in Hpr as [Hpr ->].
        inv_bind Hu pv s2 Hpv. apply set_read_ok in Hpv as [_ ->].
        destruct (decide (position - i ∈ pv)) as [Hin|Hin].
        + inv_bind Hu pr' s2 Hpr'. apply py_dict_get_ok in Hpr' as [Hpr' ->].
          destruct (Hppd _ _ Hpr') as [k ->].
          apply set_remove_heap in Hu as [Hi Hsh]. split; [congruence|exact Hsh].
        + apply ret_ok in Hu as [_ ->]. auto using shrinks_refl.
      - apply ret_ok in Hu as [_ ->]. auto using shrinks_refl. }
    destruct Hmid as [Hs1 Hsh1].
    destruct (IH s1 u s' Hs1 Hd Hppd H) as [Hs' Hsh'].
    split; [exact Hs'|eapply shrinks_trans; eassumption].
Qed.

Lemma doc_loop_frame i cur_w next_w ppd docs : ∀ cnt tr s r s',
  inverted_index s = idx0 ->
  (∀ d, In d docs -> d ∈ docs_of idx0 cur_w /\ d ∈ docs_of idx0 next_w) ->
  heap_refs ppd ->
  doc_loop i cur_w next_w ppd docs cnt tr s = Ok (r, s') ->
  inverted_index s' = idx0 /\ shrinks s s'.
Proof.
  induction docs as [|d docs IH]; intros cnt tr s r s' Hs Hd Hppd H; simpl in H.
  - apply ret_ok in H as [_ ->]. auto using shrinks_refl.
  - destruct (Hd d (or_introl eq_refl)) as [Hdc Hdn].
    inv_bind H cr s0 Hcr. apply pos_get_docs in Hcr as [-> ->]; [|exact Hs|exact Hdc].
    inv_bind H cv s0 Hcv. apply set_read_ok in Hcv as [_ ->].
    inv_bind H u1 s1 Hu. apply remove_starts_frame in Hu as [Hs1 Hsh1]; [|exact Hs|exact Hdn|exact Hppd].
    inv_bind H pr s2 Hpr. apply py_dict_get_ok in Hpr as [_ ->].
    inv_bind H pv s2 Hpv. apply set_read_ok in Hpv as [_ ->].
    case_decide.
    + apply ret_ok in H as [_ ->]. auto.
    + apply IH in H as [Hs' Hsh']; [|exact Hs1|intros d' Hd'; apply Hd; right; exact Hd'|exact Hppd].
      split; [exact Hs'|eapply shrinks_trans; eassumption].
Qed.

Lemma remove_docs_frame n docs : ∀ ppd s ppd' s',
  inverted_index s = idx0 -> heap_refs ppd ->
  remove_docs (RHeap n) ppd docs s = Ok (ppd', s') ->
  inverted_index s' = idx0 /\ shrinks s s' /\ heap_refs ppd'.
Proof.
  unfold remove_docs. induction docs as [|d docs IH]; intros ppd s ppd' s' Hs Hppd H; simpl in H.
  - apply ret_ok in H as [-> ->]. auto using shrinks_refl.
  - inv_bind H acc s1 Hacc. inv_bind Hacc u s0 Hu.
    apply set_remove_heap in Hu as [Hs0 Hsh0].
    destruct (ppd !! d) eqn:Hpd; [|apply throw_ok in Hacc; contradiction].
    apply ret_ok in Hacc as [-> ->].
    apply IH in H as (Hs' & Hsh' & Href); [|congruence|].
    + split; [exact Hs'|split; [eapply shrinks_trans; eassumption|exact Href]].
    + intros d' r' Hd'. destruct (decide (d' = d)) as [->|Hne].
      * rewrite lookup_delete_eq in Hd'. discriminate.
      * rewrite lookup_delete_ne in Hd' by congruence. eapply Hppd; exact Hd'.
Qed.

Lemma restrict_ppd_frame ppd docs : ∀ acc s ppd' s',
  heap_refs ppd -> heap_refs acc ->
  fold_M (λ acc document,
            let* r := py_dict_get ppd document in
            ret (<[document := r]> acc)) docs acc s = Ok (ppd', s') ->
  s' = s /\ heap_refs ppd'.
Proof.
  induction docs as [|d docs IH]; intros acc s ppd' s' Hppd Hacc H; simpl in H.
  - apply ret_ok in H as [-> ->]. auto.
  - inv_bind H acc' s1 Hacc'. inv_bind Hacc' r s0 Hr.
    apply py_dict_get_ok in Hr as [Hr ->]. apply ret_ok in Hacc' as [-> ->].
    apply IH in H as [-> Href]; [auto|exact Hppd|].
    intros d' r' Hd'. destruct (decide (d' = d)) as [->|Hne].
    + rewrite lookup_insert_eq in Hd'. injection Hd' as <-. eapply Hppd; exact Hr.
    + rewrite lookup_insert_ne in Hd' by congruence. eapply Hacc; exact Hd'.
Qed.

Lemma init_ppd_frame w0 docs : ∀ acc s ppd s',
  inverted_index s = idx0 -> (∀ d, In d docs -> d ∈ docs_of idx0 w0) -> heap_refs acc ->
  fold_M (λ acc document,
            let* r := pos_get w0 document in
            let* v := set_read r in
            let* c := alloc v in
            ret (<[document := c]> acc)) docs acc s = Ok (ppd, s') ->
  inverted_index s' = idx0 /\ heap_refs ppd.
Proof.
  induction docs as [|d docs IH]; intros acc s ppd s' Hs Hd Hacc H; simpl in H.
  - apply ret_ok in H as [-> ->]. auto.
  - inv_bind H acc' s1 Hacc'. inv_bind Hacc' r s0 Hr.
    apply pos_get_docs in Hr as [-> ->]; [|exact Hs|apply Hd; left; reflexivity].
    inv_bind Hacc' v s0 Hv. apply set_read_ok in Hv as [_ ->].
    inv_bind Hacc' c s0 Hc. apply alloc_ok in Hc as (-> & Hi & _).
    apply ret_ok in Hacc' as [-> ->].
    apply IH in H as [Hs' Href]; [auto|congruence|intros d' Hd'; apply Hd; right; exact Hd'|].
    intros d' r' Hd'. destruct (decide (d' = d)) as [->|Hne].
    + rewrite lookup_insert_eq in Hd'. injection Hd' as <-. eauto.
    + rewrite lookup_insert_ne in Hd' by congruence. eapply Hacc; exact Hd'.
Qed.

Lemma word_loop_frame word_dicts n : ∀ a dset ppd s r s',
  inverted_index s = idx0 ->
  (∀ w, In w word_dicts -> exists p, idx0 !! w = Some (Posting p)) ->
  heap_refs ppd ->
  (∀ v cw, sref_get s dset = Some v -> py_get word_dicts (Z.of_nat a) = Ok cw ->
           v ⊆ docs_of idx0 cw) ->
  word_loop (seq a n) word_dicts dset ppd s = Ok (r, s') -> inverted_index s' = idx0.
Proof.
  induction n as [|n IH]; intros a dset ppd s r s' Hs Hpres Hppd Hdset H; simpl in H.
  - apply ret_ok in H as [_ ->]. exact Hs.
  - inv_bind H next_w s0 Hn. apply lift_ok in Hn as [Hn ->].
    inv_bind H cur_w s0 Hc. apply lift_ok in Hc as [Hc ->].
    inv_bind H dv s0 Hdv. apply set_read_ok in Hdv as [Hdv ->].
    inv_bind H nv s0 Hnv. apply set_read_ok in Hnv as [Hnv ->].
    destruct (Hpres next_w (py_get_in _ _ _ Hn)) as [p Hp].
    assert (Hnv' : nv = docs_of idx0 next_w).
    { unfold docs_of. rewrite Hp. simpl in Hnv. rewrite Hs, Hp in Hnv. congruence. }
    inv_bind H ds' s3 Hal. apply alloc_ok in Hal as (-> & Hi3 & Hh3).
    inv_bind H dv' s0 Hdv'. apply set_read_ok in Hdv' as [Hdv' ->].
    simpl in Hdv'. rewrite Hh3, lookup_insert_eq in Hdv'. injection Hdv' as <-.
    inv_bind H ppd' s0 Hr. unfold restrict_ppd in Hr.
    apply restrict_ppd_frame in Hr as [-> Href]; [|exact Hppd|].
    2:{ intros d' r' Hd'. rewrite lookup_empty in Hd'. discriminate. }
    inv_bind H res s6 Hdl.
    apply doc_loop_frame in Hdl as [Hs6 Hsh6]; [|congruence| |exact Href].
    2:{ intros d Hd. apply list_elem_of_In, elem_of_elements in Hd.
        pose proof (Hdset dv cur_w Hdv Hc). set_solver. }
    destruct res as [tr|].
    + inv_bind H ppd'' s7 Hrd.
      apply remove_docs_frame in Hrd as (Hs7 & Hsh7 & Href7); [|exact Hs6|exact Href].
      eapply IH; [exact Hs7|exact Hpres|exact Href7| |exact H].
      intros v cw Hv Hcw. simpl in Hv.
      destruct (shrinks_trans _ _ _ Hsh6 Hsh7 _ _ Hv) as (v0 & Hv0 & Hsub).
      rewrite Hh3, lookup_insert_eq in Hv0. injection Hv0 as <-.
      replace (Z.of_nat (S a)) with (Z.of_nat a + 1) in Hcw by lia.
      rewrite Hcw in Hn. injection Hn as ->. set_solver.
    + apply ret_ok in H as [_ ->]. exact Hs6.
Qed.

End PhraseFrame.

Lemma word_dict_present w s p b s' :
  inverted_index s !! w = Some (Posting p) -> _word_dict w s = Ok (b, s') ->
  b = negb (frequency p =? 0) /\ s' = s.
Proof.
  intros Hw H. unfold _word_dict in H. inv_bind H e s1 He.
  apply (index_get_present _ _ _ _ _ Hw) in He as [-> ->].
  apply ret_ok in H. exact H.
Qed.

Lemma word_dict_le w s b s' : _word_dict w s = Ok (b, s') -> index_le s s'.
Proof.
  intros H. unfold _word_dict in H. inv_bind H e s1 He. apply index_get_le in He.
  destruct e; [apply ret_ok in H as [_ ->]; exact He|apply throw_ok in H; contradiction].
Qed.

Lemma check_words_le ws : ∀ s r s', check_words ws s = Ok (r, s') -> index_le s s'.
Proof.
  induction ws as [|w ws IH]; intros s r s' H; simpl in H.
  - apply ret_ok in H as [_ ->]. apply index_le_refl.
  - inv_bind H b s1 Hb. apply word_dict_le in Hb. destruct b.
    + inv_bind H rest s2 Hr. apply IH in Hr. apply ret_ok in H as [_ ->].
      eapply index_le_trans; eassumption.
    + apply ret_ok in H as [_ ->]. exact Hb.
Qed.

Lemma check_words_some ws : ∀ s wd s',
  check_words ws s = Ok (Some wd, s') ->
  s' = s /\ wd = ws /\
  ∀ w, In w ws -> exists p, inverted_index s !! w = Some (Posting p) /\ frequency p <> 0.
Proof.
  induction ws as [|w ws IH]; intros s wd s' H; simpl in H.
  - apply ret_ok in H as [Hr ->]. injection Hr as ->. split; [reflexivity|]. split; [reflexivity|]. intros w Hw. destruct Hw.
  - inv_bind H b s1 Hb. destruct b; [|apply ret_ok in H as [[=] _]].
    unfold _word_dict in Hb. inv_bind Hb e s2 He.
    unfold index_get in He. destruct (inverted_index s !! w) as [e0|] eqn:Hw.
    + injection He as <- <-. destruct e0 as [p|n ds]; [|apply throw_ok in Hb; contradiction].
      apply ret_ok in Hb as [Hf ->].
      inv_bind H rest s3 Hr. destruct rest as [rest|]; [|apply ret_ok in H as [[=] _]].
      apply IH in Hr as (-> & -> & Hall). apply ret_ok in H as [[= ->] ->].
      split; [reflexivity|split; [reflexivity|]].
      intros w' Hin. simpl in Hin. destruct Hin as [<-|Hin]; [|apply Hall; exact Hin].
      exists p. split; [exact Hw|]. intros H0. rewrite H0 in Hf. discriminate.
    + injection He as <- <-. simpl in Hb. apply ret_ok in Hb as [[=] _].
Qed.

Lemma check_words_present ws : ∀ s r s',
  (∀ w, In w ws -> exists p, inverted_index s !! w = Some (Posting p)) ->
  check_words ws s = Ok (r, s') -> s' = s.
Proof.
  induction ws as [|w ws IH]; intros s r s' Hpres H; simpl in H.
  - apply ret_ok in H as [_ ->]. reflexivity.
  - inv_bind H b s1 Hb. destruct (Hpres w (or_introl eq_refl)) as [p Hp].
    apply (word_dict_present _ _ _ _ _ Hp) in Hb as [_ ->]. destruct b.
    + inv_bind H rest s2 Hr. apply IH in Hr as ->; [|intros w' Hw'; apply Hpres; right; exact Hw'].
      apply ret_ok in H as [_ ->]. reflexivity.
    + apply ret_ok in H as [_ ->]. reflexivity.
Qed.

(** Once every word is known to occur, the matcher only works on set
    objects of its own. *)
Lemma phrase_search_words_some ws s wd s1 r s' :
  index_ok (inverted_index s) ->
  check_words ws s = Ok (Some wd, s1) ->
  phrase_search_words ws s = Ok (r, s') -> inverted_index s' = inverted_index s.
Proof.
  intros Hok Hc H. pose proof Hc as Hc'. apply check_words_some in Hc' as (-> & -> & Hall).
  unfold phrase_search_words, bindM at 1 in H. rewrite Hc in H.
  inv_bind H w0 s0 Hw0. apply lift_ok in Hw0 as [Hw0 ->].
  destruct (Hall w0 (py_get_in _ _ _ Hw0)) as (p0 & Hp0 & _).
  inv_bind H dv s0 Hdv. apply set_read_ok in Hdv as [Hdv ->].
  assert (Hdv' : dv = docs_of (inverted_index s) w0).
  { unfold docs_of. rewrite Hp0. simpl in Hdv. rewrite Hp0 in Hdv. congruence. }
  inv_bind H ppd s2 Hppd. unfold init_ppd in Hppd.
  apply (init_ppd_frame (inverted_index s) Hok) in Hppd as [Hs2 Href]; [|reflexivity| |].
  2:{ intros d Hd. apply list_elem_of_In, elem_of_elements in Hd. congruence. }
  2:{ intros d' r' Hd'. rewrite lookup_empty in Hd'. discriminate. }
  inv_bind H res s3 Hwl.
  apply (word_loop_frame (inverted_index s) Hok) in Hwl; [|exact Hs2| |exact Href|].
  2:{ intros w Hw. destruct (Hall w Hw) as (p & Hp & _). eauto. }
  2:{ intros v cw Hv Hcw. change (Z.of_nat 0) with 0 in Hcw. rewrite Hcw in Hw0. injection Hw0 as ->.
      simpl in Hv. rewrite Hs2, Hp0 in Hv. unfold docs_of. rewrite Hp0. injection Hv as ->. reflexivity. }
  destruct res as [ppd'|]; [|apply ret_ok in H as [_ ->]; exact Hwl].
  case_decide; [apply ret_ok in H as [_ ->]; exact Hwl|].
  inv_bind H m s4 Hm. apply map_M_pure in Hm as ->.
  - apply ret_ok in H as [_ ->]. exact Hwl.
  - intros x t b t' Hx. inv_bind Hx pr t1 Hpr. apply py_dict_get_ok in Hpr as [_ ->].
    inv_bind Hx pv t2 Hpv. apply set_read_ok in Hpv as [_ ->]. apply ret_ok in Hx as [_ ->]. reflexivity.
Qed.

Lemma add_word_spec word d pos s u s' n ds :
  inverted_index s !! total_key = Some (TotalEntry n ds) ->
  add_word word d pos s = Ok (u, s') ->
  word <> total_key /\
  exists p, (inverted_index s !! word = Some (Posting p) \/
             (inverted_index s !! word = None /\ p = default_posting)) /\
  inverted_index s' = <[total_key := TotalEntry n ({[d]} ∪ ds)]>
                        (<[word := Posting (add_word_post p d pos)]> (inverted_index s)).
Proof.
  intros Htot H.
  destruct (decide (word = total_key)) as [->|Hne].
  { unfold add_word, bindM, index_get, incr_frequency in H. simpl in H.
    rewrite Htot in H. simpl in H. rewrite Htot in H. discriminate. }
  split; [exact Hne|].
  unfold add_word, bindM, index_get, incr_frequency, set_add, set_modify, pos_get, sref_get, sref_put, ret, set_index in H.
  destruct (inverted_index s !! word) as [[p|m dsw]|] eqn:Hw; simpl in H; simplify_map_eq.
  - exists p. split; [left; reflexivity|].
    destruct (position_dict p !! d) eqn:Hd; simplify_map_eq.
    all: rewrite !insert_insert_eq; unfold add_word_post; rewrite Hd; simpl;
         rewrite ?insert_insert_eq; reflexivity.
  - exists default_posting. split; [right; split; reflexivity|].
    rewrite !insert_insert_eq. unfold add_word_post. simpl. rewrite lookup_empty.
    reflexivity.
Qed.

Lemma posting_ok_add_word p d pos :
  posting_ok p -> (∀ ps, position_dict p !! d = Some ps -> ∀ x, x ∈ ps -> x < pos) ->
  posting_ok (add_word_post p d pos).
Proof.
  intros [Hf Hd] Hlt. unfold add_word_post. split; simpl.
  - rewrite positions_total_insert. destruct (position_dict p !! d) as [ps|] eqn:Hps; cbn [from_option id].
    + rewrite (positions_total_delete _ _ _ Hps) in Hf.
      rewrite size_union.
      * rewrite size_singleton. lia.
      * apply disjoint_singleton_l. intros Hin. specialize (Hlt ps eq_refl pos Hin). lia.
    + rewrite delete_id by exact Hps.
      replace ({[pos]} ∪ ∅ : gset Z) with ({[pos]} : gset Z) by set_solver.
      rewrite size_singleton. lia.
  - intros d'. destruct (decide (d' = d)) as [->|Hne].
    + split; [intros _|intros _; set_solver].
      eexists. split; [apply lookup_insert_eq|]. set_solver.
    + rewrite lookup_insert_ne by congruence. rewrite <- Hd. set_solver.
Qed.

Lemma add_word_inv word d pos s u s' :
  build_inv (inverted_index s) -> before_pos (inverted_index s) d pos ->
  add_word word d pos s = Ok (u, s') ->
  build_inv (inverted_index s') /\ before_pos (inverted_index s') d (pos + 1) /\
  ∀ d2, d2 <> d -> fresh_doc (inverted_index s) d2 -> fresh_doc (inverted_index s') d2.
Proof.
  intros [Hok (n & ds & Htot)] Hbp H.
  apply (add_word_spec _ _ _ _ _ _ _ _ Htot) in H as (Hne & p & Hcase & Hidx).
  assert (Hp : posting_ok p).
  { destruct Hcase as [Hw|[_ ->]]; [eapply Hok; exact Hw|exact default_posting_ok]. }
  assert (Hlt : ∀ ps, position_dict p !! d = Some ps -> ∀ x, x ∈ ps -> x < pos).
  { destruct Hcase as [Hw|[_ ->]]; [intros ps Hps; exact (Hbp word p ps Hw Hps)|].
    intros ps Hps. change (position_dict default_posting) with (∅ : gmap Z (gset Z)) in Hps. rewrite lookup_empty in Hps. discriminate. }
  rewrite Hidx. split; [split|split].
  - intros w' p' Hw'. destruct (decide (w' = total_key)) as [->|Hne1].
    { rewrite lookup_insert_eq in Hw'. discriminate. }
    rewrite lookup_insert_ne in Hw' by congruence.
    destruct (decide (w' = word)) as [->|Hne2].
    + rewrite lookup_insert_eq in Hw'. injection Hw' as <-. apply posting_ok_add_word; assumption.
    + rewrite lookup_insert_ne in Hw' by congruence. eapply Hok; exact Hw'.
  - exists n, ({[d]} ∪ ds). apply lookup_insert_eq.
  - intros w' p' ps Hw' Hps x Hx. destruct (decide (w' = total_key)) as [->|Hne1].
    { rewrite lookup_insert_eq in Hw'. discriminate. }
    rewrite lookup_insert_ne in Hw' by congruence.
    destruct (decide (w' = word)) as [->|Hne2].
    + rewrite lookup_insert_eq in Hw'. injection Hw' as <-.
      unfold add_word_post in Hps. simpl in Hps. rewrite lookup_insert_eq in Hps.
      injection Hps as <-. apply elem_of_union in Hx as [Hx|Hx].
      * apply elem_of_singleton in Hx. lia.
      * destruct (position_dict p !! d) as [old|] eqn:Hold; simpl in Hx.
        -- specialize (Hlt old eq_refl x Hx). lia.
        -- apply elem_of_empty in Hx. contradiction.
    + rewrite lookup_insert_ne in Hw' by congruence.
      specialize (Hbp w' p' ps Hw' Hps x Hx). lia.
  - intros d2 Hd2 Hfresh w' p' Hw'. destruct (decide (w' = total_key)) as [->|Hne1].
    { rewrite lookup_insert_eq in Hw'. discriminate. }
    rewrite lookup_insert_ne in Hw' by congruence.
    destruct (decide (w' = word)) as [->|Hne2].
    + rewrite lookup_insert_eq in Hw'. injection Hw' as <-.
      unfold add_word_post. simpl. rewrite lookup_insert_ne by congruence.
      destruct Hcase as [Hw|[_ ->]]; [eapply Hfresh; exact Hw|apply lookup_empty].
    + rewrite lookup_insert_ne in Hw' by congruence. eapply Hfresh; exact Hw'.
Qed.

Lemma add_words_inv doc_id words : ∀ i offset s u s',
  build_inv (inverted_index s) -> before_pos (inverted_index s) doc_id (i + offset) ->
  add_words doc_id words i offset s = Ok (u, s') ->
  build_inv (inverted_index s') /\
  before_pos (inverted_index s') doc_id (i + Z.of_nat (length words) + offset) /\
  ∀ d2, d2 <> doc_id -> fresh_doc (inverted_index s) d2 -> fresh_doc (inverted_index s') d2.
Proof.
  induction words as [|w ws IH]; intros i offset s u s' Hinv Hbp H; simpl in H.
  - apply ret_ok in H as [_ ->]. split; [exact Hinv|split; [|auto]].
    replace (i + Z.of_nat (length []) + offset) with (i + offset) by (simpl; lia). exact Hbp.
  - inv_bind H u1 s1 Hw. apply add_word_inv in Hw as (Hinv1 & Hbp1 & Hfr1); [|exact Hinv|exact Hbp].
    apply IH in H as (Hinv2 & Hbp2 & Hfr2); [|exact Hinv1|].
    + split; [exact Hinv2|split].
      * replace (i + Z.of_nat (length (w :: ws)) + offset)
          with (i + 1 + Z.of_nat (length ws) + offset) by (simpl; lia). exact Hbp2.
      * intros d2 Hd2 Hf. apply Hfr2; [exact Hd2|apply Hfr1; assumption].
    + replace (i + 1 + offset) with (i + offset + 1) by lia. exact Hbp1.
Qed.

Lemma fresh_before_pos idx d pos : fresh_doc idx d -> before_pos idx d pos.
Proof. intros Hf w p ps Hw Hps. rewrite (Hf w p Hw) in Hps. discriminate. Qed.

Lemma index_doc_inv dc s u s' :
  build_inv (inverted_index s) -> fresh_doc (inverted_index s) (docno dc) ->
  index_doc dc s = Ok (u, s') ->
  build_inv (inverted_index s') /\
  ∀ d2, d2 <> docno dc -> fresh_doc (inverted_index s) d2 -> fresh_doc (inverted_index s') d2.
Proof.
  intros Hinv Hf H. unfold index_doc in H. inv_bind H hl s1 Hh.
  assert (Hmid : build_inv (inverted_index s1) /\ before_pos (inverted_index s1) (docno dc) hl /\
                 ∀ d2, d2 <> docno dc -> fresh_doc (inverted_index s) d2 ->
                       fresh_doc (inverted_index s1) d2).
  { destruct (headline dc) as [t|].
    - inv_bind Hh u1 s2 Ha. apply ret_ok in Hh as [-> ->].
      apply add_words_inv in Ha as (Hinv1 & Hbp1 & Hfr1);
        [|exact Hinv|apply fresh_before_pos; exact Hf].
      split; [exact Hinv1|split; [|exact Hfr1]].
      replace (Z.of_nat (length (split t))) with (0 + Z.of_nat (length (split t)) + 0) by lia.
      exact Hbp1.
    - apply ret_ok in Hh as [-> ->]. split; [exact Hinv|split; [|auto]].
      apply fresh_before_pos. exact Hf. }
  destruct Hmid as (Hinv1 & Hbp1 & Hfr1).
  destruct (doc_text dc) as [t|].
  - apply add_words_inv in H as (Hinv2 & _ & Hfr2); [|exact Hinv1|replace (0 + hl) with hl by lia; exact Hbp1].
    split; [exact Hinv2|]. intros d2 Hd2 Hf2. apply Hfr2; [exact Hd2|apply Hfr1; assumption].
  - apply ret_ok in H as [_ ->]. auto.
Qed.

Lemma index_docs_inv docs : ∀ s u s',
  NoDup (map docno docs) -> build_inv (inverted_index s) ->
  (∀ dc, In dc docs -> fresh_doc (inverted_index s) (docno dc)) ->
  fold_M (λ _ d, index_doc d) docs tt s = Ok (u, s') -> build_inv (inverted_index s').
Proof.
  induction docs as [|dc docs IH]; intros s u s' Hnd Hinv Hf H; simpl in H.
  - apply ret_ok in H as [_ ->]. exact Hinv.
  - inv_bind H u1 s1 Hd. simpl in Hnd. apply NoDup_cons in Hnd as [Hnotin Hnd].
    apply index_doc_inv in Hd as [Hinv1 Hfr1]; [|exact Hinv|apply Hf; left; reflexivity].
    destruct u1. eapply IH; [exact Hnd|exact Hinv1| |exact H].
    intros dc' Hdc'. apply Hfr1; [|apply Hf; right; exact Hdc'].
    intros Heq. apply Hnotin. rewrite <- Heq. apply list_elem_of_In. apply in_map. exact Hdc'.
Qed.

Lemma set_total_size_inv s u s' :
  index_ok (inverted_index s) -> set_total_size s = Ok (u, s') -> index_ok (inverted_index s').
Proof.
  unfold set_total_size. destruct (inverted_index s !! total_key) as [[p|n ds]|]; try discriminate.
  intros Hok H. injection H as _ <-. intros w p Hw. cbn [inverted_index set_index] in Hw.
  destruct (decide (w = total_key)) as [->|Hne].
  - rewrite lookup_insert_eq in Hw. discriminate.
  - rewrite lookup_insert_ne in Hw by congruence. eapply Hok; exact Hw.
Qed.

Lemma build_index_ok cfg docs s :
  NoDup (map docno docs) -> build_index cfg docs = Ok s -> index_ok (inverted_index s).
Proof.
  intros Hnd H. unfold build_index in H.
  destruct (_build_index (map (preprocess_doc cfg) docs) initial_store) as [[u s1]|e] eqn:Hb;
    [injection H as <-|discriminate].
  unfold _build_index in Hb. inv_bind Hb u1 s2 Hf.
  eapply set_total_size_inv; [|exact Hb].
  eapply index_docs_inv; [| |intros dc _ |exact Hf].
  - rewrite map_map. exact Hnd.
  - split.
    + intros w p Hw. unfold initial_store in Hw. cbn [inverted_index] in Hw.
      destruct (decide (w = total_key)) as [->|Hne].
      * rewrite lookup_singleton_eq in Hw. discriminate.
      * rewrite lookup_singleton_ne in Hw by congruence. discriminate.
    + exists 0, ∅. apply lookup_singleton_eq.
  - intros w p Hw. unfold initial_store in Hw. cbn [inverted_index] in Hw.
    destruct (decide (w = total_key)) as [->|Hne].
    + rewrite lookup_singleton_eq in Hw. discriminate.
    + rewrite lookup_singleton_ne in Hw by congruence. discriminate.
Qed.

Lemma mono_bind {A B} (m : M A) (k : A -> M B) :
  mono m -> (∀ a, mono (k a)) -> mono (bindM m k).
Proof.
  intros Hm Hk s b s' Hok H. inv_bind H a s1 H1.
  pose proof (Hm _ _ _ Hok H1) as Hle1.
  eapply index_le_trans; [exact Hle1|]. eapply Hk; [|exact H].
  eapply index_ok_le; eassumption.
Qed.

Lemma mono_ret {A} (a : A) : mono (ret a).
Proof. intros s b s' _ H. apply ret_ok in H as [_ ->]. apply index_le_refl. Qed.

Lemma mono_throw {A} e : mono (A := A) (throw e).
Proof. intros s b s' _ H. apply throw_ok in H. contradiction. Qed.

Lemma mono_lift {A} (r : result A) : mono (lift r).
Proof. intros s b s' _ H. apply lift_ok in H as [_ ->]. apply index_le_refl. Qed.

Lemma mono_index_get w : mono (index_get w).
Proof. intros s b s' _ H. eapply index_get_le; exact H. Qed.

Lemma mono_set_read r : mono (set_read r).
Proof. intros s b s' _ H. apply set_read_ok in H as [_ ->]. apply index_le_refl. Qed.

Lemma mono_pos_get w d : mono (pos_get w d).
Proof. intros s b s' _ H. eapply pos_get_le; exact H. Qed.

Lemma mono_word_dict w : mono (_word_dict w).
Proof. intros s b s' _ H. eapply word_dict_le; exact H. Qed.

Lemma mono_fold_M {A B} (f : B -> A -> M B) :
  (∀ acc x, mono (f acc x)) -> ∀ l acc, mono (fold_M f l acc).
Proof.
  intros Hf l. induction l as [|x l IH]; intros acc; simpl.
  - apply mono_ret.
  - apply mono_bind; [apply Hf|intros b; apply IH].
Qed.

Lemma mono_phrase_search_words ws : mono (phrase_search_words ws).
Proof.
  intros s r s' Hok H. pose proof H as H0.
  unfold phrase_search_words, bindM at 1 in H.
  destruct (check_words ws s) as [[found s1]|e] eqn:Hc; [|discriminate].
  destruct found as [wd|].
  - apply index_le_same. eapply phrase_search_words_some; eassumption.
  - apply ret_ok in H as [_ ->]. eapply check_words_le; exact Hc.
Qed.

Lemma mono_phrase_search cfg t : mono (_phrase_search cfg t).
Proof. apply mono_phrase_search_words. Qed.

Ltac mono_tac :=
  repeat match goal with
  | |- mono (bindM _ _) => apply mono_bind; [|intros ?; cbv beta]
  | |- mono (ret _) => apply mono_ret
  | |- mono (throw _) => apply mono_throw
  | |- mono (lift _) => apply mono_lift
  | |- mono (index_get _) => apply mono_index_get
  | |- mono (set_read _) => apply mono_set_read
  | |- mono (pos_get _ _) => apply mono_pos_get
  | |- mono (_word_dict _) => apply mono_word_dict
  | |- mono (_phrase_search _ _) => apply mono_phrase_search
  | |- mono (fold_M _ _ _) => apply mono_fold_M; intros ? ?; cbv beta
  | |- mono (let _ := _ in _) => cbv zeta
  | |- mono _ => case_match
  end.

Lemma mono_documents_containing_phrase cfg t : mono (_documents_containing_phrase cfg t).
Proof. unfold _documents_containing_phrase. mono_tac. Qed.

Lemma mono_not_operator ds : mono (_not_operator ds).
Proof. unfold _not_operator. mono_tac. Qed.

Lemma mono_parser_loop fuel : ∀ cfg text acc, mono (boolean_query_parser_loop fuel cfg text acc).
Proof.
  induction fuel as [|fuel IH]; intros cfg text acc; simpl.
  - apply mono_throw.
  - repeat match goal with
    | |- mono (boolean_query_parser_loop _ _ _ _) => apply IH
    | |- mono (_documents_containing_phrase _ _) => apply mono_documents_containing_phrase
    | |- mono (_not_operator _) => apply mono_not_operator
    | _ => progress mono_tac
    end.
Qed.

Lemma mono_boolean_query cfg t : mono (boolean_query cfg t).
Proof. unfold boolean_query. apply mono_bind; [apply mono_parser_loop|intros; apply mono_lift]. Qed.

Lemma mono_proximity_search cfg t k : mono (_proximity_search cfg t k).
Proof. unfold _proximity_search. mono_tac. Qed.

Lemma mono_ranked {score} zero add weight ge cfg t :
  mono (@ranked_ir_tfidf score zero add weight ge cfg t).
Proof.
  unfold ranked_ir_tfidf. apply mono_bind; [|intros; mono_tac].
  apply mono_fold_M. intros acc term. mono_tac.
  unfold _tfidf_term_weighting, total_size. mono_tac.
Qed.

Lemma mono_run_query_op cfg op : mono (run_query_op cfg op).
Proof.
  destruct op; simpl; (apply mono_bind; [|intros; apply mono_ret]).
  - apply mono_phrase_search.
  - apply mono_boolean_query.
  - apply mono_proximity_search.
  - apply mono_ranked.
Qed.

Lemma reachable_index_ok cfg s : reachable cfg s -> index_ok (inverted_index s).
Proof.
  induction 1 as [docs s Hnd Hb|s op u s' Hr IH Hq].
  - eapply build_index_ok; eassumption.
  - eapply index_ok_le; [exact IH|]. eapply mono_run_query_op; eassumption.
Qed.

Lemma word_dict_absent w s :
  inverted_index s !! w = None ->
  _word_dict w s = Ok (false, set_index s (<[w := Posting default_posting]> (inverted_index s))).
Proof. intros Hw. unfold _word_dict, bindM, index_get. rewrite Hw. reflexivity. Qed.

Lemma absent_term_lookup_counterexample :
  inverted_index cat_store !! "dog"%string = None /\
  entry_after plain_config (QPhrase "dog") cat_store "dog" = Some (Some (Posting default_posting)) /\
  entry_after plain_config (QBoolean "dog") cat_store "dog" = Some (Some (Posting default_posting)) /\
  entry_after plain_config (QProximity "dog" "cat" 1) cat_store "dog" =
    Some (Some (Posting default_posting)) /\
  entry_after plain_config (QRanked "dog") cat_store "dog" = Some (Some (Posting default_posting)).
Proof. repeat split; vm_compute; reflexivity. Qed.

(** C5: in every reachable state, each word's frequency is the sum of the sizes
    of its position sets, and a document is in its document set iff its
    position set is non-empty. *)
Theorem reachable_postings_consistent cfg s w p :
  reachable cfg s -> inverted_index s !! w = Some (Posting p) ->
  frequency p = Z.of_nat (positions_total (position_dict p)) /\
  ∀ d, d ∈ document_set p <-> exists ps, position_dict p !! d = Some ps /\ ps ≠ ∅.
Proof. intros Hr Hw. exact (reachable_index_ok cfg s Hr w p Hw). Qed.

Lemma reachable_postings_consistent_witness :
  exists p, inverted_index cat_store !! "cat"%string = Some (Posting p) /\
  frequency p = Z.of_nat (positions_total (position_dict p)).
Proof.
  eexists. split; [vm_compute; reflexivity|].
  refine (proj1 (reachable_postings_consistent plain_config cat_store "cat" _ _ _)).
  - apply (reachable_build plain_config cat_docs); [apply (bool_decide_unpack _); vm_compute; exact I|vm_compute; reflexivity].
  - vm_compute. reflexivity.
Defined.

(** C10: a phrase search on a reachable index whose words all have an entry
    leaves the index as it was: frequencies, document sets and position sets. *)
Theorem phrase_search_leaves_index cfg text s r s' :
  reachable cfg s ->
  (∀ w, In w (split (my_preprocessor cfg text)) ->
        exists p, inverted_index s !! w = Some (Posting p)) ->
  _phrase_search cfg text s = Ok (r, s') -> inverted_index s' = inverted_index s.
Proof.
  intros Hr Hpres H. apply reachable_index_ok in Hr. pose proof H as H0.
  unfold _phrase_search, phrase_search_words, bindM at 1 in H.
  destruct (check_words (split (my_preprocessor cfg text)) s) as [[found s1]|e] eqn:Hc;
    [|discriminate].
  destruct found as [wd|].
  - eapply phrase_search_words_some; eassumption.
  - apply check_words_present in Hc as ->; [|exact Hpres].
    apply ret_ok in H as [_ ->]. reflexivity.
Qed.

Lemma phrase_search_leaves_index_witness :
  match _phrase_search plain_config "the cat" sat_store with
  | Ok (r, s') => r = (true, [(0, [0])]) /\ inverted_index s' = inverted_index sat_store
  | Raise _ => False
  end.
Proof.
  destruct (_phrase_search plain_config "the cat" sat_store) as [[r s']|e] eqn:E.
  - split.
    + vm_compute in E. injection E as <- _. reflexivity.
    + apply (phrase_search_leaves_index plain_config "the cat" sat_store r s').
      * apply (reachable_build plain_config sat_docs); [apply (bool_decide_unpack _); vm_compute; exact I|vm_compute; reflexivity].
      * intros w Hw. vm_compute in Hw. destruct Hw as [<-|[<-|[]]]; eexists; vm_compute; reflexivity.
      * exact E.
  - vm_compute in E. discriminate.
Defined.

(* ------------------------------------------------------------------ *)
(** ** Properties of the rest of the code *)

Lemma add_word_idx_tk word d pos p n ds (idx : gmap string entry) :
  word <> total_key ->
  (<[total_key := TotalEntry n ({[d]} ∪ ds)]> (<[word := Posting (add_word_post p d pos)]> idx))
    !! total_key = Some (TotalEntry n ({[d]} ∪ ds)).
Proof. intros _. apply lookup_insert_eq. Qed.

Lemma add_word_idx_ne word d pos p n ds (idx : gmap string entry) w :
  w <> total_key -> w <> word ->
  (<[total_key := TotalEntry n ({[d]} ∪ ds)]> (<[word := Posting (add_word_post p d pos)]> idx))
    !! w = idx !! w.
Proof. intros H1 H2. rewrite lookup_insert_ne by congruence. apply lookup_insert_ne. congruence. Qed.

Lemma add_word_idx_word word d pos p n ds (idx : gmap string entry) :
  word <> total_key ->
  (<[total_key := TotalEntry n ({[d]} ∪ ds)]> (<[word := Posting (add_word_post p d pos)]> idx))
    !! word = Some (Posting (add_word_post p d pos)).
Proof. intros H. rewrite lookup_insert_ne by congruence. apply lookup_insert_eq. Qed.

(** What one [add_word] does to the recorded contents. *)
Lemma add_word_contents word d pos s u s' n ds :
  inverted_index s !! total_key = Some (TotalEntry n ds) ->
  total_only_at_key (inverted_index s) ->
  add_word word d pos s = Ok (u, s') ->
  word <> total_key /\
  inverted_index s' !! total_key = Some (TotalEntry n ({[d]} ∪ ds)) /\
  total_only_at_key (inverted_index s') /\
  (∀ w d', word_positions (inverted_index s') w d' =
           if decide (w = word /\ d' = d) then {[pos]} ∪ word_positions (inverted_index s) w d'
           else word_positions (inverted_index s) w d') /\
  (∀ w, word_frequency (inverted_index s') w =
        word_frequency (inverted_index s) w + if decide (w = word) then 1 else 0) /\
  (∀ w, docs_of (inverted_index s') w =
        if decide (w = word) then {[d]} ∪ docs_of (inverted_index s) w
        else docs_of (inverted_index s) w).
Proof.
  intros Htot Honly H.
  apply (add_word_spec _ _ _ _ _ _ _ _ Htot) in H as (Hne & p & Hcase & Hidx).
  assert (Hwp : ∀ d', word_positions (inverted_index s) word d' = default ∅ (position_dict p !! d')).
  { intros d'. unfold word_positions. destruct Hcase as [Hw|[Hw ->]]; rewrite Hw; [reflexivity|].
    simpl. rewrite lookup_empty. reflexivity. }
  assert (Hwf : word_frequency (inverted_index s) word = frequency p).
  { unfold word_frequency. destruct Hcase as [Hw|[Hw ->]]; rewrite Hw; reflexivity. }
  assert (Hwd : docs_of (inverted_index s) word = document_set p).
  { unfold docs_of. destruct Hcase as [Hw|[Hw ->]]; rewrite Hw; reflexivity. }
  rewrite Hidx. split; [exact Hne|]. split; [apply lookup_insert_eq|]. split; [|split; [|split]].
  - intros w m ds' Hw. destruct (decide (w = total_key)) as [->|Hne1]; [reflexivity|].
    destruct (decide (w = word)) as [->|Hne2].
    + rewrite add_word_idx_word in Hw by exact Hne. discriminate.
    + rewrite add_word_idx_ne in Hw by assumption. eapply Honly; exact Hw.
  - intros w d'. destruct (decide (w = total_key)) as [->|Hne1].
    + rewrite decide_False by (intros [Heq _]; congruence).
      unfold word_positions. rewrite lookup_insert_eq, Htot. reflexivity.
    + destruct (decide (w = word)) as [->|Hne2].
      * unfold word_positions at 1. rewrite add_word_idx_word by exact Hne.
        unfold add_word_post. simpl. rewrite Hwp.
        destruct (decide (d' = d)) as [->|Hne3].
        -- rewrite decide_True by auto. rewrite lookup_insert_eq. reflexivity.
        -- rewrite decide_False by (intros [_ Heq]; congruence).
           rewrite lookup_insert_ne by congruence. reflexivity.
      * rewrite decide_False by (intros [Heq _]; congruence).
        unfold word_positions. rewrite add_word_idx_ne by assumption. reflexivity.
  - intros w. destruct (decide (w = total_key)) as [->|Hne1].
    + rewrite decide_False by congruence. unfold word_frequency. rewrite lookup_insert_eq, Htot. reflexivity.
    + destruct (decide (w = word)) as [->|Hne2].
      * unfold word_frequency at 1. rewrite add_word_idx_word by exact Hne. rewrite Hwf. reflexivity.
      * unfold word_frequency. rewrite add_word_idx_ne by assumption. lia.
  - intros w. destruct (decide (w = total_key)) as [->|Hne1].
    + rewrite decide_False by congruence. unfold docs_of. rewrite lookup_insert_eq, Htot. reflexivity.
    + destruct (decide (w = word)) as [->|Hne2].
      * unfold docs_of at 1. rewrite add_word_idx_word by exact Hne. rewrite Hwd. reflexivity.
      * unfold docs_of. rewrite add_word_idx_ne by assumption. reflexivity.
Qed.

(** [add_word] fails exactly on the special key. *)
Lemma add_word_total_key d pos s n ds :
  inverted_index s !! total_key = Some (TotalEntry n ds) ->
  add_word total_key d pos s = Raise KeyError.
Proof.
  intros Htot. unfold add_word, bindM, index_get, incr_frequency. rewrite Htot. simpl.
  rewrite Htot. reflexivity.
Qed.

Lemma add_word_runs word d pos s n ds :
  inverted_index s !! total_key = Some (TotalEntry n ds) ->
  total_only_at_key (inverted_index s) -> word <> total_key ->
  exists s', add_word word d pos s = Ok (tt, s').
Proof.
  intros Htot Honly Hne.
  unfold add_word, bindM, index_get, incr_frequency, set_add, set_modify, pos_get, sref_get, sref_put, ret, set_index.
  destruct (inverted_index s !! word) as [[p|m dsw]|] eqn:Hw.
  - assert (Hne' : total_key <> word) by congruence.
    simpl. rewrite Hw. simpl. simplify_map_eq.
    destruct (position_dict p !! d) eqn:Hd; simpl; simplify_map_eq; eexists; reflexivity.
  - apply Honly in Hw. congruence.
  - assert (Hne' : total_key <> word) by congruence.
    simpl. simplify_map_eq. eexists; reflexivity.
Qed.

Lemma contents_add_nil idx : contents_add idx idx [].
Proof.
  split; [|split; [|split]].
  - intros. simpl. tauto.
  - intros. simpl. lia.
  - intros w x. split; [auto|]. intros [H|(y & [])]. exact H.
  - intros x. split; [auto|]. intros [H|(w & y & [])]. exact H.
Qed.

Lemma contents_add_trans idx1 idx2 idx3 L1 L2 :
  contents_add idx1 idx2 L1 -> contents_add idx2 idx3 L2 -> contents_add idx1 idx3 (L1 ++ L2).
Proof.
  intros (P1 & F1 & D1 & T1) (P2 & F2 & D2 & T2). split; [|split; [|split]].
  - intros w d x. rewrite P2, P1, in_app_iff. tauto.
  - intros w. rewrite F2, F1, filter_app, length_app. lia.
  - intros w x. rewrite D2, D1. split.
    + intros [[H|(y & Hy)]|(y & Hy)]; [auto|right; exists y; apply in_app_iff; auto|].
      right; exists y; apply in_app_iff; auto.
    + intros [H|(y & Hy)]; [auto|]. apply in_app_iff in Hy as [Hy|Hy]; eauto.
  - intros x. rewrite T2, T1. split.
    + intros [[H|(w & y & Hy)]|(w & y & Hy)]; [auto|right; exists w, y; apply in_app_iff; auto|].
      right; exists w, y; apply in_app_iff; auto.
    + intros [H|(w & y & Hy)]; [auto|]. apply in_app_iff in Hy as [Hy|Hy]; eauto 6.
Qed.

Lemma add_word_step word d pos s u s' :
  build_shape (inverted_index s) -> add_word word d pos s = Ok (u, s') ->
  word <> total_key /\ build_shape (inverted_index s') /\
  contents_add (inverted_index s) (inverted_index s') [(word, d, pos)].
Proof.
  intros [(n & ds & Htot) Honly] H.
  pose proof (add_word_contents _ _ _ _ _ _ _ _ Htot Honly H) as (Hne & Htot' & Honly' & HP & HF & HD).
  split; [exact Hne|]. split; [split; [eauto|exact Honly']|].
  split; [|split; [|split]].
  - intros w d' x. rewrite HP. simpl.
    destruct (decide (w = word /\ d' = d)) as [[-> ->]|Hn].
    + rewrite elem_of_union, elem_of_singleton. split; [intros [->|Hx]; auto|].
      intros [Hx|[Heq|[]]]; [auto|]. inversion Heq; subst. auto.
    + split; [auto|]. intros [Hx|[Heq|[]]]; [exact Hx|]. inversion Heq; subst. tauto.
  - intros w. rewrite HF. simpl. destruct (decide (w = word)) as [->|Hn].
    + rewrite filter_cons_True by reflexivity. simpl. lia.
    + rewrite filter_cons_False by (simpl; congruence). simpl. lia.
  - intros w x. rewrite HD. destruct (decide (w = word)) as [->|Hn].
    + rewrite elem_of_union, elem_of_singleton. split.
      * intros [->|Hx]; [right; exists pos; left; reflexivity|auto].
      * intros [Hx|(y & [Heq|[]])]; [auto|]. inversion Heq; subst. auto.
    + split; [auto|]. intros [Hx|(y & [Heq|[]])]; [exact Hx|]. inversion Heq; subst. tauto.
  - intros x. unfold total_docs. rewrite Htot', Htot. rewrite elem_of_union, elem_of_singleton. split.
    + intros [->|Hx]; [right; exists word, pos; left; reflexivity|auto].
    + intros [Hx|(w & y & [Heq|[]])]; [auto|]. inversion Heq; subst. auto.
Qed.

Lemma add_words_step d words : ∀ i offset s u s',
  build_shape (inverted_index s) -> add_words d words i offset s = Ok (u, s') ->
  ~ In total_key words /\ build_shape (inverted_index s') /\
  contents_add (inverted_index s) (inverted_index s') (word_occs d words i offset).
Proof.
  induction words as [|w ws IH]; intros i offset s u s' Hsh H; simpl in H.
  - apply ret_ok in H as [_ ->]. split; [intros []|]. split; [exact Hsh|apply contents_add_nil].
  - inv_bind H u1 s1 Hw. apply add_word_step in Hw as (Hne & Hsh1 & Hc1); [|exact Hsh].
    apply IH in H as (Hnin & Hsh2 & Hc2); [|exact Hsh1].
    split; [intros [Heq|Hin]; [congruence|contradiction]|]. split; [exact Hsh2|].
    apply (contents_add_trans _ _ _ _ _ Hc1 Hc2).
Qed.

Lemma add_words_runs d words : ∀ i offset s,
  build_shape (inverted_index s) -> ~ In total_key words ->
  exists s', add_words d words i offset s = Ok (tt, s').
Proof.
  induction words as [|w ws IH]; intros i offset s Hsh Hnin; simpl.
  - exists s. reflexivity.
  - destruct Hsh as [(n & ds & Htot) Honly] eqn:Hsh'.
    destruct (add_word_runs w d (i + offset) s n ds Htot Honly) as [s1 Hs1];
      [intros Heq; apply Hnin; left; congruence|].
    apply add_word_step in Hs1 as Hst; [|exact Hsh].
    destruct Hst as (_ & Hsh1 & _).
    destruct (IH (i + 1) offset s1 Hsh1) as [s2 Hs2]; [intros Hin; apply Hnin; right; exact Hin|].
    exists s2. unfold bindM. rewrite Hs1. exact Hs2.
Qed.

Lemma add_words_raises d words : ∀ i offset s,
  build_shape (inverted_index s) -> In total_key words ->
  add_words d words i offset s = Raise KeyError.
Proof.
  induction words as [|w ws IH]; intros i offset s Hsh Hin; simpl; [destruct Hin|].
  destruct (decide (w = total_key)) as [->|Hne].
  - destruct Hsh as [(n & ds & Htot) _]. unfold bindM. rewrite (add_word_total_key _ _ _ _ _ Htot). reflexivity.
  - destruct Hin as [Heq|Hin]; [congruence|].
    destruct Hsh as [(n & ds & Htot) Honly] eqn:Hsh'.
    destruct (add_word_runs w d (i + offset) s n ds Htot Honly Hne) as [s1 Hs1].
    apply add_word_step in Hs1 as Hst; [|exact Hsh]. destruct Hst as (_ & Hsh1 & _).
    unfold bindM. rewrite Hs1. apply IH; assumption.
Qed.

Lemma word_occs_shift d words : ∀ i offset i' offset',
  i + offset = i' + offset' -> word_occs d words i offset = word_occs d words i' offset'.
Proof.
  induction words as [|w ws IH]; intros i offset i' offset' Heq; simpl; [reflexivity|].
  rewrite Heq. f_equal. apply IH. lia.
Qed.

Lemma word_occs_app d l1 l2 : ∀ i offset,
  word_occs d (l1 ++ l2) i offset =
  word_occs d l1 i offset ++ word_occs d l2 (i + Z.of_nat (length l1)) offset.
Proof.
  induction l1 as [|w ws IH]; intros i offset; simpl.
  - f_equal. lia.
  - f_equal. rewrite IH. f_equal. apply word_occs_shift. lia.
Qed.

Lemma index_doc_step dc s u s' :
  build_shape (inverted_index s) -> index_doc dc s = Ok (u, s') ->
  ~ In total_key (raw_doc_words dc) /\ build_shape (inverted_index s') /\
  contents_add (inverted_index s) (inverted_index s') (doc_occs dc).
Proof.
  intros Hsh H. unfold index_doc in H. inv_bind H hl s1 Hh.
  assert (Hmid : ~ In total_key (from_option split [] (headline dc)) /\
                 build_shape (inverted_index s1) /\
                 hl = Z.of_nat (length (from_option split [] (headline dc))) /\
                 contents_add (inverted_index s) (inverted_index s1)
                   (word_occs (docno dc) (from_option split [] (headline dc)) 0 0)).
  { destruct (headline dc) as [t|]; simpl.
    - inv_bind Hh u1 s2 Ha. apply ret_ok in Hh as [-> ->].
      apply add_words_step in Ha as (Hn & Hsh1 & Hc1); [|exact Hsh]. auto.
    - apply ret_ok in Hh as [-> ->]. split; [intros []|]. split; [exact Hsh|].
      split; [reflexivity|apply contents_add_nil]. }
  destruct Hmid as (Hn1 & Hsh1 & -> & Hc1).
  unfold doc_occs, raw_doc_words. rewrite word_occs_app.
  destruct (doc_text dc) as [t|]; simpl.
  - apply add_words_step in H as (Hn2 & Hsh2 & Hc2); [|exact Hsh1].
    split; [rewrite in_app_iff; tauto|]. split; [exact Hsh2|].
    apply (contents_add_trans _ _ _ _ _ Hc1). erewrite word_occs_shift; [exact Hc2|lia].
  - apply ret_ok in H as [_ ->]. rewrite app_nil_r, app_nil_r. auto.
Qed.

Lemma index_doc_runs dc s :
  build_shape (inverted_index s) -> ~ In total_key (raw_doc_words dc) ->
  exists s', index_doc dc s = Ok (tt, s').
Proof.
  intros Hsh Hnin. unfold raw_doc_words in Hnin. rewrite in_app_iff in Hnin.
  unfold index_doc.
  assert (Hh : exists hl s1, (match headline dc with
               | Some t => let* _ := add_words (docno dc) (split t) 0 0 in ret (Z.of_nat (length (split t)))
               | None => ret 0 end) s = Ok (hl, s1) /\ build_shape (inverted_index s1)).
  { destruct (headline dc) as [t|]; simpl in Hnin.
    - destruct (add_words_runs (docno dc) (split t) 0 0 s Hsh) as [s1 Hs1]; [tauto|].
      apply add_words_step in Hs1 as Hst; [|exact Hsh]. destruct Hst as (_ & Hsh1 & _).
      exists (Z.of_nat (length (split t))), s1. unfold bindM. rewrite Hs1. auto.
    - exists 0, s. auto. }
  destruct Hh as (hl & s1 & Hs1 & Hsh1). unfold bindM at 1. rewrite Hs1.
  destruct (doc_text dc) as [t|]; simpl in Hnin.
  - apply add_words_runs; [exact Hsh1|tauto].
  - exists s1. reflexivity.
Qed.

Lemma index_doc_raises dc s :
  build_shape (inverted_index s) -> In total_key (raw_doc_words dc) ->
  index_doc dc s = Raise KeyError.
Proof.
  intros Hsh Hin. unfold raw_doc_words in Hin. rewrite in_app_iff in Hin.
  unfold index_doc. destruct (headline dc) as [t|] eqn:Hhd; simpl in Hin.
  - destruct (in_dec (λ a b : string, decide (a = b)) total_key (split t)) as [Ht|Ht].
    + unfold bindM at 1 2. rewrite (add_words_raises _ _ _ _ _ Hsh Ht). reflexivity.
    + destruct (add_words_runs (docno dc) (split t) 0 0 s Hsh Ht) as [s1 Hs1].
      apply add_words_step in Hs1 as Hst; [|exact Hsh]. destruct Hst as (_ & Hsh1 & _).
      unfold bindM at 1 2. rewrite Hs1. simpl.
      destruct (doc_text dc) as [t'|]; simpl in Hin; [|tauto].
      apply add_words_raises; [exact Hsh1|tauto].
  - destruct Hin as [[]|Hin]. unfold bindM at 1. simpl.
    destruct (doc_text dc) as [t'|]; simpl in Hin; [|destruct Hin].
    apply add_words_raises; assumption.
Qed.

Lemma index_docs_step docs : ∀ s u s',
  build_shape (inverted_index s) ->
  fold_M (λ _ d, index_doc d) docs tt s = Ok (u, s') ->
  (∀ dc, In dc docs -> ~ In total_key (raw_doc_words dc)) /\ build_shape (inverted_index s') /\
  contents_add (inverted_index s) (inverted_index s') (concat (map doc_occs docs)).
Proof.
  induction docs as [|dc docs IH]; intros s u s' Hsh H; simpl in H.
  - apply ret_ok in H as [_ ->]. split; [intros _ []|]. split; [exact Hsh|apply contents_add_nil].
  - inv_bind H u1 s1 Hd. apply index_doc_step in Hd as (Hn1 & Hsh1 & Hc1); [|exact Hsh].
    destruct u1. apply IH in H as (Hn2 & Hsh2 & Hc2); [|exact Hsh1].
    split; [intros dc' [<-|Hin]; auto|]. split; [exact Hsh2|].
    simpl. exact (contents_add_trans _ _ _ _ _ Hc1 Hc2).
Qed.

Lemma index_docs_outcome docs : ∀ s,
  build_shape (inverted_index s) ->
  ((exists dc, In dc docs /\ In total_key (raw_doc_words dc)) /\
     fold_M (λ _ d, index_doc d) docs tt s = Raise KeyError) \/
  ((∀ dc, In dc docs -> ~ In total_key (raw_doc_words dc)) /\
     exists s', fold_M (λ _ d, index_doc d) docs tt s = Ok (tt, s')).
Proof.
  induction docs as [|dc docs IH]; intros s Hsh; simpl.
  - right. split; [intros _ []|exists s; reflexivity].
  - destruct (in_dec (λ a b : string, decide (a = b)) total_key (raw_doc_words dc)) as [Hin|Hnin].
    + left. split; [exists dc; auto|]. unfold bindM. rewrite (index_doc_raises _ _ Hsh Hin). reflexivity.
    + destruct (index_doc_runs dc s Hsh Hnin) as [s1 Hs1].
      apply index_doc_step in Hs1 as Hst; [|exact Hsh]. destruct Hst as (_ & Hsh1 & _).
      unfold bindM. rewrite Hs1.
      destruct (IH s1 Hsh1) as [[(dc' & Hdc' & Hin') Hr]|[Hall Hr]].
      * left. split; [exists dc'; auto|exact Hr].
      * right. split; [intros dc' [<-|Hdc']; auto|exact Hr].
Qed.

Lemma word_occs_in d0 l : ∀ i offset w d x,
  In (w, d, x) (word_occs d0 l i offset) <->
  d = d0 /\ exists k, l !! k = Some w /\ x = Z.of_nat k + i + offset.
Proof.
  induction l as [|w0 l IH]; intros i offset w d x; simpl.
  - split; [intros []|]. intros (_ & k & Hk & _). rewrite lookup_nil in Hk. discriminate.
  - rewrite IH. split.
    + intros [Heq|(-> & k & Hk & ->)].
      * inversion Heq; subst. split; [reflexivity|]. exists 0%nat. split; [reflexivity|lia].
      * split; [reflexivity|]. exists (S k). split; [exact Hk|lia].
    + intros (-> & [|k] & Hk & ->).
      * simpl in Hk. injection Hk as ->. left. replace (Z.of_nat 0 + i + offset) with (i + offset) by lia. reflexivity.
      * right. split; [reflexivity|]. exists k. split; [exact Hk|lia].
Qed.

Lemma doc_occs_in docs w d x :
  In (w, d, x) (concat (map doc_occs docs)) <->
  exists dc, In dc docs /\ docno dc = d /\
             exists k, raw_doc_words dc !! k = Some w /\ x = Z.of_nat k.
Proof.
  rewrite in_concat. split.
  - intros (L & HL & Hin). apply in_map_iff in HL as (dc & <- & Hdc).
    unfold doc_occs in Hin. apply word_occs_in in Hin as (-> & k & Hk & ->).
    exists dc. split; [exact Hdc|]. split; [reflexivity|]. exists k. split; [exact Hk|lia].
  - intros (dc & Hdc & <- & k & Hk & ->). exists (doc_occs dc). split; [apply in_map; exact Hdc|].
    unfold doc_occs. apply word_occs_in. split; [reflexivity|]. exists k. split; [exact Hk|lia].
Qed.

Lemma word_occs_count d l : ∀ i offset w,
  length (filter (λ o, o.1.1 = w) (word_occs d l i offset)) =
  count_occ (λ a b : string, decide (a = b)) l w.
Proof.
  induction l as [|w0 l IH]; intros i offset w; simpl; [reflexivity|].
  destruct (decide (w0 = w)) as [->|Hne].
  - rewrite filter_cons_True by reflexivity. simpl. rewrite IH. reflexivity.
  - rewrite filter_cons_False by (simpl; congruence). rewrite IH. reflexivity.
Qed.

Lemma doc_occs_count docs w :
  length (filter (λ o, o.1.1 = w) (concat (map doc_occs docs))) =
  sum_list_with (λ dc, count_occ (λ a b : string, decide (a = b)) (raw_doc_words dc) w) docs.
Proof.
  induction docs as [|dc docs IH]; simpl; [reflexivity|].
  rewrite filter_app, length_app, IH. unfold doc_occs. rewrite word_occs_count. reflexivity.
Qed.

Lemma initial_shape : build_shape (inverted_index initial_store).
Proof.
  split.
  - exists 0, ∅. apply lookup_singleton_eq.
  - intros w n ds Hw. unfold initial_store in Hw. cbn [inverted_index] in Hw.
    destruct (decide (w = total_key)) as [->|Hne]; [reflexivity|].
    rewrite lookup_singleton_ne in Hw by congruence. discriminate.
Qed.

Lemma initial_empty w d :
  word_positions (inverted_index initial_store) w d = ∅ /\
  word_frequency (inverted_index initial_store) w = 0 /\
  docs_of (inverted_index initial_store) w = ∅ /\
  total_docs (inverted_index initial_store) = ∅.
Proof.
  unfold word_positions, word_frequency, docs_of, total_docs, initial_store. cbn [inverted_index].
  rewrite lookup_singleton_eq.
  destruct (decide (w = total_key)) as [->|Hne].
  - rewrite lookup_singleton_eq. auto.
  - rewrite lookup_singleton_ne by congruence. auto.
Qed.

(** [set_total_size] only sets the size under the special key. *)
Lemma set_total_size_contents s u s' :
  build_shape (inverted_index s) -> set_total_size s = Ok (u, s') ->
  contents_add (inverted_index s) (inverted_index s') [] /\
  inverted_index s' !! total_key =
    Some (TotalEntry (Z.of_nat (size (total_docs (inverted_index s)))) (total_docs (inverted_index s))).
Proof.
  intros [(n & ds & Htot) Honly] H. unfold set_total_size in H. rewrite Htot in H.
  injection H as _ <-. cbn [inverted_index set_index].
  replace (total_docs (inverted_index s)) with ds by (unfold total_docs; rewrite Htot; reflexivity). split; [|apply lookup_insert_eq].
  assert (Heq : ∀ w, w <> total_key ->
                <[total_key := TotalEntry (Z.of_nat (size ds)) ds]> (inverted_index s) !! w =
                inverted_index s !! w) by (intros; apply lookup_insert_ne; congruence).
  split; [|split; [|split]].
  - intros w d x. simpl. unfold word_positions. destruct (decide (w = total_key)) as [->|Hne].
    + rewrite lookup_insert_eq, Htot. tauto.
    + rewrite Heq by exact Hne. tauto.
  - intros w. simpl. unfold word_frequency. destruct (decide (w = total_key)) as [->|Hne].
    + rewrite lookup_insert_eq, Htot. lia.
    + rewrite Heq by exact Hne. lia.
  - intros w x. unfold docs_of. destruct (decide (w = total_key)) as [->|Hne].
    + rewrite lookup_insert_eq, Htot. split; [auto|intros [H|(y & [])]; exact H].
    + rewrite Heq by exact Hne. split; [auto|intros [H|(y & [])]; exact H].
  - intros x. unfold total_docs. rewrite lookup_insert_eq, Htot.
    split; [auto|intros [H|(w & y & [])]; exact H].
Qed.

Lemma build_contents cfg docs s :
  build_index cfg docs = Ok s ->
  (∀ dc, In dc docs -> ~ In total_key (doc_words cfg dc)) /\
  contents_add (inverted_index initial_store) (inverted_index s)
    (concat (map doc_occs (map (preprocess_doc cfg) docs))) /\
  inverted_index s !! total_key =
    Some (TotalEntry (Z.of_nat (size (total_docs (inverted_index s)))) (total_docs (inverted_index s))).
Proof.
  intros H. unfold build_index in H.
  destruct (_build_index (map (preprocess_doc cfg) docs) initial_store) as [[u s1]|e] eqn:Hb;
    [injection H as <-|discriminate].
  unfold _build_index in Hb. inv_bind Hb u1 s2 Hf.
  apply index_docs_step in Hf as (Hn & Hsh2 & Hc); [|exact initial_shape].
  apply set_total_size_contents in Hb as [Hc' Htot]; [|exact Hsh2].
  split; [intros dc Hdc; apply Hn; apply in_map; exact Hdc|].
  pose proof (contents_add_trans _ _ _ _ _ Hc Hc') as Hc2. rewrite app_nil_r in Hc2.
  split; [exact Hc2|]. rewrite Htot.
  assert (Ht : total_docs (inverted_index s1) = total_docs (inverted_index s2)).
  { unfold total_docs at 1. rewrite Htot. reflexivity. }
  rewrite Ht. reflexivity.
Qed.

Lemma doc_occs_in_pre cfg docs w d x :
  In (w, d, x) (concat (map doc_occs (map (preprocess_doc cfg) docs))) <->
  exists dc, In dc docs /\ docno dc = d /\
             exists k, doc_words cfg dc !! k = Some w /\ x = Z.of_nat k.
Proof.
  rewrite doc_occs_in. split.
  - intros (dc' & Hdc' & <- & Hk). apply in_map_iff in Hdc' as (dc & <- & Hdc). eauto.
  - intros (dc & Hdc & <- & Hk). exists (preprocess_doc cfg dc). split; [apply in_map; exact Hdc|]. eauto.
Qed.

Lemma sum_list_with_preprocess cfg docs w :
  sum_list_with (λ dc, count_occ (λ a b : string, decide (a = b)) (raw_doc_words dc) w)
    (map (preprocess_doc cfg) docs) =
  sum_list_with (λ dc, count_occ (λ a b : string, decide (a = b)) (doc_words cfg dc) w) docs.
Proof. induction docs as [|dc docs IH]; simpl; [reflexivity|]. rewrite IH. reflexivity. Qed.

(** X1. The index built from a collection records, for each word and document, exactly
    the positions at which the word occurs among the document's words (headline
    words first, then text words, numbered from 0). *)
Theorem build_index_positions cfg docs s :
  build_index cfg docs = Ok s ->
  ∀ w d x, x ∈ word_positions (inverted_index s) w d <->
           exists dc, In dc docs /\ docno dc = d /\
                      exists k, doc_words cfg dc !! k = Some w /\ x = Z.of_nat k.
Proof.
  intros H. apply build_contents in H as (_ & (HP & _) & _).
  intros w d x. rewrite HP, doc_occs_in_pre. destruct (initial_empty w d) as (-> & _).
  rewrite elem_of_empty. tauto.
Qed.

(** X2. The frequency recorded for a word is its number of occurrences in the collection. *)
Theorem build_index_frequency cfg docs s :
  build_index cfg docs = Ok s ->
  ∀ w, word_frequency (inverted_index s) w =
       Z.of_nat (sum_list_with (λ dc, count_occ (λ a b : string, decide (a = b)) (doc_words cfg dc) w) docs).
Proof.
  intros H. apply build_contents in H as (_ & (_ & HF & _) & _).
  intros w. rewrite HF, doc_occs_count. destruct (initial_empty w 0) as (_ & -> & _).
  rewrite sum_list_with_preprocess. lia.
Qed.

(** X3. The document set recorded for a word holds exactly the DOCNOs of the documents
    in which it occurs. *)
Theorem build_index_document_sets cfg docs s :
  build_index cfg docs = Ok s ->
  ∀ w d, d ∈ docs_of (inverted_index s) w <->
         exists dc, In dc docs /\ docno dc = d /\ In w (doc_words cfg dc).
Proof.
  intros H. apply build_contents in H as (_ & (_ & _ & HD & _) & _).
  intros w d. rewrite HD. destruct (initial_empty w 0) as (_ & _ & -> & _).
  rewrite elem_of_empty. split.
  - intros [[]|(y & Hy)]. apply doc_occs_in_pre in Hy as (dc & Hdc & Hd & k & Hk & _).
    exists dc. split; [exact Hdc|]. split; [exact Hd|]. eapply list_elem_of_lookup_2 in Hk.
    apply list_elem_of_In. exact Hk.
  - intros (dc & Hdc & Hd & Hw). apply list_elem_of_In, list_elem_of_lookup in Hw as [k Hk].
    right. exists (Z.of_nat k). apply doc_occs_in_pre. eauto 6.
Qed.

(** X4. The special key holds the set of DOCNOs of the documents with at least one
    word, and its size is the number of those DOCNOs; a document without words
    is not counted. *)
Theorem build_index_total_documents cfg docs s :
  build_index cfg docs = Ok s ->
  exists T, inverted_index s !! total_key = Some (TotalEntry (Z.of_nat (size T)) T) /\
            ∀ d, d ∈ T <-> exists dc, In dc docs /\ docno dc = d /\ doc_words cfg dc <> [].
Proof.
  intros H. apply build_contents in H as (_ & (_ & _ & _ & HT) & Htot).
  exists (total_docs (inverted_index s)). split; [exact Htot|].
  intros d. rewrite HT. destruct (initial_empty "" 0) as (_ & _ & _ & ->).
  rewrite elem_of_empty. split.
  - intros [[]|(w & y & Hy)]. apply doc_occs_in_pre in Hy as (dc & Hdc & Hd & k & Hk & _).
    exists dc. split; [exact Hdc|]. split; [exact Hd|]. intros Hnil. rewrite Hnil in Hk.
    rewrite lookup_nil in Hk. discriminate.
  - intros (dc & Hdc & Hd & Hne). destruct (doc_words cfg dc) as [|w ws] eqn:Hw; [congruence|].
    right. exists w, 0. apply doc_occs_in_pre. exists dc. split; [exact Hdc|]. split; [exact Hd|].
    exists 0%nat. rewrite Hw. auto.
Qed.

(** X5. For documents as modelled by [doc] (each [DOCNO] an integer
    literal, each [HEADLINE] and [TEXT] present holding text), building
    raises [KeyError] exactly when some document contains the word
    [_total_document_set] (the dictionary of the special key has no
    [frequency]); otherwise it succeeds. *)
Theorem build_index_outcome cfg docs :
  ((exists dc, In dc docs /\ In total_key (doc_words cfg dc)) /\
     build_index cfg docs = Raise KeyError) \/
  ((∀ dc, In dc docs -> ~ In total_key (doc_words cfg dc)) /\
     exists s, build_index cfg docs = Ok s).
Proof.
  unfold build_index, _build_index, bindM.
  destruct (index_docs_outcome (map (preprocess_doc cfg) docs) initial_store initial_shape)
    as [[(dc' & Hdc' & Hin) Hr]|[Hall (s1 & Hr)]].
  - left. rewrite Hr. split; [|reflexivity].
    apply in_map_iff in Hdc' as (dc & <- & Hdc). exists dc. auto.
  - right. rewrite Hr. split.
    + intros dc Hdc. apply Hall. apply in_map. exact Hdc.
    + apply index_docs_step in Hr as (_ & [(n & ds & Htot) _] & _); [|exact initial_shape].
      unfold set_total_size. rewrite Htot. eexists. reflexivity.
Qed.

Lemma build_index_positions_witness :
  build_index plain_config sat_docs = Ok sat_store /\
  (0 ∈ word_positions (inverted_index sat_store) "cat" 1 <->
   exists dc, In dc sat_docs /\ docno dc = 1 /\
              exists k, doc_words plain_config dc !! k = Some "cat"%string /\ 0 = Z.of_nat k).
Proof.
  assert (Hb : build_index plain_config sat_docs = Ok sat_store) by (vm_compute; reflexivity).
  split; [exact Hb|]. apply (build_index_positions plain_config sat_docs sat_store Hb).
Defined.

Lemma build_index_frequency_witness :
  build_index plain_config sat_docs = Ok sat_store /\
  word_frequency (inverted_index sat_store) "cat" =
    Z.of_nat (sum_list_with (λ dc, count_occ (λ a b : string, decide (a = b))
                                     (doc_words plain_config dc) "cat") sat_docs).
Proof.
  assert (Hb : build_index plain_config sat_docs = Ok sat_store) by (vm_compute; reflexivity).
  split; [exact Hb|]. apply (build_index_frequency plain_config sat_docs sat_store Hb).
Defined.

Lemma build_index_document_sets_witness :
  build_index plain_config sat_docs = Ok sat_store /\
  (1 ∈ docs_of (inverted_index sat_store) "the" <->
   exists dc, In dc sat_docs /\ docno dc = 1 /\ In "the"%string (doc_words plain_config dc)).
Proof.
  assert (Hb : build_index plain_config sat_docs = Ok sat_store) by (vm_compute; reflexivity).
  split; [exact Hb|]. apply (build_index_document_sets plain_config sat_docs sat_store Hb).
Defined.

Lemma build_index_total_documents_witness :
  build_index plain_config sat_docs = Ok sat_store /\
  exists T, inverted_index sat_store !! total_key = Some (TotalEntry (Z.of_nat (size T)) T) /\
            ∀ d, d ∈ T <-> exists dc, In dc sat_docs /\ docno dc = d /\ doc_words plain_config dc <> [].
Proof.
  assert (Hb : build_index plain_config sat_docs = Ok sat_store) by (vm_compute; reflexivity).
  split; [exact Hb|]. apply (build_index_total_documents plain_config sat_docs sat_store Hb).
Defined.

(* ------------------------------------------------------------------ *)

Lemma strictly_sorted_merge_sort (l : list Z) : NoDup l -> strictly_sorted (merge_sort Z.le l).
Proof.
  intros Hnd. assert (Hs : StronglySorted Z.le (merge_sort Z.le l)).
  { apply StronglySorted_merge_sort; [intros a b c; lia|intros a b; lia]. }
  assert (Hn : NoDup (merge_sort Z.le l)) by (rewrite merge_sort_Permutation; exact Hnd).
  unfold strictly_sorted. induction Hs as [|x l' Hs IH Hf]; constructor.
  - apply IH. apply NoDup_cons in Hn as [_ Hn]. exact Hn.
  - apply NoDup_cons in Hn as [Hx _]. apply Forall_forall. intros y Hy.
    rewrite Forall_forall in Hf. specialize (Hf y Hy).
    assert (x <> y) by (intros ->; apply Hx; exact Hy). lia.
Qed.

Lemma docs_of_positions idx w d :
  index_ok idx -> d ∈ docs_of idx w ->
  exists p, idx !! w = Some (Posting p) /\ position_dict p !! d = Some (word_positions idx w d) /\
            word_positions idx w d ≠ ∅.
Proof.
  intros Hok Hd. unfold docs_of in Hd. unfold word_positions.
  destruct (idx !! w) as [[p|n ds]|] eqn:Hw; try (apply elem_of_empty in Hd; contradiction).
  destruct (proj1 (proj2 (Hok w p Hw) d) Hd) as (ps & Hps & Hne).
  exists p. rewrite Hps. auto.
Qed.

Lemma positions_docs_of idx w d x :
  index_ok idx -> x ∈ word_positions idx w d -> d ∈ docs_of idx w.
Proof.
  intros Hok Hx. unfold word_positions in Hx. unfold docs_of.
  destruct (idx !! w) as [[p|n ds]|] eqn:Hw; try (apply elem_of_empty in Hx; contradiction).
  apply (proj2 (Hok w p Hw) d). destruct (position_dict p !! d) as [ps|]; simpl in Hx.
  - exists ps. split; [reflexivity|]. intros ->. apply elem_of_empty in Hx. exact Hx.
  - apply elem_of_empty in Hx. contradiction.
Qed.

Section PhraseExact.
Variable idx0 : gmap string entry.
Hypothesis idx0_ok : index_ok idx0.

Lemma pos_get_read w d s r s' v s'' :
  inverted_index s = idx0 -> d ∈ docs_of idx0 w ->
  pos_get w d s = Ok (r, s') -> set_read r s' = Ok (v, s'') ->
  s' = s /\ s'' = s /\ v = word_positions idx0 w d.
Proof.
  intros Hs Hd Hr Hv. apply (pos_get_docs idx0 idx0_ok) in Hr as [-> ->]; [|exact Hs|exact Hd].
  apply set_read_ok in Hv as [Hv ->]. split; [reflexivity|split; [reflexivity|]].
  destruct (docs_of_positions idx0 w d idx0_ok Hd) as (p & Hp & Hps & _).
  simpl in Hv. rewrite Hs, Hp, Hps in Hv. congruence.
Qed.

Lemma remove_starts_spec i next_w ppd d n ps : ∀ s v u s',
  inverted_index s = idx0 -> d ∈ docs_of idx0 next_w ->
  ppd !! d = Some (RHeap n) -> heap s !! n = Some v ->
  remove_starts i next_w ppd d ps s = Ok (u, s') ->
  inverted_index s' = idx0 /\ next_obj s' = next_obj s /\
  exists v', heap s' = <[n := v']> (heap s) /\
    ∀ x, x ∈ v' <-> x ∈ v /\ ~ (exists q, In q ps /\ (q + 1 ∉ word_positions idx0 next_w d) /\ x = q - i).
Proof.
  induction ps as [|q ps IH]; intros s v u s' Hs Hd Hn Hv H; simpl in H.
  - apply ret_ok in H as [_ ->]. split; [exact Hs|split; [reflexivity|]].
    exists v. split; [rewrite insert_id by exact Hv; reflexivity|].
    intros x. split; [intros Hx; split; [exact Hx|intros (q & [] & _)]|tauto].
  - inv_bind H nr s0 Hnr. inv_bind H nv s1 Hnv.
    destruct (pos_get_read _ _ _ _ _ _ _ Hs Hd Hnr Hnv) as (-> & -> & ->).
    inv_bind H u1 s2 Hu.
    assert (Hmid : inverted_index s2 = idx0 /\ next_obj s2 = next_obj s /\
                   exists v1, heap s2 = <[n := v1]> (heap s) /\
                     ∀ x, x ∈ v1 <-> x ∈ v /\ ~ ((q + 1 ∉ word_positions idx0 next_w d) /\ x = q - i)).
    { destruct (decide (q + 1 ∉ word_positions idx0 next_w d)) as [Hq|Hq].
      - inv_bind Hu pr s3 Hpr. apply py_dict_get_ok in Hpr as [Hpr ->]. rewrite Hn in Hpr. injection Hpr as <-.
        inv_bind Hu pv s3 Hpv. apply set_read_ok in Hpv as [Hpv ->]. simpl in Hpv. rewrite Hv in Hpv. injection Hpv as <-.
        destruct (decide (q - i ∈ v)) as [Hin|Hin].
        + inv_bind Hu pr' s3 Hpr'. apply py_dict_get_ok in Hpr' as [Hpr' ->]. rewrite Hn in Hpr'. injection Hpr' as <-.
          unfold set_remove, set_modify in Hu. simpl in Hu. rewrite Hv in Hu. rewrite decide_True in Hu by exact Hin.
          injection Hu as _ <-. simpl. split; [exact Hs|split; [reflexivity|]].
          exists (v ∖ {[q - i]}). split; [reflexivity|]. intros x. set_solver.
        + apply ret_ok in Hu as [_ ->]. split; [exact Hs|split; [reflexivity|]].
          exists v. split; [rewrite insert_id by exact Hv; reflexivity|].
          intros x. split; [intros Hx; split; [exact Hx|intros [_ ->]; contradiction]|tauto].
      - apply ret_ok in Hu as [_ ->]. split; [exact Hs|split; [reflexivity|]].
        exists v. split; [rewrite insert_id by exact Hv; reflexivity|].
        intros x. split; [intros Hx; split; [exact Hx|intros [Hq' _]; contradiction]|tauto]. }
    destruct Hmid as (Hs2 & Ho2 & v1 & Hh2 & Hv1).
    assert (Hv2 : heap s2 !! n = Some v1) by (rewrite Hh2; apply lookup_insert_eq).
    destruct (IH s2 v1 u s' Hs2 Hd Hn Hv2 H) as (Hs' & Ho' & v' & Hh' & Hv').
    split; [exact Hs'|split; [congruence|]].
    exists v'. split; [rewrite Hh', Hh2, insert_insert_eq; reflexivity|].
    intros x. rewrite Hv', Hv1. split.
    + intros [[Hx Hn1] Hn2]. split; [exact Hx|]. intros (q' & [<-|Hq'] & Hq1 & Hq2); [tauto|].
      apply Hn2. eauto.
    + intros [Hx Hn1]. split; [split; [exact Hx|]|].
      * intros [Hq1 Hq2]. apply Hn1. exists q. split; [left; reflexivity|auto].
      * intros (q' & Hq' & Hq1 & Hq2). apply Hn1. exists q'. split; [right; exact Hq'|auto].
Qed.

Lemma remove_starts_trim i cur_w next_w ppd d n s v u s' :
  inverted_index s = idx0 -> d ∈ docs_of idx0 next_w ->
  ppd !! d = Some (RHeap n) -> heap s !! n = Some v ->
  remove_starts i next_w ppd d (elements (word_positions idx0 cur_w d)) s = Ok (u, s') ->
  inverted_index s' = idx0 /\ next_obj s' = next_obj s /\
  heap s' = <[n := trim i (word_positions idx0 cur_w d) (word_positions idx0 next_w d) v]> (heap s).
Proof.
  intros Hs Hd Hn Hv H.
  eapply remove_starts_spec in H as (Hs' & Ho' & v' & Hh' & Hv'); [|exact Hs|exact Hd|exact Hn|exact Hv].
  split; [exact Hs'|split; [exact Ho'|]]. rewrite Hh'. f_equal.
  apply set_eq. intros x. rewrite Hv'. unfold trim. rewrite elem_of_filter. split.
  - intros [Hx Hn1]. split; [|exact Hx].
    destruct (decide (x + i + 1 ∈ word_positions idx0 next_w d)) as [Hin|Hin]; [right; exact Hin|].
    left. intros Hc. apply Hn1. exists (x + i). split; [apply list_elem_of_In, elem_of_elements; exact Hc|].
    split; [replace (x + i + 1) with (x + i + 1) by lia; exact Hin|lia].
  - intros [Hc Hx]. split; [exact Hx|]. intros (q & Hq & Hq1 & ->).
    apply list_elem_of_In, elem_of_elements in Hq.
    replace (q - i + i) with q in Hc by lia. replace (q - i + i + 1) with (q + 1) in Hc by lia. tauto.
Qed.

Lemma size_zero_empty (X : gset Z) : size X = 0%nat <-> X = ∅.
Proof.
  split; [intros H; apply leibniz_equiv, size_empty_iff, H|intros ->; apply size_empty].
Qed.

Lemma doc_loop_spec i cur_w next_w ppd docs : ∀ cnt tr s r s',
  inverted_index s = idx0 -> NoDup docs ->
  (∀ d, In d docs -> d ∈ docs_of idx0 cur_w /\ d ∈ docs_of idx0 next_w /\
                     exists n v, ppd !! d = Some (RHeap n) /\ heap s !! n = Some v) ->
  (∀ d1 d2 n, ppd !! d1 = Some (RHeap n) -> ppd !! d2 = Some (RHeap n) -> d1 = d2) ->
  doc_loop i cur_w next_w ppd docs cnt tr s = Ok (r, s') ->
  inverted_index s' = idx0 /\ next_obj s' = next_obj s /\
  (∀ m, (∀ d, In d docs -> ppd !! d ≠ Some (RHeap m)) -> heap s' !! m = heap s !! m) /\
  (∀ tr', r = Some tr' ->
     (∀ d n v, In d docs -> ppd !! d = Some (RHeap n) -> heap s !! n = Some v ->
        heap s' !! n = Some (trim i (word_positions idx0 cur_w d) (word_positions idx0 next_w d) v)) /\
     ∀ d, d ∈ tr' <-> d ∈ tr \/
       (In d docs /\ exists n v, ppd !! d = Some (RHeap n) /\ heap s !! n = Some v /\
          trim i (word_positions idx0 cur_w d) (word_positions idx0 next_w d) v = ∅)) /\
  (r = None -> Z.of_nat (size ppd) <= cnt + Z.of_nat (length docs) /\
     (cnt + Z.of_nat (length docs) <= Z.of_nat (size ppd) ->
      ∀ d n v, In d docs -> ppd !! d = Some (RHeap n) -> heap s !! n = Some v ->
        trim i (word_positions idx0 cur_w d) (word_positions idx0 next_w d) v = ∅)).
Proof.
  induction docs as [|d ds IH]; intros cnt tr s r s' Hs Hnd Hd Hinj H; simpl in H.
  - apply ret_ok in H as [-> ->]. split; [exact Hs|split; [reflexivity|split; [auto|split]]].
    + intros tr' [= <-]. split; [intros _ _ _ []|]. intros d. split; [auto|intros [Hx|[[] _]]; exact Hx].
    + discriminate.
  - apply NoDup_cons in Hnd as [Hdn Hnd].
    destruct (Hd d (or_introl eq_refl)) as (Hdc & Hdnx & n & v & Hn & Hv).
    inv_bind H cr s0 Hcr. inv_bind H cv s1 Hcv.
    destruct (pos_get_read _ _ _ _ _ _ _ Hs Hdc Hcr Hcv) as (-> & -> & ->).
    inv_bind H u s1 Hu. apply (remove_starts_trim _ cur_w) with (n := n) (v := v) in Hu as (Hs1 & Ho1 & Hh1);
      [|exact Hs|exact Hdnx|exact Hn|exact Hv].
    set (t := trim i (word_positions idx0 cur_w d) (word_positions idx0 next_w d) v) in *.
    inv_bind H pr s2 Hpr. apply py_dict_get_ok in Hpr as [Hpr ->]. rewrite Hn in Hpr. injection Hpr as <-.
    inv_bind H pv s2 Hpv. apply set_read_ok in Hpv as [Hpv ->]. simpl in Hpv.
    rewrite Hh1, lookup_insert_eq in Hpv. injection Hpv as <-.
    assert (Hother : ∀ e n' v', In e ds -> ppd !! e = Some (RHeap n') -> heap s !! n' = Some v' ->
                     heap s1 !! n' = Some v').
    { intros e n' v' He Hn' Hv'. rewrite Hh1. rewrite lookup_insert_ne; [exact Hv'|].
      intros <-. apply Hdn. rewrite (Hinj _ _ _ Hn Hn'). apply list_elem_of_In. exact He. }
    assert (Hd1 : ∀ e, In e ds -> e ∈ docs_of idx0 cur_w /\ e ∈ docs_of idx0 next_w /\
                       exists n v, ppd !! e = Some (RHeap n) /\ heap s1 !! n = Some v).
    { intros e He. destruct (Hd e (or_intror He)) as (H1 & H2 & n' & v' & Hn' & Hv').
      split; [exact H1|split; [exact H2|]]. exists n', v'. split; [exact Hn'|]. eapply Hother; eassumption. }
    case_decide as Hfull.
    + apply ret_ok in H as [-> ->]. split; [exact Hs1|split; [exact Ho1|split; [|split]]].
      * intros m Hm. rewrite Hh1. apply lookup_insert_ne. intros <-. apply (Hm d (or_introl eq_refl)). exact Hn.
      * discriminate.
      * intros _. split; [simpl; case_decide; lia|].
        intros Hle e n' v' He Hn' Hv'. simpl in Hle. simpl in He.
        assert (Ht : size t = 0%nat /\ ds = []).
        { case_decide; [|lia]. split; [assumption|]. destruct ds; [reflexivity|simpl in Hle; lia]. }
        destruct Ht as [Ht ->]. destruct He as [<-|[]].
        rewrite Hn in Hn'. injection Hn' as <-. rewrite Hv in Hv'. injection Hv' as <-.
        apply size_zero_empty. exact Ht.
    + apply IH in H as (Hs' & Ho' & Hfr & Hsome & Hnone); [|exact Hs1|exact Hnd|exact Hd1|exact Hinj].
      assert (Hdfin : heap s' !! n = Some t).
      { rewrite Hfr; [rewrite Hh1; apply lookup_insert_eq|].
        intros e He Hne. apply Hdn. rewrite (Hinj _ _ _ Hn Hne). apply list_elem_of_In. exact He. }
      split; [exact Hs'|split; [congruence|split; [|split]]].
      * intros m Hm. rewrite Hfr by (intros e He; apply Hm; right; exact He).
        rewrite Hh1. apply lookup_insert_ne. intros <-. apply (Hm d (or_introl eq_refl)). exact Hn.
      * intros tr' Htr'. destruct (Hsome tr' Htr') as [Hvals Hmem]. split.
        -- intros e n' v' [<-|He] Hn' Hv'.
           ++ rewrite Hn in Hn'. injection Hn' as <-. rewrite Hv in Hv'. injection Hv' as <-. exact Hdfin.
           ++ apply (Hvals e n' v' He Hn'). eapply Hother; eassumption.
        -- intros e. rewrite Hmem. split.
           ++ intros [He|(He & n' & v' & Hn' & Hv' & Ht')].
              ** case_decide as Hz.
                 --- apply elem_of_union in He as [He|He]; [|auto].
                     apply elem_of_singleton in He as ->. right. split; [left; reflexivity|].
                     exists n, v. split; [exact Hn|split; [exact Hv|]]. apply size_zero_empty. exact Hz.
                 --- left. exact He.
              ** right. split; [right; exact He|]. exists n', v'. split; [exact Hn'|split; [|exact Ht']].
                 destruct (Hd e (or_intror He)) as (_ & _ & n'' & v'' & Hn'' & Hv'').
                 rewrite Hn' in Hn''. injection Hn'' as <-.
                 pose proof (Hother e n' v'' He Hn' Hv'') as Hv3. rewrite Hv' in Hv3. injection Hv3 as <-. exact Hv''.
           ++ intros [He|([<-|He] & n' & v' & Hn' & Hv' & Ht')].
              ** left. case_decide; [apply elem_of_union; right; exact He|exact He].
              ** rewrite Hn in Hn'. injection Hn' as <-. rewrite Hv in Hv'. injection Hv' as <-.
                 left. rewrite decide_True by (apply size_zero_empty; exact Ht'). set_solver.
              ** right. split; [exact He|]. exists n', v'. split; [exact Hn'|split; [|exact Ht']].
                 eapply Hother; eassumption.
      * intros Hr. destruct (Hnone Hr) as [Hge Hall]. simpl. split; [case_decide; lia|].
        intros Hle e n' v' He Hn' Hv'.
        assert (Hle' : (if decide (size t = 0%nat) then cnt + 1 else cnt) + Z.of_nat (length ds) <=
                       Z.of_nat (size ppd)) by (case_decide; lia).
        destruct He as [<-|He].
        -- rewrite Hn in Hn'. injection Hn' as <-. rewrite Hv in Hv'. injection Hv' as <-.
           case_decide as Hz; [apply size_zero_empty; exact Hz|lia].
        -- apply (Hall Hle' e n' v' He Hn'). eapply Hother; eassumption.
Qed.

Lemma alloc_next v s r s' : alloc v s = Ok (r, s') -> next_obj s' = S (next_obj s).
Proof. unfold alloc. intros H. injection H as _ <-. reflexivity. Qed.

Lemma set_remove_heap_exact n x s u s' :
  set_remove (RHeap n) x s = Ok (u, s') ->
  inverted_index s' = inverted_index s /\ next_obj s' = next_obj s /\
  exists v, heap s !! n = Some v /\ heap s' = <[n := v ∖ {[x]}]> (heap s).
Proof.
  unfold set_remove, set_modify. simpl. destruct (heap s !! n) as [v|] eqn:Hn; [|discriminate].
  case_decide as Hx; [|discriminate]. intros H. injection H as _ <-. simpl.
  split; [reflexivity|split; [reflexivity|]]. exists v. split; [reflexivity|reflexivity].
Qed.

Lemma py_get_some {A} (l : list A) i x : py_get l (Z.of_nat i) = Ok x -> l !! i = Some x.
Proof.
  unfold py_get. rewrite (proj2 (Z.ltb_ge (Z.of_nat i) 0)) by lia.
  rewrite (proj2 (Z.ltb_ge (Z.of_nat i) 0)) by lia. rewrite Nat2Z.id.
  destruct (l !! i); intros H; [injection H as ->; reflexivity|discriminate].
Qed.

Lemma no_docs_no_positions w d : d ∉ docs_of idx0 w -> word_positions idx0 w d = ∅.
Proof.
  intros Hd. apply set_eq. intros x. split; [|intros Hx; apply elem_of_empty in Hx; contradiction].
  intros Hx. apply (positions_docs_of _ _ _ _ idx0_ok) in Hx. contradiction.
Qed.

Lemma restrict_ppd_spec (ppd : gmap Z sref) docs : ∀ (acc : gmap Z sref) s ppd' s',
  fold_M (λ acc document,
            let* r := py_dict_get ppd document in
            ret (<[document := r]> acc)) docs acc s = Ok (ppd', s') ->
  s' = s /\ ∀ d, (In d docs -> ppd' !! d = ppd !! d) /\ (~ In d docs -> ppd' !! d = acc !! d).
Proof.
  induction docs as [|d0 docs IH]; intros acc s ppd' s' H; simpl in H.
  - apply ret_ok in H as [-> ->]. split; [reflexivity|]. intros d. split; [intros []|auto].
  - inv_bind H acc' s1 Hacc'. inv_bind Hacc' r s0 Hr.
    apply py_dict_get_ok in Hr as [Hr ->]. apply ret_ok in Hacc' as [-> ->].
    apply IH in H as [-> Hall]. split; [reflexivity|]. intros d. destruct (Hall d) as [Hin Hout]. split.
    + intros [<-|Hd]; [|apply Hin; exact Hd].
      destruct (in_dec (λ a b : Z, decide (a = b)) d0 docs) as [Hd|Hd]; [apply Hin; exact Hd|].
      rewrite Hout by exact Hd. rewrite lookup_insert_eq. symmetry. exact Hr.
    + intros Hd. rewrite Hout by (intros Hd'; apply Hd; right; exact Hd').
      apply lookup_insert_ne. intros ->. apply Hd. left. reflexivity.
Qed.

Lemma remove_docs_spec m docs : ∀ (ppd : gmap Z sref) s ppd' s',
  NoDup docs ->
  remove_docs (RHeap m) ppd docs s = Ok (ppd', s') ->
  inverted_index s' = inverted_index s /\ next_obj s' = next_obj s /\
  (∀ d, ppd' !! d = if in_dec (λ a b : Z, decide (a = b)) d docs then None else ppd !! d) /\
  (∀ k, k <> m -> heap s' !! k = heap s !! k) /\
  (∀ v, heap s !! m = Some v -> heap s' !! m = Some (v ∖ list_to_set docs)).
Proof.
  unfold remove_docs. induction docs as [|d0 docs IH]; intros ppd s ppd' s' Hnd H; simpl in H.
  - apply ret_ok in H as [-> ->]. split; [reflexivity|split; [reflexivity|split; [|split]]].
    + intros d. reflexivity.
    + intros k _. reflexivity.
    + intros v Hv. rewrite Hv. f_equal. set_solver.
  - apply NoDup_cons in Hnd as [Hd0 Hnd].
    inv_bind H acc s1 Hacc. inv_bind Hacc u s0 Hu.
    apply set_remove_heap_exact in Hu as (Hi0 & Ho0 & v0 & Hv0 & Hh0).
    destruct (ppd !! d0) eqn:Hpd; [|apply throw_ok in Hacc; contradiction].
    apply ret_ok in Hacc as [-> ->].
    apply IH in H as (Hi' & Ho' & Hp' & Hk' & Hm'); [|exact Hnd].
    split; [congruence|split; [congruence|split; [|split]]].
    + intros d. rewrite Hp'. destruct (in_dec _ d docs) as [Hd|Hd].
      * destruct (in_dec _ d (d0 :: docs)) as [_|Hd']; [reflexivity|exfalso; apply Hd'; right; exact Hd].
      * destruct (in_dec _ d (d0 :: docs)) as [[<-|Hd'']|Hd'].
        -- apply lookup_delete_eq.
        -- contradiction.
        -- apply lookup_delete_ne. intros ->. apply Hd'. left. reflexivity.
    + intros k Hk. rewrite Hk' by exact Hk. rewrite Hh0. apply lookup_insert_ne. congruence.
    + intros v Hv. rewrite Hv in Hv0. injection Hv0 as <-.
      rewrite (Hm' (v ∖ {[d0]})) by (rewrite Hh0; apply lookup_insert_eq). f_equal. set_solver.
Qed.

Lemma init_ppd_spec w0 docs : ∀ (acc : gmap Z sref) s ppd s',
  inverted_index s = idx0 -> (∀ d, In d docs -> d ∈ docs_of idx0 w0) ->
  fold_M (λ acc document,
            let* r := pos_get w0 document in
            let* v := set_read r in
            let* c := alloc v in
            ret (<[document := c]> acc)) docs acc s = Ok (ppd, s') ->
  inverted_index s' = idx0 /\ (next_obj s <= next_obj s')%nat /\
  (∀ k, (k < next_obj s)%nat -> heap s' !! k = heap s !! k) /\
  (∀ d, In d docs -> exists n, ppd !! d = Some (RHeap n) /\ (next_obj s <= n < next_obj s')%nat /\
                              heap s' !! n = Some (word_positions idx0 w0 d)) /\
  (∀ d, ~ In d docs -> ppd !! d = acc !! d) /\
  (∀ d1 d2 n, In d1 docs -> In d2 docs -> ppd !! d1 = Some (RHeap n) -> ppd !! d2 = Some (RHeap n) ->
              d1 = d2).
Proof.
  induction docs as [|d0 docs IH]; intros acc s ppd s' Hs Hd H; simpl in H.
  - apply ret_ok in H as [-> ->]. split; [exact Hs|split; [lia|split; [auto|split; [intros d []|split]]]].
    + auto.
    + intros d1 d2 n [].
  - inv_bind H acc' s1 Hacc'. inv_bind Hacc' r s0 Hr. inv_bind Hacc' v s0' Hv.
    destruct (pos_get_read _ _ _ _ _ _ _ Hs (Hd d0 (or_introl eq_refl)) Hr Hv) as (-> & -> & ->).
    inv_bind Hacc' c s2 Hc. pose proof (alloc_next _ _ _ _ Hc) as Ho2.
    apply alloc_ok in Hc as (-> & Hi2 & Hh2). apply ret_ok in Hacc' as [-> ->].
    apply IH in H as (Hs' & Hle & Hfr & Hin & Hout & Hinj);
      [|congruence|intros d Hd'; apply Hd; right; exact Hd'].
    rewrite Ho2 in Hle, Hfr, Hin.
    assert (HN : heap s' !! next_obj s = Some (word_positions idx0 w0 d0)).
    { rewrite Hfr by lia. rewrite Hh2. apply lookup_insert_eq. }
    split; [exact Hs'|split; [lia|split; [|split; [|split]]]].
    + intros k Hk. rewrite Hfr by lia. rewrite Hh2. apply lookup_insert_ne. lia.
    + intros d Hd'. destruct (in_dec (λ a b : Z, decide (a = b)) d docs) as [Hdd|Hdd].
      * destruct (Hin d Hdd) as (n & Hn & Hb & Hv'). exists n. split; [exact Hn|split; [lia|exact Hv']].
      * destruct Hd' as [<-|Hd']; [|contradiction].
        exists (next_obj s). rewrite Hout by exact Hdd. rewrite lookup_insert_eq.
        split; [reflexivity|split; [lia|exact HN]].
    + intros d Hd'. rewrite Hout by (intros Hd''; apply Hd'; right; exact Hd'').
      apply lookup_insert_ne. intros ->. apply Hd'. left. reflexivity.
    + intros d1 d2 n Hd1 Hd2 Hn1 Hn2.
      destruct (in_dec (λ a b : Z, decide (a = b)) d1 docs) as [Hdd1|Hdd1];
      destruct (in_dec (λ a b : Z, decide (a = b)) d2 docs) as [Hdd2|Hdd2].
      * exact (Hinj d1 d2 n Hdd1 Hdd2 Hn1 Hn2).
      * destruct Hd2 as [<-|]; [|contradiction]. rewrite Hout, lookup_insert_eq in Hn2 by exact Hdd2.
        injection Hn2 as <-. destruct (Hin d1 Hdd1) as (n' & Hn' & Hb & _). rewrite Hn1 in Hn'.
        injection Hn' as <-. lia.
      * destruct Hd1 as [<-|]; [|contradiction]. rewrite Hout, lookup_insert_eq in Hn1 by exact Hdd1.
        injection Hn1 as <-. destruct (Hin d2 Hdd2) as (n' & Hn' & Hb & _). rewrite Hn2 in Hn'.
        injection Hn' as <-. lia.
      * destruct Hd1 as [<-|]; [|contradiction]. destruct Hd2 as [<-|]; [reflexivity|contradiction].
Qed.

Lemma match_upto_le ws d p m m' :
  (m' <= m)%nat -> match_upto idx0 ws d p m -> match_upto idx0 ws d p m'.
Proof. intros Hle H j w Hj Hw. apply (H j w); [lia|exact Hw]. Qed.

Lemma match_upto_full ws d p : match_upto idx0 ws d p (length ws) <-> phrase_at idx0 ws d p.
Proof.
  split.
  - intros H j w Hw. apply (H j w); [apply lookup_lt_Some in Hw; exact Hw|exact Hw].
  - intros H j w _ Hw. apply (H j w Hw).
Qed.

Lemma trim_step ws a cw nw d v :
  ws !! a = Some cw -> ws !! S a = Some nw ->
  (∀ p, p ∈ v <-> match_upto idx0 ws d p (S a)) ->
  ∀ p, p ∈ trim (Z.of_nat a) (word_positions idx0 cw d) (word_positions idx0 nw d) v <->
       match_upto idx0 ws d p (S (S a)).
Proof.
  intros Hc Hn Hv p. unfold trim. rewrite elem_of_filter, Hv. split.
  - intros [[Hx|Hx] Hm].
    + exfalso. apply Hx. apply (Hm a cw); [lia|exact Hc].
    + intros j w Hj Hw. destruct (decide (j = S a)) as [->|Hne].
      * rewrite Hn in Hw. injection Hw as <-. replace (p + Z.of_nat (S a)) with (p + Z.of_nat a + 1) by lia.
        exact Hx.
      * apply (Hm j w); [lia|exact Hw].
  - intros Hm. split; [right|apply (match_upto_le _ _ _ (S (S a))); [lia|exact Hm]].
    replace (p + Z.of_nat a + 1) with (p + Z.of_nat (S a)) by lia. apply (Hm (S a) nw); [lia|exact Hn].
Qed.

Lemma word_loop_spec ws n : ∀ a dset ppd s r s',
  (a + n + 1 = length ws)%nat ->
  (∀ w, In w ws -> exists p, idx0 !! w = Some (Posting p)) ->
  inverted_index s = idx0 -> sref_get s dset = Some (dom ppd) ->
  ppd_inv idx0 ws (S a) s ppd ->
  word_loop (seq a n) ws dset ppd s = Ok (r, s') ->
  inverted_index s' = idx0 /\
  match r with
  | None => ∀ d p, ~ match_upto idx0 ws d p (length ws)
  | Some ppd' => ppd_inv idx0 ws (length ws) s' ppd'
  end.
Proof.
  induction n as [|n IH]; intros a dset ppd s r s' Hlen Hpres Hs Hdset Hinv H; simpl in H.
  - apply ret_ok in H as [-> ->]. split; [exact Hs|]. replace (length ws) with (S a) by lia. exact Hinv.
  - destruct Hinv as (Hval & Hinj & Hcomp).
    inv_bind H next_w s0 Hn. apply lift_ok in Hn as [Hn ->].
    replace (Z.of_nat a + 1) with (Z.of_nat (S a)) in Hn by lia. apply py_get_some in Hn.
    inv_bind H cur_w s0 Hc. apply lift_ok in Hc as [Hc ->]. apply py_get_some in Hc.
    inv_bind H dv s0 Hdv. apply set_read_ok in Hdv as [Hdv ->]. rewrite Hdset in Hdv. injection Hdv as <-.
    inv_bind H nv s0 Hnv. apply set_read_ok in Hnv as [Hnv ->].
    destruct (Hpres next_w (proj1 (list_elem_of_In _ _) (list_elem_of_lookup_2 _ _ _ Hn))) as [pn Hpn].
    assert (Hnv' : nv = docs_of idx0 next_w).
    { unfold docs_of. rewrite Hpn. simpl in Hnv. rewrite Hs, Hpn in Hnv. congruence. }
    subst nv.
    inv_bind H ds' s3 Hal. pose proof (alloc_next _ _ _ _ Hal) as Ho3.
    apply alloc_ok in Hal as (-> & Hi3 & Hh3).
    inv_bind H dv' s0 Hdv'. apply set_read_ok in Hdv' as [Hdv' ->].
    simpl in Hdv'. rewrite Hh3, lookup_insert_eq in Hdv'. injection Hdv' as <-.
    set (D' := dom ppd ∩ docs_of idx0 next_w) in *.
    inv_bind H ppd' s0 Hr. unfold restrict_ppd in Hr.
    apply restrict_ppd_spec in Hr as [-> Hr].
    assert (Hpp' : ∀ d, ppd' !! d = if decide (d ∈ D') then ppd !! d else None).
    { intros d. destruct (Hr d) as [Hin Hout]. case_decide as Hd.
      - apply Hin. apply list_elem_of_In, elem_of_elements. exact Hd.
      - rewrite Hout; [apply lookup_empty|]. intros Hd'. apply Hd.
        apply list_elem_of_In, elem_of_elements in Hd'. exact Hd'. }
    assert (Hsome' : ∀ d r, ppd' !! d = Some r -> d ∈ D' /\ ppd !! d = Some r).
    { intros d r0 Hd. rewrite Hpp' in Hd. case_decide; [auto|discriminate]. }
    assert (Hh3s : ∀ k, (k < (next_obj s))%nat -> heap s3 !! k = heap s !! k).
    { intros k Hk. rewrite Hh3. apply lookup_insert_ne. lia. }
    assert (HD'cur : ∀ d, d ∈ D' -> d ∈ docs_of idx0 cur_w).
    { intros d Hd. apply elem_of_intersection in Hd as [Hd _]. apply elem_of_dom in Hd as [r0 Hr0].
      destruct (Hval d r0 Hr0) as (n0 & v0 & _ & _ & _ & Hne & Hch).
      apply set_choose_L in Hne as [p Hp]. apply Hch in Hp.
      apply (positions_docs_of _ _ _ (p + Z.of_nat a) idx0_ok). apply (Hp a cur_w); [lia|exact Hc]. }
    inv_bind H res s6 Hdl.
    apply doc_loop_spec in Hdl as (Hs6 & Ho6 & Hfr6 & Hsm & Hnone).
    2:{ rewrite Hi3. exact Hs. }
    2:{ apply NoDup_elements. }
    2:{ intros d Hd. apply list_elem_of_In, elem_of_elements in Hd.
        split; [apply HD'cur; exact Hd|split; [apply elem_of_intersection in Hd; apply Hd|]].
        apply elem_of_intersection in Hd as [Hd1 Hd2]. apply elem_of_dom in Hd1 as [r0 Hr0].
        destruct (Hval d r0 Hr0) as (n0 & v0 & -> & Hlt & Hv0 & _).
        exists n0, v0. rewrite Hpp', decide_True by (apply elem_of_intersection; split; [apply elem_of_dom; eauto|exact Hd2]).
        split; [exact Hr0|]. rewrite Hh3s by exact Hlt. exact Hv0. }
    2:{ intros d1 d2 n0 H1 H2. apply Hsome' in H1 as [_ H1]. apply Hsome' in H2 as [_ H2].
        exact (Hinj d1 d2 n0 H1 H2). }
    (* a match of the first [S (S a)] words lies in a document of [D'], at a
       position kept by the round *)
    assert (Hmatch : ∀ d p, match_upto idx0 ws d p (S (S a)) ->
              d ∈ D' /\ exists n0 v0, ppd' !! d = Some (RHeap n0) /\ heap s3 !! n0 = Some v0 /\
                p ∈ trim (Z.of_nat a) (word_positions idx0 cur_w d) (word_positions idx0 next_w d) v0).
    { intros d p Hm. destruct (Hcomp d p (match_upto_le ws d p (S (S a)) (S a) ltac:(lia) Hm)) as [r0 Hr0].
      destruct (Hval d r0 Hr0) as (n0 & v0 & -> & Hlt & Hv0 & _ & Hch).
      assert (HdD : d ∈ D').
      { apply elem_of_intersection. split; [apply elem_of_dom; eauto|].
        apply (positions_docs_of _ _ _ (p + Z.of_nat (S a)) idx0_ok). apply (Hm (S a) next_w); [lia|exact Hn]. }
      split; [exact HdD|]. exists n0, v0. rewrite Hpp', decide_True by exact HdD.
      split; [exact Hr0|split; [rewrite Hh3s by exact Hlt; exact Hv0|]].
      apply (trim_step ws a cur_w next_w d v0 Hc Hn Hch). exact Hm. }
    destruct res as [tr|].
    + destruct (Hsm tr eq_refl) as [Hvals Hmem].
      inv_bind H ppd'' s7 Hrd. apply remove_docs_spec in Hrd as (Hi7 & Ho7 & Hp7 & Hk7 & Hm7);
        [|apply NoDup_elements].
      assert (Hp7' : ∀ d, ppd'' !! d = if decide (d ∈ tr) then None else ppd' !! d).
      { intros d. rewrite Hp7. destruct (in_dec _ d (elements tr)) as [Hd|Hd]; case_decide as Hd';
          [reflexivity| | |reflexivity].
        - exfalso. apply Hd'. apply list_elem_of_In, elem_of_elements in Hd. exact Hd.
        - exfalso. apply Hd. apply list_elem_of_In, elem_of_elements. exact Hd'. }
      assert (HnotN : ∀ d, ppd' !! d ≠ Some (RHeap (next_obj s))).
      { intros d Hd. apply Hsome' in Hd as [_ Hd]. destruct (Hval d _ Hd) as (n0 & v0 & Heq & Hlt & _).
        injection Heq as <-. lia. }
      assert (Hkeep : ∀ d n0 v0, ppd' !! d = Some (RHeap n0) -> heap s3 !! n0 = Some v0 ->
                trim (Z.of_nat a) (word_positions idx0 cur_w d) (word_positions idx0 next_w d) v0 = ∅ ->
                d ∈ tr).
      { intros d n0 v0 Hd Hv0 Ht. apply Hmem. right. split.
        - apply list_elem_of_In, elem_of_elements. apply Hsome' in Hd. apply Hd.
        - exists n0, v0. auto. }
      apply (IH (S a) (RHeap (next_obj s)) ppd'' s7); [lia|exact Hpres|congruence| | |exact H].
      * simpl. rewrite Hm7 with (v := D').
        2:{ rewrite Hfr6 by (intros d _; apply HnotN). rewrite Hh3. apply lookup_insert_eq. }
        f_equal. apply set_eq. intros d. rewrite list_to_set_elements_L, elem_of_dom, Hp7'.
        rewrite elem_of_difference. case_decide as Hd; [split; [intros [_ Hx]; contradiction|intros [? Hx]; discriminate]|].
        rewrite Hpp'. case_decide as HdD.
        -- split; [intros _|intros _; split; assumption].
           apply elem_of_intersection in HdD as [HdD _]. apply elem_of_dom in HdD. exact HdD.
        -- split; [intros [Hx _]; contradiction|intros [? Hx]; discriminate].
      * split; [|split].
        -- intros d r0 Hd. rewrite Hp7' in Hd. case_decide as Htr; [discriminate|].
           pose proof Hd as Hd'. apply Hsome' in Hd' as [HdD Hd0].
           destruct (Hval d r0 Hd0) as (n0 & v0 & -> & Hlt & Hv0 & _ & Hch).
           rewrite <- Hh3s in Hv0 by exact Hlt.
           exists n0, (trim (Z.of_nat a) (word_positions idx0 cur_w d) (word_positions idx0 next_w d) v0).
           split; [reflexivity|split; [lia|split; [|split]]].
           ++ rewrite Hk7 by lia. apply (Hvals d n0 v0); [|exact Hd|exact Hv0].
              apply list_elem_of_In, elem_of_elements. exact HdD.
           ++ intros Ht. apply Htr. exact (Hkeep d n0 v0 Hd Hv0 Ht).
           ++ apply (trim_step ws a cur_w next_w d v0 Hc Hn Hch).
        -- intros d1 d2 n0 H1 H2. rewrite Hp7' in H1, H2.
           case_decide; [discriminate|]. case_decide; [discriminate|].
           apply Hsome' in H1 as [_ H1]. apply Hsome' in H2 as [_ H2]. exact (Hinj d1 d2 n0 H1 H2).
        -- intros d p Hm. destruct (Hmatch d p Hm) as (HdD & n0 & v0 & Hd & Hv0 & Hp).
           rewrite Hp7'. case_decide as Htr; [|rewrite Hd; eexists; reflexivity].
           exfalso. apply Hmem in Htr as [Htr|(_ & n1 & v1 & Hd1 & Hv1 & Ht)];
             [apply elem_of_empty in Htr; exact Htr|].
           rewrite Hd in Hd1. injection Hd1 as <-. rewrite Hv0 in Hv1. injection Hv1 as <-.
           rewrite Ht in Hp. apply elem_of_empty in Hp. exact Hp.
    + apply ret_ok in H as [-> ->]. split; [exact Hs6|].
      destruct (Hnone eq_refl) as [_ Hall].
      assert (Hsz : 0 + Z.of_nat (length (elements D')) <= Z.of_nat (size ppd')).
      { rewrite <- size_dom. replace (dom ppd') with D'; [change (length (elements D')) with (size D'); lia|].
        apply set_eq. intros d'. rewrite elem_of_dom, Hpp'. case_decide as Hd'.
        - split; [intros _|auto]. apply elem_of_intersection in Hd' as [Hd' _]. apply elem_of_dom in Hd'. exact Hd'.
        - split; [intros Hx; contradiction|intros [? Hx]; discriminate]. }
      intros d p Hm. apply (match_upto_le _ _ _ _ (S (S a))) in Hm; [|lia].
      destruct (Hmatch d p Hm) as (HdD & n0 & v0 & Hd & Hv0 & Hp).
      rewrite (Hall Hsz d n0 v0) in Hp;
        [apply elem_of_empty in Hp; exact Hp|apply list_elem_of_In, elem_of_elements; exact HdD|exact Hd|exact Hv0].
Qed.

End PhraseExact.

Lemma check_words_none ws : ∀ s s',
  check_words ws s = Ok (None, s') ->
  exists w, In w ws /\ ∀ p, inverted_index s !! w = Some (Posting p) -> frequency p = 0.
Proof.
  induction ws as [|w ws IH]; intros s s' H; simpl in H.
  - apply ret_ok in H as [[=] _].
  - inv_bind H b s1 Hb. unfold _word_dict in Hb. inv_bind Hb e s2 He.
    unfold index_get in He. destruct (inverted_index s !! w) as [e0|] eqn:Hw.
    + injection He as <- <-. destruct e0 as [p|n ds]; [|apply throw_ok in Hb; contradiction].
      apply ret_ok in Hb as [Hf ->]. destruct b.
      * inv_bind H rest s3 Hr. destruct rest as [rest|]; [apply ret_ok in H as [[=] _]|].
        destruct (IH s s3 Hr) as (w' & Hw' & Hz). exists w'. split; [right; exact Hw'|exact Hz].
      * exists w. split; [left; reflexivity|]. intros p' Hp'. rewrite Hw in Hp'. injection Hp' as <-.
        destruct (frequency p =? 0) eqn:Hz; [apply Z.eqb_eq; exact Hz|discriminate].
    + exists w. split; [left; reflexivity|]. intros p' Hp'. rewrite Hw in Hp'. discriminate.
Qed.

Lemma zero_frequency_positions idx w d :
  index_ok idx -> (∀ p, idx !! w = Some (Posting p) -> frequency p = 0) ->
  word_positions idx w d = ∅.
Proof.
  intros Hok Hz. unfold word_positions. destruct (idx !! w) as [[p|n ds]|] eqn:Hw; try reflexivity.
  destruct (Hok w p Hw) as [Hf _]. rewrite (Hz p eq_refl) in Hf.
  destruct (position_dict p !! d) as [v|] eqn:Hd; [|reflexivity]. simpl.
  apply positions_total_delete in Hd. apply size_zero_empty. lia.
Qed.

Lemma read_positions_spec (ppd' : gmap Z sref) keys : ∀ s m s',
  map_M (λ match_doc,
           let* pr := py_dict_get ppd' match_doc in
           let* pv := set_read pr in
           ret (match_doc, merge_sort Z.le (elements pv))) keys s = Ok (m, s') ->
  s' = s /\ map fst m = keys /\
  ∀ d ps, In (d, ps) m <-> In d keys /\
    exists r v, ppd' !! d = Some r /\ sref_get s r = Some v /\ ps = merge_sort Z.le (elements v).
Proof.
  induction keys as [|k keys IH]; intros s m s' H; simpl in H.
  - apply ret_ok in H as [-> ->]. split; [reflexivity|split; [reflexivity|]].
    intros d ps. split; [intros []|intros [[] _]].
  - inv_bind H e s1 He. inv_bind He pr s2 Hpr. apply py_dict_get_ok in Hpr as [Hpr ->].
    inv_bind He pv s2 Hpv. apply set_read_ok in Hpv as [Hpv ->]. apply ret_ok in He as [-> ->].
    inv_bind H m' s3 Hm. apply IH in Hm as (-> & Hfst & Hin). apply ret_ok in H as [-> ->].
    split; [reflexivity|split; [simpl; rewrite Hfst; reflexivity|]].
    intros d ps. simpl. rewrite Hin. split.
    + intros [Heq|[Hd Hx]].
      * injection Heq as <- <-. split; [left; reflexivity|]. exists pr, pv. auto.
      * split; [right; exact Hd|exact Hx].
    + intros [[<-|Hd] (r & v & Hr & Hv & ->)].
      * left. rewrite Hpr in Hr. injection Hr as <-. rewrite Hpv in Hv. injection Hv as <-. reflexivity.
      * right. split; [exact Hd|]. exists r, v. auto.
Qed.

Lemma phrase_search_words_spec ws s r s' :
  index_ok (inverted_index s) -> ws <> [] ->
  phrase_search_words ws s = Ok (r, s') ->
  (∀ d p, phrase_at (inverted_index s) ws d p <-> exists ps, In (d, ps) r.2 /\ In p ps) /\
  (r.1 = true <-> r.2 <> []) /\
  strictly_sorted (map fst r.2) /\
  Forall (λ e, e.2 <> [] /\ strictly_sorted e.2) r.2.
Proof.
  intros Hok Hne H.
  assert (Hfalse : (∀ d p, ~ phrase_at (inverted_index s) ws d p) ->
          (∀ d p, phrase_at (inverted_index s) ws d p <-> exists ps, In (d, ps) (false, @nil (Z * list Z)).2 /\ In p ps) /\
          ((false, @nil (Z * list Z)).1 = true <-> (false, @nil (Z * list Z)).2 <> []) /\
          strictly_sorted (map fst (false, @nil (Z * list Z)).2) /\
          Forall (λ e : Z * list Z, e.2 <> [] /\ strictly_sorted e.2) (false, @nil (Z * list Z)).2).
  { intros Hno. split; [|split; [simpl; split; [discriminate|intros Hx; contradiction]|split; constructor]].
    intros d p. split; [intros Hp; exfalso; exact (Hno d p Hp)|intros (ps & [] & _)]. }
  unfold phrase_search_words in H. inv_bind H found s1 Hf. destruct found as [wd|].
  2:{ apply ret_ok in H as [-> ->]. apply Hfalse. intros d p Hp.
      destruct (check_words_none _ _ _ Hf) as (w & Hw & Hz).
      apply list_elem_of_In, list_elem_of_lookup in Hw as [j Hj].
      pose proof (Hp j w Hj) as Hx. rewrite (zero_frequency_positions _ _ _ Hok Hz) in Hx.
      apply elem_of_empty in Hx. exact Hx. }
  apply check_words_some in Hf as (-> & -> & Hall).
  inv_bind H w0 s0 Hw0. apply lift_ok in Hw0 as [Hw0 ->].
  change 0 with (Z.of_nat 0) in Hw0. apply py_get_some in Hw0.
  destruct (Hall w0 (proj1 (list_elem_of_In _ _) (list_elem_of_lookup_2 _ _ _ Hw0))) as (p0 & Hp0 & _).
  inv_bind H dv s0 Hdv. apply set_read_ok in Hdv as [Hdv ->].
  assert (Hdv' : dv = docs_of (inverted_index s) w0).
  { unfold docs_of. rewrite Hp0. simpl in Hdv. rewrite Hp0 in Hdv. congruence. }
  subst dv.
  inv_bind H ppd s2 Hppd. unfold init_ppd in Hppd.
  apply (init_ppd_spec (inverted_index s) Hok) in Hppd as (Hs2 & _ & _ & Hin2 & Hout2 & Hinj2); [|reflexivity|].
  2:{ intros d Hd. apply list_elem_of_In, elem_of_elements in Hd. exact Hd. }
  assert (Hkey : ∀ d r0, ppd !! d = Some r0 -> In d (elements (docs_of (inverted_index s) w0))).
  { intros d r0 Hd. destruct (in_dec (λ a b : Z, decide (a = b)) d (elements (docs_of (inverted_index s) w0))) as [Hx|Hx];
      [exact Hx|]. rewrite Hout2, lookup_empty in Hd by exact Hx. discriminate. }
  assert (Hinv1 : ppd_inv (inverted_index s) ws 1 s2 ppd).
  { split; [|split].
    - intros d r0 Hd. pose proof (Hkey d r0 Hd) as Hx. destruct (Hin2 d Hx) as (n & Hn & Hb & Hv).
      rewrite Hd in Hn. injection Hn as ->. exists n, (word_positions (inverted_index s) w0 d).
      split; [reflexivity|split; [lia|split; [exact Hv|split]]].
      + apply list_elem_of_In, elem_of_elements in Hx.
        destruct (docs_of_positions _ _ _ Hok Hx) as (_ & _ & _ & Hne'). exact Hne'.
      + intros p. split.
        * intros Hp j w Hj Hw. assert (j = 0%nat) as -> by lia. rewrite Hw0 in Hw. injection Hw as <-.
          replace (p + Z.of_nat 0) with p by lia. exact Hp.
        * intros Hm. replace p with (p + Z.of_nat 0) by lia. apply (Hm 0%nat w0); [lia|exact Hw0].
    - intros d1 d2 n H1 H2. exact (Hinj2 d1 d2 n (Hkey _ _ H1) (Hkey _ _ H2) H1 H2).
    - intros d p Hm. assert (Hx : In d (elements (docs_of (inverted_index s) w0))).
      { apply list_elem_of_In, elem_of_elements. apply (positions_docs_of _ _ _ p Hok).
        replace p with (p + Z.of_nat 0) by lia. apply (Hm 0%nat w0); [lia|exact Hw0]. }
      destruct (Hin2 d Hx) as (n & Hn & _). rewrite Hn. eexists; reflexivity. }
  assert (Hdset : sref_get s2 (RDocs w0) = Some (dom ppd)).
  { simpl. rewrite Hs2, Hp0. f_equal. apply set_eq. intros d. rewrite elem_of_dom. split.
    - intros Hd. assert (Hx : In d (elements (docs_of (inverted_index s) w0))).
      { apply list_elem_of_In, elem_of_elements. unfold docs_of. rewrite Hp0. exact Hd. }
      destruct (Hin2 d Hx) as (n & Hn & _). rewrite Hn. eexists; reflexivity.
    - intros [r0 Hr0]. apply Hkey, list_elem_of_In, elem_of_elements in Hr0.
      unfold docs_of in Hr0. rewrite Hp0 in Hr0. exact Hr0. }
  inv_bind H res s3 Hwl.
  apply (word_loop_spec (inverted_index s) Hok) in Hwl as [Hs3 Hres]; [|destruct ws; [contradiction|simpl; lia]| |exact Hs2|exact Hdset|exact Hinv1].
  2:{ intros w Hw. destruct (Hall w Hw) as (p & Hp & _). eauto. }
  destruct res as [ppd'|].
  2:{ apply ret_ok in H as [-> ->]. apply Hfalse. intros d p Hp. apply (Hres d p).
      apply (match_upto_full (inverted_index s)). exact Hp. }
  destruct Hres as (Hval & _ & Hcomp).
  case_decide as Hemp.
  { apply ret_ok in H as [-> ->]. apply Hfalse. intros d p Hp.
    apply (match_upto_full (inverted_index s)) in Hp. destruct (Hcomp d p Hp) as [r0 Hr0].
    rewrite Hemp, lookup_empty in Hr0. discriminate. }
  inv_bind H m s4 Hm. apply read_positions_spec in Hm as (-> & Hfst & Hin).
  apply ret_ok in H as [-> ->]. simpl.
  set (keys := merge_sort Z.le (elements (dom ppd'))) in *.
  assert (Hkeys : ∀ d, In d keys <-> is_Some (ppd' !! d)).
  { intros d. rewrite <- elem_of_dom, <- elem_of_elements, list_elem_of_In. unfold keys.
    split; apply Permutation_in; [|symmetry]; apply merge_sort_Permutation. }
  assert (Hentry : ∀ d ps, In (d, ps) m ->
            exists v : gset Z, v ≠ ∅ /\ (∀ p, p ∈ v <-> match_upto (inverted_index s) ws d p (length ws)) /\
                      ps = merge_sort Z.le (elements v)).
  { intros d ps Hd. apply Hin in Hd as (_ & r0 & v & Hr0 & Hv & ->).
    destruct (Hval d r0 Hr0) as (n & v' & -> & _ & Hv' & Hne' & Hch). simpl in Hv.
    rewrite Hv' in Hv. injection Hv as <-. exists v'. auto. }
  assert (Hin_ps : ∀ (v : gset Z) p, In p (merge_sort Z.le (elements v)) <-> p ∈ v).
  { intros v p. rewrite <- elem_of_elements, list_elem_of_In.
    split; apply Permutation_in; [|symmetry]; apply merge_sort_Permutation. }
  split; [|split; [|split]].
  - intros d p. split.
    + intros Hp. apply (match_upto_full (inverted_index s)) in Hp. pose proof (Hcomp d p Hp) as Hd.
      destruct Hd as [r0 Hr0]. destruct (Hval d r0 Hr0) as (n & v & -> & _ & Hv & _ & Hch).
      exists (merge_sort Z.le (elements v)). split.
      * apply Hin. split; [apply Hkeys; eexists; exact Hr0|]. exists (RHeap n), v. auto.
      * apply Hin_ps, Hch. exact Hp.
    + intros (ps & Hd & Hp). destruct (Hentry d ps Hd) as (v & _ & Hch & ->).
      apply (match_upto_full (inverted_index s)), Hch, Hin_ps. exact Hp.
  - split; [intros _|reflexivity]. apply map_choose in Hemp as (d & r0 & Hr0).
    assert (Hd : In d keys) by (apply Hkeys; eexists; exact Hr0).
    rewrite <- Hfst in Hd. intros ->. destruct Hd.
  - rewrite Hfst. apply strictly_sorted_merge_sort, NoDup_elements.
  - apply Forall_forall. intros [d ps] Hd. apply list_elem_of_In in Hd.
    destruct (Hentry d ps Hd) as (v & Hne' & _ & ->). simpl. split.
    + intros Hnil. apply Hne'. apply set_eq. intros x. split; [|intros Hx; apply elem_of_empty in Hx; contradiction].
      intros Hx. apply Hin_ps in Hx. rewrite Hnil in Hx. destruct Hx.
    + apply strictly_sorted_merge_sort, NoDup_elements.
Qed.

Lemma phrase_search_words_nil s : phrase_search_words [] s = Raise IndexError.
Proof. reflexivity. Qed.

Lemma sat_store_ok : index_ok (inverted_index sat_store).
Proof.
  apply (build_index_ok plain_config sat_docs); [apply (bool_decide_unpack _); vm_compute; exact I|].
  vm_compute. reflexivity.
Qed.

Lemma phrase_search_spec cfg text s r s' :
  index_ok (inverted_index s) ->
  _phrase_search cfg text s = Ok (r, s') ->
  ((∀ d p, phrase_at (inverted_index s) (split (my_preprocessor cfg text)) d p <->
           exists ps, In (d, ps) r.2 /\ In p ps) /\
   (r.1 = true <-> r.2 <> []) /\
   strictly_sorted (map fst r.2) /\
   Forall (λ e, e.2 <> [] /\ strictly_sorted e.2) r.2) /\
  (r.1 = true -> inverted_index s' = inverted_index s).
Proof.
  intros Hok H. unfold _phrase_search in H.
  destruct (split (my_preprocessor cfg text)) as [|w ws] eqn:E.
  - rewrite phrase_search_words_nil in H. discriminate.
  - split; [exact (phrase_search_words_spec (w :: ws) s r s' Hok ltac:(discriminate) H)|].
    intros Hr. pose proof H as H0. unfold phrase_search_words in H0. inv_bind H0 found s1 Hf.
    destruct found as [wd|]; [|apply ret_ok in H0 as [-> _]; discriminate].
    exact (phrase_search_words_some _ _ _ _ _ _ Hok Hf H).
Qed.

(** X6. [_phrase_search]: the result lists, in increasing order of document
    number, each document where the words of the preprocessed text occur
    at consecutive positions, with the increasing list of the positions
    where such an occurrence starts; the flag is [True] exactly when the
    list is not empty. *)
Theorem phrase_search_exact cfg text s r s' :
  index_ok (inverted_index s) ->
  _phrase_search cfg text s = Ok (r, s') ->
  (∀ d p, phrase_at (inverted_index s) (split (my_preprocessor cfg text)) d p <->
          exists ps, In (d, ps) r.2 /\ In p ps) /\
  (r.1 = true <-> r.2 <> []) /\
  strictly_sorted (map fst r.2) /\
  Forall (λ e, e.2 <> [] /\ strictly_sorted e.2) r.2.
Proof. intros Hok H. apply (phrase_search_spec cfg text s r s' Hok H). Qed.

(** X7. [_phrase_search] raises [IndexError] ([word_dicts[0]]) when the
    preprocessed text has no words. *)
Theorem phrase_search_no_words cfg text s :
  split (my_preprocessor cfg text) = [] -> _phrase_search cfg text s = Raise IndexError.
Proof. intros E. unfold _phrase_search. rewrite E. apply phrase_search_words_nil. Qed.

Lemma documents_containing_phrase_spec cfg phrase s D s' :
  index_ok (inverted_index s) ->
  _documents_containing_phrase cfg phrase s = Ok (D, s') ->
  ∀ d, d ∈ D <-> exists p, phrase_at (inverted_index s) (split (my_preprocessor cfg phrase)) d p.
Proof.
  intros Hok H d. unfold _documents_containing_phrase in H. inv_bind H r s1 Hr.
  unfold _phrase_search in Hr. destruct (split (my_preprocessor cfg phrase)) as [|w ws] eqn:E.
  { rewrite phrase_search_words_nil in Hr. discriminate. }
  destruct (phrase_search_words_spec (w :: ws) s r s1 Hok ltac:(discriminate) Hr)
    as (Hex & Hflag & _ & Hall).
  destruct (r.1) eqn:Hr1; apply ret_ok in H as [-> ->].
  - rewrite elem_of_list_to_set, list_elem_of_In, in_map_iff. split.
    + intros ([d' ps] & <- & Hin). rewrite Forall_forall in Hall.
      destruct (Hall (d', ps)) as [Hne _]; [apply list_elem_of_In; exact Hin|]. simpl in Hne.
      destruct ps as [|p ps]; [contradiction|]. exists p. apply Hex. exists (p :: ps). split; [exact Hin|left; reflexivity].
    + intros [p Hp]. apply Hex in Hp as (ps & Hin & _). exists (d, ps). auto.
  - split; [intros Hx; apply elem_of_empty in Hx; contradiction|].
    intros [p Hp]. apply Hex in Hp as (ps & Hin & _).
    assert (Hnil : r.2 = []).
    { destruct (r.2) as [|e l]; [reflexivity|]. exfalso. assert (Ht : e :: l <> []) by discriminate.
      apply Hflag in Ht. discriminate. }
    rewrite Hnil in Hin. destruct Hin.
Qed.

(** X8. [_documents_containing_phrase]: the documents where the words of the
    preprocessed phrase occur at consecutive positions. *)
Theorem documents_containing_phrase_exact cfg phrase s D s' :
  index_ok (inverted_index s) ->
  _documents_containing_phrase cfg phrase s = Ok (D, s') ->
  ∀ d, d ∈ D <-> exists p, phrase_at (inverted_index s) (split (my_preprocessor cfg phrase)) d p.
Proof. apply documents_containing_phrase_spec. Qed.

Lemma phrase_search_exact_witness :
  match _phrase_search plain_config "the cat" sat_store with
  | Ok (r, s') => r = (true, [(0, [0])]) /\
      (phrase_at (inverted_index sat_store) ["the"; "cat"]%string 0 0 <->
       exists ps, In (0, ps) r.2 /\ In 0 ps)
  | Raise _ => False
  end.
Proof.
  destruct (_phrase_search plain_config "the cat" sat_store) as [[r s']|e] eqn:E.
  - split.
    + vm_compute in E. injection E as <- _. reflexivity.
    + apply (phrase_search_exact plain_config "the cat" sat_store r s' sat_store_ok E).
  - vm_compute in E. discriminate.
Defined.

Lemma phrase_search_no_words_witness :
  split (my_preprocessor plain_config "?!") = [] /\
  _phrase_search plain_config "?!" sat_store = Raise IndexError.
Proof.
  assert (E : split (my_preprocessor plain_config "?!") = []) by (vm_compute; reflexivity).
  split; [exact E|exact (phrase_search_no_words plain_config "?!" sat_store E)].
Defined.

Lemma documents_containing_phrase_exact_witness :
  match _documents_containing_phrase plain_config "cat" sat_store with
  | Ok (D, s') => D = {[0; 1]} /\
      (1 ∈ D <-> exists p, phrase_at (inverted_index sat_store) ["cat"]%string 1 p)
  | Raise _ => False
  end.
Proof.
  destruct (_documents_containing_phrase plain_config "cat" sat_store) as [[D s']|e] eqn:E.
  - split.
    + vm_compute in E. injection E as <- _. apply set_eq. intros x. vm_compute. set_solver.
    + apply (documents_containing_phrase_exact plain_config "cat" sat_store D s' sat_store_ok E).
  - vm_compute in E. discriminate.
Defined.

Lemma proximity_min_dist (l0 l1 : list Z) :
  l0 <> [] -> l1 <> [] -> strictly_sorted l0 -> strictly_sorted l1 ->
  exists m ps, proximity l0 l1 = Ok (Fin m, ps) /\
    (exists a b, In a l0 /\ In b l1 /\ Z.abs (a - b) = m) /\
    (∀ a b, In a l0 -> In b l1 -> m <= Z.abs (a - b)).
Proof.
  intros H0 H1 S0 S1.
  destruct (proximity_fold_result l0 l1 H0 H1) as (m & Hrun & Hex & Hadj).
  eexists m, _. split; [exact Hrun|]. split.
  - destruct Hex as ([a b] & Hin & Hd). apply adj_cross_sound in Hin as [Ha Hb].
    exists a, b. unfold dist in Hd. auto.
  - destruct (exists_min_cross l0 l1 H0 H1) as (a0 & b0 & Ha0 & Hb0 & Hmin).
    pose proof (adj_complete_min l0 l1 a0 b0 S0 S1 Ha0 Hb0 Hmin) as Hin.
    specialize (Hadj _ Hin). unfold dist in Hadj; simpl in Hadj.
    intros a b Ha Hb. specialize (Hmin a b Ha Hb). lia.
Qed.

Lemma mapM_result_in {A B} (f : A -> result B) l : ∀ l',
  mapM f l = Ok l' ->
  (∀ y, In y l' -> exists x, In x l /\ f x = Ok y) /\ (∀ x, In x l -> exists y, In y l' /\ f x = Ok y).
Proof.
  induction l as [|x l IH]; intros l' H; simpl in H.
  - injection H as <-. split; [intros y []|intros x []].
  - destruct (f x) as [y|e] eqn:Hf; [|discriminate]. simpl in H.
    destruct (mapM f l) as [k|e] eqn:Hk; [|discriminate]. simpl in H. injection H as <-.
    destruct (IH k eq_refl) as [Hl Hr]. split.
    + intros y' [<-|Hy]; [exists x; split; [left; reflexivity|exact Hf]|].
      destruct (Hl y' Hy) as (x' & Hx' & Hf'). exists x'. split; [right; exact Hx'|exact Hf'].
    + intros x' [<-|Hx]; [exists y; split; [left; reflexivity|exact Hf]|].
      destruct (Hr x' Hx) as (y' & Hy' & Hf'). exists y'. split; [right; exact Hy'|exact Hf'].
Qed.

Lemma assoc_get_in (m : list (Z * list Z)) k v : assoc_get m k = Ok v -> In (k, v) m.
Proof.
  induction m as [|[k' v'] m IH]; simpl; [discriminate|].
  destruct (k =? k') eqn:E; intros H.
  - apply Z.eqb_eq in E as ->. injection H as ->. left. reflexivity.
  - right. apply IH. exact H.
Qed.

Lemma sorted_keys_unique (L : list (Z * list Z)) d ps ps' :
  strictly_sorted (map fst L) -> In (d, ps) L -> In (d, ps') L -> ps = ps'.
Proof.
  induction L as [|[k v] L IH]; intros HS H1 H2; [destruct H1|].
  simpl in HS. apply StronglySorted_inv in HS as [HS HF].
  assert (Hnot : ∀ q, In (k, q) L -> False).
  { intros q Hq. rewrite Forall_forall in HF.
    assert (Hk : k ∈ map fst L) by (apply list_elem_of_In, in_map_iff; exists (k, q); auto).
    specialize (HF k Hk). lia. }
  destruct H1 as [H1|H1]; destruct H2 as [H2|H2].
  - injection H1 as -> ->. injection H2 as ->. reflexivity.
  - injection H1 as -> ->. exfalso. exact (Hnot ps' H2).
  - injection H2 as -> ->. exfalso. exact (Hnot ps H1).
  - exact (IH HS H1 H2).
Qed.

Lemma prox_entry_ok (m1 m2 : list (Z * list Z)) d y :
  (l1 ← assoc_get m1 d; l2 ← assoc_get m2 d; p ← proximity l1 l2; Ok (d, p)) = Ok y ->
  exists l1 l2 p, assoc_get m1 d = Ok l1 /\ assoc_get m2 d = Ok l2 /\ proximity l1 l2 = Ok p /\ y = (d, p).
Proof.
  destruct (assoc_get m1 d) as [l1|] eqn:E1; simpl; [|discriminate].
  destruct (assoc_get m2 d) as [l2|] eqn:E2; simpl; [|discriminate].
  destruct (proximity l1 l2) as [p|] eqn:E3; simpl; [|discriminate].
  intros H. injection H as <-. exists l1, l2, p. auto.
Qed.

(** The position list of a document in a phrase search result, with the
    facts the proximity search needs about it. *)
Lemma phrase_entry (r : phrase_result) idx ws d ps :
  (∀ d p, phrase_at idx ws d p <-> exists ps, In (d, ps) r.2 /\ In p ps) ->
  strictly_sorted (map fst r.2) ->
  Forall (λ e, e.2 <> [] /\ strictly_sorted e.2) r.2 ->
  In (d, ps) r.2 ->
  ps <> [] /\ strictly_sorted ps /\ ∀ p, In p ps <-> phrase_at idx ws d p.
Proof.
  intros Hex HS HF Hin. rewrite Forall_forall in HF.
  destruct (HF (d, ps)) as [Hne Hs]; [apply list_elem_of_In; exact Hin|].
  split; [exact Hne|split; [exact Hs|]]. intros p. rewrite Hex. split.
  - intros Hp. exists ps. auto.
  - intros (ps' & Hin' & Hp). rewrite (sorted_keys_unique _ _ _ _ HS Hin Hin'). exact Hp.
Qed.

(** X9. [_proximity_search]: the documents, in increasing order, where an
    occurrence of the first phrase and one of the second start at most
    [proximity_value] positions apart. *)
Theorem proximity_search_exact cfg t1 t2 k s L s' :
  index_ok (inverted_index s) ->
  _proximity_search cfg (t1, t2) k s = Ok (L, s') ->
  strictly_sorted L /\
  ∀ d, In d L <-> exists a b, phrase_at (inverted_index s) (split (my_preprocessor cfg t1)) d a /\
                              phrase_at (inverted_index s) (split (my_preprocessor cfg t2)) d b /\
                              Z.abs (a - b) <= k.
Proof.
  intros Hok H. unfold _proximity_search in H. cbn [fst snd] in H.
  inv_bind H r1 s1 Hr1.
  destruct (phrase_search_spec _ _ _ _ _ Hok Hr1) as ((Hex1 & Hfl1 & HS1 & HF1) & Hsame1).
  assert (Hnone : L = [] -> strictly_sorted L /\ ∀ d, In d L <-> False).
  { intros ->. split; [constructor|intros d; split; [intros []|intros []]]. }
  destruct (r1.1) eqn:Hflag1; simpl in H.
  2:{ apply ret_ok in H as [-> ->]. split; [constructor|]. intros d. split; [intros []|].
      intros (a & b & Ha & _). apply Hex1 in Ha as (ps & Hin & _).
      assert (Hne : r1.2 <> []) by (intros Hn; rewrite Hn in Hin; destruct Hin).
      apply Hfl1 in Hne. discriminate. }
  pose proof (Hsame1 eq_refl) as Hi1. rewrite <- Hi1 in Hok.
  inv_bind H r2 s2 Hr2.
  destruct (phrase_search_spec _ _ _ _ _ Hok Hr2) as ((Hex2 & Hfl2 & HS2 & HF2) & _).
  rewrite Hi1 in Hex2.
  destruct (r2.1) eqn:Hflag2; simpl in H.
  2:{ apply ret_ok in H as [-> ->]. split; [constructor|]. intros d. split; [intros []|].
      intros (a & b & _ & Hb & _). apply Hex2 in Hb as (ps & Hin & _).
      assert (Hne : r2.2 <> []) by (intros Hn; rewrite Hn in Hin; destruct Hin).
      apply Hfl2 in Hne. discriminate. }
  inv_bind H pl s3 Hpl. apply lift_ok in Hpl as [Hpl ->]. apply ret_ok in H as [-> ->].
  apply mapM_result_in in Hpl as [Hpl_l Hpl_r].
  split; [apply strictly_sorted_merge_sort, NoDup_elements|].
  intros d. rewrite <- list_elem_of_In.
  rewrite (merge_sort_Permutation Z.le), elem_of_elements, elem_of_list_to_set, list_elem_of_In, in_map_iff.
  split.
  - intros ([d' [e ps]] & <- & Hin). apply list_elem_of_In in Hin. apply list_elem_of_filter in Hin as [Hle Hin].
    apply list_elem_of_In in Hin. destruct (Hpl_l _ Hin) as (x & _ & Hx).
    apply prox_entry_ok in Hx as (l1 & l2 & p & E1 & E2 & E3 & Heq). injection Heq as <- <-.
    apply assoc_get_in in E1, E2.
    destruct (phrase_entry _ _ _ _ _ Hex1 HS1 HF1 E1) as (Hne1 & Hs1 & Hc1).
    destruct (phrase_entry _ _ _ _ _ Hex2 HS2 HF2 E2) as (Hne2 & Hs2 & Hc2).
    destruct (proximity_min_dist l1 l2 Hne1 Hne2 Hs1 Hs2) as (m & ps' & Hp & (a & b & Ha & Hb & Hab) & _).
    rewrite Hp in E3. injection E3 as <- <-. simpl in Hle. apply Z.leb_le in Hle.
    exists a, b. split; [apply Hc1; exact Ha|split; [apply Hc2; exact Hb|lia]].
  - intros (a & b & Ha & Hb & Hab).
    destruct (proj1 (Hex1 d a) Ha) as (l1 & E1 & Ha1).
    destruct (proj1 (Hex2 d b) Hb) as (l2 & E2 & Hb2).
    assert (Hd : In d (elements (list_to_set (map fst r1.2) ∩ list_to_set (map fst r2.2) : gset Z))).
    { apply list_elem_of_In, elem_of_elements, elem_of_intersection.
      split; apply elem_of_list_to_set, list_elem_of_In, in_map_iff; [exists (d, l1)|exists (d, l2)]; auto. }
    destruct (Hpl_r d Hd) as (y & Hy & Hf).
    apply prox_entry_ok in Hf as (l1' & l2' & p & E1' & E2' & E3 & ->).
    apply assoc_get_in in E1', E2'.
    rewrite <- (sorted_keys_unique _ _ _ _ HS1 E1 E1') in E3.
    rewrite <- (sorted_keys_unique _ _ _ _ HS2 E2 E2') in E3.
    destruct (phrase_entry _ _ _ _ _ Hex1 HS1 HF1 E1) as (Hne1 & Hs1 & _).
    destruct (phrase_entry _ _ _ _ _ Hex2 HS2 HF2 E2) as (Hne2 & Hs2 & _).
    destruct (proximity_min_dist l1 l2 Hne1 Hne2 Hs1 Hs2) as (m & ps' & Hp & _ & Hmin).
    rewrite Hp in E3. injection E3 as <-.
    exists (d, (Fin m, ps')). split; [reflexivity|].
    apply list_elem_of_In, list_elem_of_filter. split.
    + simpl. apply Z.leb_le. specialize (Hmin a b Ha1 Hb2). lia.
    + apply list_elem_of_In. exact Hy.
Qed.

Lemma proximity_search_exact_witness :
  match _proximity_search plain_config ("the", "sat")%string 2 sat_store with
  | Ok (L, s') => L = [0] /\
      (In 0 L <-> exists a b, phrase_at (inverted_index sat_store) ["the"]%string 0 a /\
                              phrase_at (inverted_index sat_store) ["sat"]%string 0 b /\ Z.abs (a - b) <= 2)
  | Raise _ => False
  end.
Proof.
  destruct (_proximity_search plain_config ("the", "sat")%string 2 sat_store) as [[L s']|e] eqn:E.
  - split.
    + vm_compute in E. injection E as <- _. reflexivity.
    + apply (proj2 (proximity_search_exact plain_config "the" "sat" 2 sat_store L s' sat_store_ok E)).
  - vm_compute in E. discriminate.
Defined.

(* ------------------------------------------------------------------ *)
(** ** Ranked retrieval *)

Lemma docs_of_le s s' w :
  index_le s s' -> docs_of (inverted_index s') w = docs_of (inverted_index s) w.
Proof.
  intros Hle. specialize (Hle w). unfold docs_of.
  destruct (inverted_index s !! w) as [[p|n ds]|], (inverted_index s' !! w) as [[p'|n' ds']|];
    simpl in Hle; try contradiction; try reflexivity.
  - apply Hle.
  - apply Hle.
Qed.

Lemma add_score_fst {score} zero add (acc : list (Z * score)) d x k :
  In k (map fst (add_score zero add acc d x)) <-> In k (map fst acc) \/ k = d.
Proof.
  induction acc as [|[d' v] rest IH]; simpl.
  - split; [intros [->|[]]; auto|]. intros [[]| ->]. auto.
  - destruct (Z.eqb_spec d' d) as [->|Hne]; simpl.
    + split; [tauto|]. intros [Hk| ->]; auto.
    + rewrite IH. tauto.
Qed.

Lemma add_score_nodup {score} zero add (acc : list (Z * score)) d x :
  NoDup (map fst acc) -> NoDup (map fst (add_score zero add acc d x)).
Proof.
  induction acc as [|[d' v] rest IH]; simpl; intros Hnd.
  - constructor; [apply not_elem_of_nil|constructor].
  - apply NoDup_cons in Hnd as [Hni Hnd].
    destruct (Z.eqb_spec d' d) as [->|Hne]; simpl; constructor; auto.
    rewrite list_elem_of_In, add_score_fst. rewrite list_elem_of_In in Hni.
    intros [|]; [contradiction|congruence].
Qed.

Lemma mono_tfidf_term_weighting {score} (zero : score) weight term d :
  mono (_tfidf_term_weighting zero weight term d).
Proof. unfold _tfidf_term_weighting, total_size. mono_tac. Qed.

(** The inner loop of [ranked_ir_tfidf]: one [+=] per document. *)
Lemma add_fold_keys {score} zero add (g : Z -> M score) (Hg : ∀ d, mono (g d)) l :
  ∀ acc s acc' s',
  index_ok (inverted_index s) ->
  fold_M (λ acc' document, let* x := g document in ret (add_score zero add acc' document x))
    l acc s = Ok (acc', s') ->
  index_le s s' /\ (∀ k, In k (map fst acc') <-> In k (map fst acc) \/ In k l) /\
  (NoDup (map fst acc) -> NoDup (map fst acc')).
Proof.
  induction l as [|d l IH]; intros acc s acc' s' Hok H; simpl in H.
  - apply ret_ok in H as [-> ->]. split; [apply index_le_refl|]. split; [|auto].
    intros k. simpl. tauto.
  - inv_bind H acc1 s1 H1. inv_bind H1 x s2 Hx. apply ret_ok in H1 as [-> ->].
    pose proof (Hg d _ _ _ Hok Hx) as Hle1.
    destruct (IH _ _ _ _ (index_ok_le _ _ Hok Hle1) H) as (Hle2 & Hk & Hn).
    split; [eapply index_le_trans; eassumption|]. split.
    + intros k. rewrite Hk, add_score_fst. simpl. intuition congruence.
    + intros Hnd. apply Hn, add_score_nodup, Hnd.
Qed.

(** [_word_dict]: a true flag leaves the state unchanged and comes from a
    stored dictionary; a false one means the word has no documents. *)
Lemma word_dict_docs w s b s' :
  index_ok (inverted_index s) -> _word_dict w s = Ok (b, s') ->
  index_le s s' /\
  (b = true -> s' = s /\ exists p, inverted_index s !! w = Some (Posting p)) /\
  (b = false -> docs_of (inverted_index s) w = ∅).
Proof.
  intros Hok H. split; [eapply word_dict_le; exact H|].
  unfold _word_dict in H. inv_bind H e s1 He. unfold index_get in He.
  unfold docs_of. destruct (inverted_index s !! w) as [e0|] eqn:Hw.
  - injection He as -> ->. destruct e as [p|n ds]; [|apply throw_ok in H; contradiction].
    apply ret_ok in H as [-> ->]. split; [intros _; eauto|].
    intros Hb. apply negb_false_iff, Z.eqb_eq in Hb.
    destruct (Hok w p Hw) as [Hf Hd]. rewrite Hb in Hf.
    apply set_eq. intros d. split; [|intros Hx; apply elem_of_empty in Hx; contradiction].
    intros Hx. apply Hd in Hx as (ps & Hps & Hne).
    apply positions_total_delete in Hps. exfalso. apply Hne, size_zero_empty. lia.
  - injection He as <- <-. apply ret_ok in H as [-> _]. split; [discriminate|reflexivity].
Qed.

(** The outer loop of [ranked_ir_tfidf]: one entry per document holding a
    query word. *)
Lemma ranked_fold_keys {score} (zero : score) add weight terms :
  ∀ acc s acc' s',
  index_ok (inverted_index s) ->
  fold_M (λ acc term,
            let* term_present_in_collection := _word_dict term in
            if term_present_in_collection then
              let* document_set := set_read (RDocs term) in
              fold_M (λ acc' document,
                        let* x := _tfidf_term_weighting zero weight term document in
                        ret (add_score zero add acc' document x)) (elements document_set) acc
            else ret acc) terms acc s = Ok (acc', s') ->
  (∀ k, In k (map fst acc') <->
        In k (map fst acc) \/ exists w, In w terms /\ k ∈ docs_of (inverted_index s) w) /\
  (NoDup (map fst acc) -> NoDup (map fst acc')).
Proof.
  induction terms as [|w terms IH]; intros acc s acc' s' Hok H; simpl in H.
  - apply ret_ok in H as [-> ->]. split; [|auto].
    intros k. split; [auto|intros [Hk|(w & [] & _)]; exact Hk].
  - inv_bind H acc1 s1 Hstep. inv_bind Hstep b s2 Hb.
    destruct (word_dict_docs _ _ _ _ Hok Hb) as (Hle2 & Ht & Hf).
    assert (Hstep' : index_le s s1 /\
              (∀ k, In k (map fst acc1) <-> In k (map fst acc) \/ k ∈ docs_of (inverted_index s) w) /\
              (NoDup (map fst acc) -> NoDup (map fst acc1))).
    { destruct b.
      - destruct (Ht eq_refl) as [-> [p Hw]].
        inv_bind Hstep ds s3 Hds. apply set_read_ok in Hds as [Hds ->].
        simpl in Hds. rewrite Hw in Hds. injection Hds as <-.
        destruct (add_fold_keys zero add (_tfidf_term_weighting zero weight w)
                    (mono_tfidf_term_weighting zero weight w) _ _ _ _ _ Hok Hstep)
          as (Hle & Hk & Hn).
        split; [exact Hle|]. split; [|exact Hn].
        intros k. rewrite Hk. unfold docs_of. rewrite Hw.
        assert (In k (elements (document_set p)) <-> k ∈ document_set p) as ->; [|reflexivity].
        rewrite <- list_elem_of_In. apply elem_of_elements.
      - apply ret_ok in Hstep as [-> ->]. split; [exact Hle2|]. split; [|auto].
        intros k. rewrite (Hf eq_refl). split; [auto|].
        intros [Hk|Hk]; [exact Hk|apply elem_of_empty in Hk; contradiction]. }
    destruct Hstep' as (Hle1 & Hk1 & Hn1).
    destruct (IH _ _ _ _ (index_ok_le _ _ Hok Hle1) H) as (Hk & Hn).
    split; [|auto].
    intros k. rewrite Hk, Hk1. split.
    + intros [[Hk0|Hk0]|(w' & Hw' & Hk0)].
      * auto.
      * right. exists w. simpl. auto.
      * right. exists w'. simpl. rewrite (docs_of_le _ _ _ Hle1) in Hk0. auto.
    + intros [Hk0|(w' & [<-|Hw'] & Hk0)].
      * auto.
      * auto.
      * right. exists w'. rewrite (docs_of_le _ _ _ Hle1). auto.
Qed.

Section SortDesc.
Context {score : Type} (ge : score -> score -> bool).
Hypothesis ge_total : ∀ a b, ge a b = false -> ge b a = true.

Lemma insert_desc_sorted x l : Sorted (ge_snd ge) l -> Sorted (ge_snd ge) (insert_desc ge x l).
Proof.
  induction l as [|y l IH]; intros Hs; simpl.
  - repeat constructor.
  - apply Sorted_inv in Hs as [Hs Hhd].
    destruct (ge y.2 x.2) eqn:Hyx.
    + constructor; [apply IH, Hs|].
      destruct l as [|z l]; simpl.
      * constructor. exact Hyx.
      * apply HdRel_inv in Hhd. destruct (ge z.2 x.2); constructor; assumption.
    + constructor; [constructor; assumption|]. constructor. apply ge_total, Hyx.
Qed.

Lemma sort_desc_sorted l : Sorted (ge_snd ge) (sort_desc ge l).
Proof.
  unfold sort_desc.
  assert (H : ∀ acc, Sorted (ge_snd ge) acc -> Sorted (ge_snd ge) (fold_left (λ acc x, insert_desc ge x acc) l acc)).
  { induction l as [|x l IH]; intros acc Hacc; simpl; [exact Hacc|].
    apply IH, insert_desc_sorted, Hacc. }
  apply H. constructor.
Qed.

End SortDesc.

Lemma Sorted_weaken {A} (R1 R2 : A -> A -> Prop) l :
  (∀ x y, R1 x y -> R2 x y) -> Sorted R1 l -> Sorted R2 l.
Proof.
  intros HR Hs. induction Hs as [|x l Hs IH Hhd]; constructor; [exact IH|].
  destruct Hhd; constructor. apply HR. assumption.
Qed.

Lemma Rge_bool_spec a b : Rge_bool a b = true <-> (a >= b)%R.
Proof. unfold Rge_bool. destruct (Rge_dec a b); split; congruence || tauto. Qed.

(** X10. [ranked_ir_tfidf]: on a consistent index, the result lists each
    document at most once, lists exactly the documents that contain one of
    the query's words, and is ordered by non-increasing score. *)
Lemma ranked_ir_tfidf_results cfg text_query s L s' :
  index_ok (inverted_index s) ->
  ranked_ir_tfidf_R cfg text_query s = Ok (L, s') ->
  NoDup (map fst L) /\
  (∀ d, In d (map fst L) <->
        exists w, In w (split (my_preprocessor cfg text_query)) /\ d ∈ docs_of (inverted_index s) w) /\
  Sorted (λ x y, (x.2 >= y.2)%R) L.
Proof.
  intros Hok H. unfold ranked_ir_tfidf_R, ranked_ir_tfidf in H.
  inv_bind H acc s1 Hfold. apply ret_ok in H as [-> ->].
  destruct (ranked_fold_keys _ _ _ _ _ _ _ _ Hok Hfold) as (Hk & Hn).
  pose proof (sort_desc_perm Rge_bool acc) as Hp.
  split; [|split].
  - rewrite (Permutation_map fst Hp). apply Hn. constructor.
  - intros d. split.
    + intros Hd. eapply Permutation_in in Hd; [|apply (Permutation_map fst Hp)].
      apply Hk in Hd as [[]|Hd]. exact Hd.
    + intros Hd. eapply Permutation_in; [symmetry; apply (Permutation_map fst Hp)|]. apply Hk. auto.
  - eapply Sorted_weaken; [|apply sort_desc_sorted].
    + intros x y Hxy. apply Rge_bool_spec, Hxy.
    + intros a b Hab. apply Rge_bool_spec. unfold Rge_bool in Hab.
      destruct (Rge_dec a b); [discriminate|lra].
Qed.

Lemma le_posting s s' w p :
  index_le s s' -> inverted_index s !! w = Some (Posting p) ->
  exists p', inverted_index s' !! w = Some (Posting p').
Proof.
  intros Hle Hw. specialize (Hle w). rewrite Hw in Hle.
  destruct (inverted_index s' !! w) as [[p'|n' ds']|]; simpl in Hle; try contradiction. eauto.
Qed.

Lemma le_total s s' w n ds :
  index_le s s' -> inverted_index s !! w = Some (TotalEntry n ds) ->
  inverted_index s' !! w = Some (TotalEntry n ds).
Proof.
  intros Hle Hw. specialize (Hle w). rewrite Hw in Hle.
  destruct (inverted_index s' !! w) as [[p'|n' ds']|]; simpl in Hle; try contradiction.
  destruct Hle as [-> ->]. reflexivity.
Qed.

Lemma le_not_total s s' w :
  index_le s s' -> (∀ n ds, inverted_index s !! w ≠ Some (TotalEntry n ds)) ->
  ∀ n ds, inverted_index s' !! w ≠ Some (TotalEntry n ds).
Proof.
  intros Hle Hw n ds Hw'. specialize (Hle w). rewrite Hw' in Hle.
  destruct (inverted_index s !! w) as [[p|n0 ds0]|] eqn:E; simpl in Hle; try contradiction.
  destruct Hle; subst. eapply Hw. reflexivity.
Qed.

Lemma tfidf_term_weighting_ok {score} (zero : score) weight w d s p n ds :
  inverted_index s !! w = Some (Posting p) -> inverted_index s !! total_key = Some (TotalEntry n ds) ->
  exists x s', _tfidf_term_weighting zero weight w d s = Ok (x, s').
Proof.
  intros Hw Ht. unfold _tfidf_term_weighting, total_size.
  cbv [bindM set_read sref_get index_get pos_get ret set_index]. rewrite Hw.
  destruct (decide _); [eauto|]. rewrite Ht. rewrite Hw.
  destruct (position_dict p !! d) as [ps|] eqn:Hd.
  - rewrite Hw, Hd. eauto.
  - simpl. rewrite lookup_insert_eq. simpl. rewrite lookup_insert_eq. eauto.
Qed.

Lemma add_fold_ok {score} (zero : score) add weight w n ds l : ∀ acc s,
  index_ok (inverted_index s) ->
  (exists p, inverted_index s !! w = Some (Posting p)) ->
  inverted_index s !! total_key = Some (TotalEntry n ds) ->
  exists acc' s',
  fold_M (λ acc' document,
            let* x := _tfidf_term_weighting zero weight w document in
            ret (add_score zero add acc' document x)) l acc s = Ok (acc', s').
Proof.
  induction l as [|d l IH]; intros acc s Hok [p Hw] Ht; simpl; [eexists _, _; reflexivity|].
  destruct (tfidf_term_weighting_ok zero weight w d s p n ds Hw Ht) as (x & s1 & Hx).
  pose proof (mono_tfidf_term_weighting zero weight w d _ _ _ Hok Hx) as Hle.
  destruct (IH (add_score zero add acc d x) s1) as (acc' & s' & H);
    [eapply index_ok_le; eassumption|eapply le_posting; eassumption|eapply le_total; eassumption|].
  exists acc', s'. unfold bindM at 1. unfold bindM at 1. rewrite Hx. exact H.
Qed.

Lemma ranked_step_ok {score} (zero : score) add weight n ds w acc s :
  index_ok (inverted_index s) ->
  inverted_index s !! total_key = Some (TotalEntry n ds) ->
  (∀ n' ds', inverted_index s !! w ≠ Some (TotalEntry n' ds')) ->
  exists acc1 s1,
    (let* term_present_in_collection := _word_dict w in
     if term_present_in_collection then
       let* document_set := set_read (RDocs w) in
       fold_M (λ acc' document,
                 let* x := _tfidf_term_weighting zero weight w document in
                 ret (add_score zero add acc' document x)) (elements document_set) acc
     else ret acc) s = Ok (acc1, s1) /\ index_le s s1.
Proof.
  intros Hok Ht Hw0.
  assert (Hstep : exists acc1 s1,
    (let* term_present_in_collection := _word_dict w in
     if term_present_in_collection then
       let* document_set := set_read (RDocs w) in
       fold_M (λ acc' document,
                 let* x := _tfidf_term_weighting zero weight w document in
                 ret (add_score zero add acc' document x)) (elements document_set) acc
     else ret acc) s = Ok (acc1, s1)).
  { assert (Hb : exists b s2, _word_dict w s = Ok (b, s2)).
    { unfold _word_dict, bindM, index_get. destruct (inverted_index s !! w) as [[p|n' ds']|] eqn:Hw.
      - eexists _, _. reflexivity.
      - exfalso. apply (Hw0 n' ds' eq_refl).
      - eexists _, _. reflexivity. }
    destruct Hb as (b & s2 & Hb).
    destruct (word_dict_docs _ _ _ _ Hok Hb) as (_ & Htrue & _).
    unfold bindM at 1. rewrite Hb. destruct b; [|eexists _, _; reflexivity].
    destruct (Htrue eq_refl) as [-> [p Hw]].
    unfold bindM at 1. unfold set_read at 1. simpl. rewrite Hw.
    apply (add_fold_ok zero add weight w n ds); [exact Hok|eauto|exact Ht]. }
  destruct Hstep as (acc1 & s1 & Hstep). exists acc1, s1. split; [exact Hstep|].
  assert (Hm : ∀ m : M (list (Z * score)), mono m -> m s = Ok (acc1, s1) -> index_le s s1)
    by (intros m Hm Hs; exact (Hm _ _ _ Hok Hs)).
  refine (Hm _ _ Hstep).
  apply mono_bind; [apply mono_word_dict|]. intros b. destruct b; [|apply mono_ret].
  apply mono_bind; [apply mono_set_read|]. intros v. apply mono_fold_M.
  intros a d. apply mono_bind; [apply mono_tfidf_term_weighting|intros; apply mono_ret].
Qed.

Lemma le_totals_at_key s s' :
  index_le s s' ->
  (∀ w n ds, inverted_index s !! w = Some (TotalEntry n ds) -> w = total_key) ->
  ∀ w n ds, inverted_index s' !! w = Some (TotalEntry n ds) -> w = total_key.
Proof.
  intros Hle Hk w n ds Hw. specialize (Hle w). rewrite Hw in Hle.
  destruct (inverted_index s !! w) as [[p|n0 ds0]|] eqn:E; simpl in Hle; try contradiction.
  eapply Hk. exact E.
Qed.

Lemma ranked_fold_ok {score} (zero : score) add weight n ds terms : ∀ acc s,
  index_ok (inverted_index s) ->
  inverted_index s !! total_key = Some (TotalEntry n ds) ->
  (∀ w, In w terms -> ∀ n' ds', inverted_index s !! w ≠ Some (TotalEntry n' ds')) ->
  exists acc' s',
  fold_M (λ acc term,
            let* term_present_in_collection := _word_dict term in
            if term_present_in_collection then
              let* document_set := set_read (RDocs term) in
              fold_M (λ acc' document,
                        let* x := _tfidf_term_weighting zero weight term document in
                        ret (add_score zero add acc' document x)) (elements document_set) acc
            else ret acc) terms acc s = Ok (acc', s').
Proof.
  induction terms as [|w terms IH]; intros acc s Hok Ht Hterms; simpl; [eexists _, _; reflexivity|].
  destruct (ranked_step_ok zero add weight n ds w acc s Hok Ht (Hterms w (or_introl eq_refl)))
    as (acc1 & s1 & Hstep & Hle).
  destruct (IH acc1 s1) as (acc' & s' & H).
  - eapply index_ok_le; eassumption.
  - eapply le_total; eassumption.
  - intros w' Hw' n' ds'. apply (le_not_total s); [exact Hle|]. apply Hterms. simpl. auto.
  - exists acc', s'. unfold bindM at 1. rewrite Hstep. exact H.
Qed.

Lemma ranked_fold_raise {score} (zero : score) add weight n ds terms : ∀ acc s,
  index_ok (inverted_index s) ->
  inverted_index s !! total_key = Some (TotalEntry n ds) ->
  (∀ w n' ds', inverted_index s !! w = Some (TotalEntry n' ds') -> w = total_key) ->
  In total_key terms ->
  fold_M (λ acc term,
            let* term_present_in_collection := _word_dict term in
            if term_present_in_collection then
              let* document_set := set_read (RDocs term) in
              fold_M (λ acc' document,
                        let* x := _tfidf_term_weighting zero weight term document in
                        ret (add_score zero add acc' document x)) (elements document_set) acc
            else ret acc) terms acc s = Raise KeyError.
Proof.
  induction terms as [|w terms IH]; intros acc s Hok Ht Hk Hin; [destruct Hin|]. simpl.
  destruct (decide (w = total_key)) as [->|Hne].
  - unfold bindM at 1 2 3. unfold _word_dict, bindM at 1, index_get. rewrite Ht. reflexivity.
  - destruct Hin as [Heq|Hin]; [congruence|].
    destruct (ranked_step_ok zero add weight n ds w acc s Hok Ht) as (acc1 & s1 & Hstep & Hle).
    { intros n' ds' Hw. apply Hne. eapply Hk. exact Hw. }
    unfold bindM at 1. rewrite Hstep. apply IH.
    + eapply index_ok_le; eassumption.
    + eapply le_total; eassumption.
    + eapply le_totals_at_key; eassumption.
    + exact Hin.
Qed.

Lemma ranked_outcome {score} (zero : score) add weight ge cfg text_query s n ds :
  index_ok (inverted_index s) ->
  inverted_index s !! total_key = Some (TotalEntry n ds) ->
  (∀ w n' ds', inverted_index s !! w = Some (TotalEntry n' ds') -> w = total_key) ->
  (In total_key (split (my_preprocessor cfg text_query)) /\
     ranked_ir_tfidf zero add weight ge cfg text_query s = Raise KeyError) \/
  (~ In total_key (split (my_preprocessor cfg text_query)) /\
     exists L s', ranked_ir_tfidf zero add weight ge cfg text_query s = Ok (L, s')).
Proof.
  intros Hok Ht Hkeys. unfold ranked_ir_tfidf.
  destruct (in_dec (λ a b : string, decide (a = b)) total_key (split (my_preprocessor cfg text_query))) as [Hq|Hq].
  - left. split; [exact Hq|]. unfold bindM at 1.
    rewrite (ranked_fold_raise zero add weight n ds _ [] s Hok Ht Hkeys Hq). reflexivity.
  - right. split; [exact Hq|].
    destruct (ranked_fold_ok zero add weight n ds (split (my_preprocessor cfg text_query)) [] s Hok Ht)
      as (acc & s1 & H).
    + intros w Hw n' ds' Hw'. apply Hq. rewrite <- (Hkeys w n' ds' Hw'). exact Hw.
    + unfold bindM at 1. rewrite H. eexists _, _. reflexivity.
Qed.

Lemma sat_store_total : inverted_index sat_store !! total_key = Some (TotalEntry 2 {[0; 1]}).
Proof. vm_compute. reflexivity. Qed.

Lemma sat_store_totals_at_key w n ds :
  inverted_index sat_store !! w = Some (TotalEntry n ds) -> w = total_key.
Proof.
  assert (Hk : map_Forall (λ w e, match e with
                                  | TotalEntry _ _ => bool_decide (w = total_key)
                                  | Posting _ => true
                                  end = true) (inverted_index sat_store))
    by (apply (bool_decide_unpack _); vm_compute; exact I).
  intros Hw. specialize (Hk w _ Hw). simpl in Hk. apply bool_decide_eq_true in Hk. exact Hk.
Qed.

Lemma sat_cat_terms : split (my_preprocessor plain_config "sat cat") = ["sat"; "cat"]%string.
Proof. vm_compute. reflexivity. Qed.

(** X11. [ranked_ir_tfidf] on a consistent index whose only total entry is
    the one at ["_total_document_set"]: it raises [KeyError] exactly when
    a query word is ["_total_document_set"], and returns otherwise. *)
Theorem ranked_ir_tfidf_outcome cfg text_query s n ds :
  index_ok (inverted_index s) ->
  inverted_index s !! total_key = Some (TotalEntry n ds) ->
  (∀ w n' ds', inverted_index s !! w = Some (TotalEntry n' ds') -> w = total_key) ->
  (In total_key (split (my_preprocessor cfg text_query)) /\
     ranked_ir_tfidf_R cfg text_query s = Raise KeyError) \/
  (~ In total_key (split (my_preprocessor cfg text_query)) /\
     exists L s', ranked_ir_tfidf_R cfg text_query s = Ok (L, s')).
Proof. apply ranked_outcome. Qed.

Lemma ranked_ir_tfidf_outcome_witness :
  ~ In total_key (split (my_preprocessor plain_config "sat cat")) /\
  exists L s', ranked_ir_tfidf_R plain_config "sat cat" sat_store = Ok (L, s').
Proof.
  destruct (ranked_ir_tfidf_outcome plain_config "sat cat" sat_store 2 {[0; 1]}
              sat_store_ok sat_store_total sat_store_totals_at_key) as [[Hin _]|H].
  - exfalso. rewrite sat_cat_terms in Hin. simpl in Hin.
    destruct Hin as [Hin|[Hin|[]]]; discriminate.
  - exact H.
Defined.

Lemma ranked_ir_tfidf_results_witness :
  exists L s', ranked_ir_tfidf_R plain_config "sat cat" sat_store = Ok (L, s') /\
    ∀ d, In d (map fst L) <-> d = 0 \/ d = 1.
Proof.
  destruct (ranked_outcome 0%R Rplus tfidf_weight Rge_bool plain_config "sat cat" sat_store 2 {[0; 1]}
              sat_store_ok sat_store_total sat_store_totals_at_key) as [[Hin _]|[_ (L & s' & E)]].
  { exfalso. rewrite sat_cat_terms in Hin. simpl in Hin. destruct Hin as [Hin|[Hin|[]]]; discriminate. }
  exists L, s'. split; [exact E|]. intros d.
  rewrite (proj1 (proj2 (ranked_ir_tfidf_results plain_config "sat cat" sat_store L s' sat_store_ok E)) d).
  assert (H1 : docs_of (inverted_index sat_store) "sat" = {[0]}) by (vm_compute; reflexivity).
  assert (H2 : docs_of (inverted_index sat_store) "cat" = {[0; 1]}) by (vm_compute; reflexivity).
  rewrite sat_cat_terms. split.
  + intros (w & [<-|[<-|[]]] & Hd); [rewrite H1 in Hd|rewrite H2 in Hd].
    * apply elem_of_singleton in Hd. auto.
    * apply elem_of_union in Hd as [Hd|Hd]; apply elem_of_singleton in Hd; auto.
  + intros Hd. exists "cat"%string. split; [simpl; auto|]. rewrite H2.
    apply elem_of_union. destruct Hd as [->| ->]; [left|right]; apply elem_of_singleton; reflexivity.
Defined.

Lemma all_chars_app P s1 s2 :
  all_chars P (s1 ++ s2) = all_chars P s1 && all_chars P s2.
Proof. induction s1 as [|c s1 IH]; simpl; [reflexivity|]. rewrite IH. apply andb_assoc. Qed.

Lemma all_chars_of_list P l : all_chars P (String.string_of_list_ascii l) = forallb P l.
Proof. induction l as [|c l IH]; simpl; [reflexivity|]. rewrite IH. reflexivity. Qed.

Lemma all_chars_impl (P Q : ascii -> bool) s :
  (∀ c, P c = true -> Q c = true) -> all_chars P s = true -> all_chars Q s = true.
Proof.
  intros HPQ. induction s as [|c s IH]; simpl; [reflexivity|].
  intros [Hc Hs]%andb_prop. rewrite (HPQ c Hc). apply IH, Hs.
Qed.

Lemma forallb_rev_eq {A} (P : A -> bool) l : forallb P (rev l) = forallb P l.
Proof.
  induction l as [|x l IH]; simpl; [reflexivity|].
  rewrite forallb_app, IH. simpl. rewrite andb_true_r. apply andb_comm.
Qed.

Lemma lower_char_not_upper c :
  is_upper (if is_upper c then Ascii.ascii_of_nat (char_code c + 32) else c) = false \/
  is_upper c = false.
Proof.
  destruct c as [[] [] [] [] [] [] [] []]; vm_compute; auto.
Qed.

Lemma lower_not_upper s : all_chars (λ c, negb (is_upper c)) (lower s) = true.
Proof.
  induction s as [|c s IH]; simpl; [reflexivity|]. rewrite IH, andb_true_r.
  destruct c as [[] [] [] [] [] [] [] []]; vm_compute; reflexivity.
Qed.

Lemma split_aux_chars P s : ∀ cur,
  all_chars (λ c, P c || is_space c) s = true ->
  forallb (λ c, P c && negb (is_space c)) cur = true ->
  Forall (λ w, w ≠ EmptyString /\ all_chars (λ c, P c && negb (is_space c)) w = true) (split_aux s cur).
Proof.
  induction s as [|c s IH]; intros cur Hs Hcur; simpl.
  - destruct cur as [|c0 cur']; [constructor|].
    constructor; [|constructor]. split.
    + simpl. destruct (rev cur' ++ [c0]) eqn:E; [|discriminate].
      apply (f_equal length) in E. rewrite length_app in E. simpl in E. lia.
    + rewrite all_chars_of_list, forallb_rev_eq. exact Hcur.
  - simpl in Hs. apply andb_prop in Hs as [Hc Hs].
    destruct (is_space c) eqn:Hsp.
    + destruct cur as [|c0 cur']; [apply IH; [exact Hs|reflexivity]|].
      constructor; [|apply IH; [exact Hs|reflexivity]]. split.
      * simpl. destruct (rev cur' ++ [c0]) eqn:E; [|discriminate].
        apply (f_equal length) in E. rewrite length_app in E. simpl in E. lia.
      * rewrite all_chars_of_list, forallb_rev_eq. exact Hcur.
    + apply IH; [exact Hs|]. simpl. rewrite Hcur, Hsp, andb_true_r, andb_true_r.
      rewrite orb_false_r in Hc. exact Hc.
Qed.

Lemma join_space_chars P ws :
  P " "%char = true -> Forall (λ w, all_chars P w = true) ws -> all_chars P (join_space ws) = true.
Proof.
  intros Hsp. induction ws as [|w ws IH]; intros Hws; simpl; [reflexivity|].
  apply Forall_cons in Hws as [Hw Hws].
  destruct ws as [|w' ws']; [exact Hw|].
  rewrite all_chars_app. simpl. rewrite Hw, Hsp. simpl. apply IH, Hws.
Qed.

Lemma convert_chars s :
  all_chars (λ c, negb (is_upper c)) s = true ->
  all_chars (λ c, is_word_char c && negb (is_upper c) || is_space c)
    (convert_non_alphanumeric_to_space s) = true.
Proof.
  induction s as [|c s IH]; simpl; [reflexivity|]. intros [Hc Hs]%andb_prop.
  rewrite (IH Hs), andb_true_r.
  destruct (is_word_char c) eqn:Hw; simpl.
  - rewrite Hw, Hc. reflexivity.
  - destruct (is_space c) eqn:Hsp; [rewrite Hsp; apply orb_true_r|reflexivity].
Qed.

Lemma remove_single_s_chars P :
  P " "%char = true -> ∀ s, all_chars P s = true -> all_chars P (remove_single_s s) = true.
Proof.
  intros Hsp s. remember (String.length s) as n eqn:Hn.
  revert s Hn. induction n as [n IH] using lt_wf_ind. intros s Hn Hs.
  destruct s as [|c s']; [reflexivity|]. simpl in Hs. apply andb_prop in Hs as [Hc Hs'].
  destruct s' as [|c1 [|c2 rest]].
  - simpl. rewrite Hc. reflexivity.
  - simpl. simpl in Hs'. rewrite Hc, Hs'. reflexivity.
  - simpl in Hs'. apply andb_prop in Hs' as [Hc1 Hs'']. apply andb_prop in Hs'' as [Hc2 Hr].
    change (remove_single_s (String c (String c1 (String c2 rest)))) with
      (if (Ascii.eqb c " " && Ascii.eqb c1 "s" && Ascii.eqb c2 " ")%bool
       then String " " (remove_single_s rest)
       else String c (remove_single_s (String c1 (String c2 rest)))).
    destruct (Ascii.eqb c " " && Ascii.eqb c1 "s" && Ascii.eqb c2 " ")%bool; cbn [all_chars].
    + rewrite Hsp. simpl. apply (IH (String.length rest)); [simpl in *; lia|reflexivity|exact Hr].
    + rewrite Hc. cbn [andb]. apply (IH (String.length (String c1 (String c2 rest)))); [simpl in *; lia|reflexivity|].
      simpl. rewrite Hc1, Hc2, Hr. reflexivity.
Qed.

Lemma remove_end_single_s_chars P :
  P newline = true -> ∀ s, all_chars P s = true -> all_chars P (remove_end_single_s s) = true.
Proof.
  intros Hnl s. remember (String.length s) as n eqn:Hn.
  revert s Hn. induction n as [n IH] using lt_wf_ind. intros s Hn Hs.
  destruct s as [|c s']; [reflexivity|]. simpl in Hs. apply andb_prop in Hs as [Hc Hs'].
  destruct s' as [|c1 [|c2 rest]].
  - simpl. rewrite Hc. reflexivity.
  - simpl. simpl in Hs'. rewrite Hc, Hs'. reflexivity.
  - simpl in Hs'. apply andb_prop in Hs' as [Hc1 Hs'']. apply andb_prop in Hs'' as [Hc2 Hr].
    change (remove_end_single_s (String c (String c1 (String c2 rest)))) with
      (if (Ascii.eqb c " " && Ascii.eqb c1 "s" && Ascii.eqb c2 newline)%bool
       then String newline (remove_end_single_s rest)
       else String c (remove_end_single_s (String c1 (String c2 rest)))).
    destruct (Ascii.eqb c " " && Ascii.eqb c1 "s" && Ascii.eqb c2 newline)%bool; cbn [all_chars].
    + rewrite Hnl. simpl. apply (IH (String.length rest)); [simpl in *; lia|reflexivity|exact Hr].
    + rewrite Hc. cbn [andb]. apply (IH (String.length (String c1 (String c2 rest)))); [simpl in *; lia|reflexivity|].
      simpl. rewrite Hc1, Hc2, Hr. reflexivity.
Qed.

Lemma preprocessor_chars cfg text_line :
  apply_stemming cfg = false ->
  all_chars (λ c, is_word_char c && negb (is_upper c) || is_space c) (my_preprocessor cfg text_line) = true.
Proof.
  intros Hst. unfold my_preprocessor. destruct (space_only text_line); [reflexivity|].
  rewrite Hst. cbv zeta.
  match goal with |- context [if space_only ?x then _ else _] => destruct (space_only x); [reflexivity|] end.
  apply remove_end_single_s_chars; [reflexivity|]. apply remove_single_s_chars; [reflexivity|].
  apply convert_chars. destruct (remove_stop_words cfg); [|apply lower_not_upper].
  apply join_space_chars; [reflexivity|].
  apply Forall_forall. intros w Hw.
  apply list_elem_of_filter in Hw as [_ Hw].
  revert w Hw. apply Forall_forall.
  pose proof (split_aux_chars (λ c, negb (is_upper c)) (lower text_line) []) as Hsplit.
  eapply Forall_impl; [apply Hsplit|].
  - eapply all_chars_impl; [|apply lower_not_upper]. intros c Hc. rewrite Hc. reflexivity.
  - reflexivity.
  - intros w [_ Hw]. eapply all_chars_impl; [|exact Hw]. intros c Hc.
    apply andb_prop in Hc as [Hc _]. exact Hc.
Qed.

(** X13. [my_preprocessor] without stemming, on ASCII text (the range
    where the character classes above are those of Python): every word of
    its result is non-empty and made of lower-case ASCII letters, digits
    and underscores. *)
Theorem my_preprocessor_words cfg text_line :
  all_chars (λ c, (char_code c <? 128)%nat) text_line = true ->
  apply_stemming cfg = false ->
  Forall (λ w, w ≠ EmptyString /\ all_chars (λ c, is_word_char c && negb (is_upper c)) w = true)
    (split (my_preprocessor cfg text_line)).
Proof.
  intros _ Hst. unfold split.
  eapply Forall_impl; [apply (split_aux_chars (λ c, is_word_char c && negb (is_upper c)))|].
  - apply preprocessor_chars, Hst.
  - reflexivity.
  - intros w [Hne Hw]. split; [exact Hne|]. eapply all_chars_impl; [|exact Hw].
    intros c Hc. apply andb_prop in Hc as [Hc _]. exact Hc.
Qed.

Lemma my_preprocessor_words_witness :
  all_chars (λ c, (char_code c <? 128)%nat) "The Cat's 2 dogs!" = true /\
  split (my_preprocessor plain_config "The Cat's 2 dogs!") = ["the"; "cat"; "2"; "dogs"]%string /\
  Forall (λ w, w ≠ EmptyString /\ all_chars (λ c, is_word_char c && negb (is_upper c)) w = true)
    (split (my_preprocessor plain_config "The Cat's 2 dogs!")).
Proof.
  assert (Ha : all_chars (λ c, (char_code c <? 128)%nat) "The Cat's 2 dogs!" = true)
    by (vm_compute; reflexivity).
  split; [exact Ha|]. split; [vm_compute; reflexivity|].
  apply (my_preprocessor_words plain_config "The Cat's 2 dogs!" Ha). reflexivity.
Defined.

Lemma span_chars_spec p s : ∀ a b,
  span_chars p s = (a, b) ->
  s = (a ++ b)%string /\ all_chars p a = true /\ (∀ c b', b = String c b' -> p c = false).
Proof.
  induction s as [|c s IH]; intros a b H; simpl in H.
  - injection H as <- <-. split; [reflexivity|]. split; [reflexivity|]. intros c b' [=].
  - destruct (p c) eqn:Hc.
    + destruct (span_chars p s) as [a' b''] eqn:Hs. injection H as <- <-.
      destruct (IH _ _ eq_refl) as (-> & Ha & Hb). split; [reflexivity|].
      split; [simpl; rewrite Hc, Ha; reflexivity|exact Hb].
    + injection H as <- <-. split; [reflexivity|]. split; [reflexivity|].
      intros c' b' [= <- <-]. exact Hc.
Qed.

Lemma span_chars_app p a b :
  all_chars p a = true -> (∀ c b', b = String c b' -> p c = false) ->
  span_chars p (a ++ b) = (a, b).
Proof.
  intros Ha Hb. induction a as [|c a IH]; simpl.
  - destruct b as [|c b']; simpl; [reflexivity|]. rewrite (Hb c b' eq_refl). reflexivity.
  - simpl in Ha. apply andb_prop in Ha as [Hc Ha]. rewrite Hc, (IH Ha). reflexivity.
Qed.

Lemma digits_value_nonneg s : all_chars is_digit s = true -> 0 <= digits_value s.
Proof.
  unfold digits_value. intros Hs.
  assert (H : ∀ l acc, 0 <= acc -> forallb is_digit l = true ->
            0 <= fold_left (λ acc c, 10 * acc + digit_value c) l acc).
  { induction l as [|c l IH]; intros acc Hacc Hl; simpl; [exact Hacc|].
    simpl in Hl. apply andb_prop in Hl as [Hc Hl]. apply IH; [|exact Hl].
    unfold is_digit in Hc. apply andb_prop in Hc as [Hc _]. apply Nat.leb_le in Hc.
    unfold digit_value. lia. }
  apply H; [lia|]. clear H. induction s as [|c s IH]; simpl; [reflexivity|].
  simpl in Hs. apply andb_prop in Hs as [Hc Hs]. rewrite Hc. apply IH, Hs.
Qed.

Ltac char_is c lit E :=
  let Hne := fresh "Hne" in
  destruct (Ascii.eqb_spec c lit) as [->|Hne];
  [simpl in E
  |destruct c as [[] [] [] [] [] [] [] []]; simpl in E;
   (discriminate E || (exfalso; apply Hne; reflexivity))].

Lemma proximity_match_spec t prox p1 p2 :
  proximity_match t = Some (prox, p1, p2) ->
  exists tail, prox ≠ EmptyString /\ all_chars is_digit prox = true /\
    p1 ≠ EmptyString /\ all_chars is_phrase_char p1 = true /\
    p2 ≠ EmptyString /\ all_chars is_phrase_char p2 = true /\
    (tail = EmptyString \/ tail = String newline EmptyString) /\
    t = ("#" ++ prox ++ "(" ++ p1 ++ "," ++ p2 ++ ")" ++ tail)%string.
Proof.
  intros E. unfold proximity_match in E.
  destruct t as [|c t]; [discriminate|]. char_is c "#"%char E.
  revert E. destruct (span_chars is_digit t) as [q0 t1] eqn:Hs1. intros E.
  apply span_chars_spec in Hs1 as (-> & Hd & _).
  destruct q0 as [|d0 q0']; [discriminate|].
  destruct t1 as [|c1 t2]; [discriminate|]. char_is c1 "("%char E.
  revert E. destruct (span_chars is_phrase_char t2) as [q1 t3] eqn:Hs2. intros E.
  apply span_chars_spec in Hs2 as (-> & Hp1 & _).
  destruct q1 as [|e0 q1']; [discriminate|].
  destruct t3 as [|c3 t4]; [discriminate|]. char_is c3 ","%char E.
  revert E. destruct (span_chars is_phrase_char t4) as [q2 t5] eqn:Hs3. intros E.
  apply span_chars_spec in Hs3 as (-> & Hp2 & _).
  destruct q2 as [|f0 q2']; [discriminate|].
  destruct t5 as [|c5 t6]; [discriminate|]. char_is c5 ")"%char E.
  destruct t6 as [|c6 [|c7 t7]].
  - injection E as <- <- <-. exists EmptyString.
    repeat split; auto; discriminate.
  - destruct (Ascii.eqb_spec c6 newline) as [->|Hne6]; [|discriminate].
    injection E as <- <- <-. exists (String newline EmptyString).
    repeat split; auto; discriminate.
  - discriminate.
Qed.

(** X14. [parse_proximity_query] accepts exactly the texts
    [#k(phrase_1,phrase_2)], optionally followed by one newline, where [k]
    is a non-empty run of digits and each phrase a non-empty run of word
    and space characters; it returns the two phrases and the value of
    [k], which is non-negative. *)
Theorem parse_proximity_query_exact t p1 p2 k :
  parse_proximity_query t = Ok ((p1, p2), k) <->
  exists prox tail, prox ≠ EmptyString /\ all_chars is_digit prox = true /\
    p1 ≠ EmptyString /\ all_chars is_phrase_char p1 = true /\
    p2 ≠ EmptyString /\ all_chars is_phrase_char p2 = true /\
    (tail = EmptyString \/ tail = String newline EmptyString) /\
    t = ("#" ++ prox ++ "(" ++ p1 ++ "," ++ p2 ++ ")" ++ tail)%string /\
    k = digits_value prox /\ 0 <= k.
Proof.
  split.
  - unfold parse_proximity_query. destruct (proximity_match t) as [[[prox q1] q2]|] eqn:E; [|discriminate].
    intros H. injection H as <- <- <-.
    destruct (proximity_match_spec _ _ _ _ E) as (tail & Hne & Hd & Hn1 & Hp1 & Hn2 & Hp2 & Ht & ->).
    exists prox, tail. repeat split; auto. apply digits_value_nonneg, Hd.
  - intros (prox & tail & Hne & Hd & Hn1 & Hp1 & Hn2 & Hp2 & Ht & -> & -> & _).
    assert (Heq : ("#" ++ prox ++ "(" ++ p1 ++ "," ++ p2 ++ ")" ++ tail)%string =
                  String "#" (prox ++ String "(" (p1 ++ String "," (p2 ++ String ")" tail))))
      by reflexivity.
    rewrite Heq. unfold parse_proximity_query, proximity_match. cbn iota beta.
    rewrite (span_chars_app is_digit prox); [|exact Hd|intros c b' [= <- _]; reflexivity].
    destruct prox as [|d0 prox']; [contradiction|]. cbn iota beta.
    rewrite (span_chars_app is_phrase_char p1); [|exact Hp1|intros c b' [= <- _]; reflexivity].
    destruct p1 as [|e0 p1']; [contradiction|]. cbn iota beta.
    rewrite (span_chars_app is_phrase_char p2); [|exact Hp2|intros c b' [= <- _]; reflexivity].
    destruct p2 as [|f0 p2']; [contradiction|].
    destruct Ht as [-> | ->]; reflexivity.
Qed.

Lemma parse_proximity_query_exact_witness :
  parse_proximity_query "#15(income,taxes)"%string = Ok (("income", "taxes")%string, 15).
Proof.
  apply (proj2 (parse_proximity_query_exact "#15(income,taxes)" "income" "taxes" 15)).
  exists "15"%string, EmptyString. vm_compute. repeat split; try discriminate; auto.
Defined.

Lemma lstrip_app sp text :
  all_chars is_space sp = true ->
  (∀ c t, text = String c t -> is_space c = false) ->
  lstrip (sp ++ text) = text.
Proof.
  intros Hsp Ht. induction sp as [|c sp IH]; simpl.
  - destruct text as [|c t]; [reflexivity|]. simpl. rewrite (Ht c t eq_refl). reflexivity.
  - simpl in Hsp. apply andb_prop in Hsp as [Hc Hsp]. rewrite Hc. apply IH, Hsp.
Qed.

Lemma char_neq_of (p : ascii -> bool) c d : p c = true -> p d = false -> Ascii.eqb c d = false.
Proof. intros Hc Hd. destruct (Ascii.eqb_spec c d) as [->|]; [congruence|reflexivity]. Qed.

(** X15. [parse_question_file] removes a question number: an optional [q],
    one or two digits, an optional colon and the whitespace after them. *)
Theorem parse_question_file_strips q num colon sp text :
  (q = EmptyString \/ q = "q"%string) ->
  (String.length num = 1 \/ String.length num = 2)%nat -> all_chars is_digit num = true ->
  (colon = EmptyString \/ colon = ":"%string) ->
  sp ≠ EmptyString -> all_chars is_space sp = true ->
  (∀ c t, text = String c t -> is_space c = false) ->
  parse_question_file (q ++ num ++ colon ++ sp ++ text) = text.
Proof.
  intros Hq Hlen Hnum Hcol Hsp Hspc Ht.
  destruct sp as [|s0 sp']; [contradiction|]. simpl in Hspc. apply andb_prop in Hspc as [Hs0 Hsp'].
  assert (Hs0d : is_digit s0 = false).
  { destruct (is_digit s0) eqn:E; [|reflexivity].
    unfold is_digit, is_space in *. apply andb_prop in E as [E1 E2].
    apply Nat.leb_le in E1, E2. apply orb_prop in Hs0 as [H|H]; apply andb_prop in H as [H1 H2];
      apply Nat.leb_le in H1, H2; lia. }
  assert (Hs0c : Ascii.eqb s0 ":" = false) by (apply (char_neq_of is_space); [exact Hs0|reflexivity]).
  assert (Hrest : lstrip (sp' ++ text) = text) by (apply lstrip_app; assumption).
  destruct num as [|d1 [|d2 [|d3 num']]]; simpl in Hlen; [lia| | |lia]; simpl in Hnum.
  - rewrite andb_true_r in Hnum. rename Hnum into Hd1.
    assert (Hd1q : Ascii.eqb d1 "q" = false) by (apply (char_neq_of is_digit); [exact Hd1|reflexivity]).
    assert (Hd1c : Ascii.eqb d1 ":" = false) by (apply (char_neq_of is_digit); [exact Hd1|reflexivity]).
    destruct Hq as [-> | ->], Hcol as [-> | ->]; unfold parse_question_file, question_prefix; simpl;
      rewrite ?Hd1, ?Hd1q, ?Hd1c, ?Hs0, ?Hs0d, ?Hs0c; simpl; rewrite ?Hd1, ?Hd1q, ?Hd1c, ?Hs0, ?Hs0d, ?Hs0c;
      simpl; exact Hrest.
  - rewrite andb_true_r in Hnum. apply andb_prop in Hnum as [Hd1 Hd2].
    assert (Hd1q : Ascii.eqb d1 "q" = false) by (apply (char_neq_of is_digit); [exact Hd1|reflexivity]).
    assert (Hd1c : Ascii.eqb d1 ":" = false) by (apply (char_neq_of is_digit); [exact Hd1|reflexivity]).
    assert (Hd2c : Ascii.eqb d2 ":" = false) by (apply (char_neq_of is_digit); [exact Hd2|reflexivity]).
    destruct Hq as [-> | ->], Hcol as [-> | ->]; unfold parse_question_file, question_prefix; simpl;
      rewrite ?Hd1, ?Hd2, ?Hd1q, ?Hd1c, ?Hd2c, ?Hs0, ?Hs0d, ?Hs0c; simpl;
      rewrite ?Hd1, ?Hd2, ?Hd1q, ?Hd1c, ?Hd2c, ?Hs0, ?Hs0d, ?Hs0c; simpl; exact Hrest.
Qed.

Lemma parse_question_file_strips_witness :
  parse_question_file "q12: income taxes"%string = "income taxes"%string.
Proof.
  apply (parse_question_file_strips "q" "12" ":" " " "income taxes");
    try (left; reflexivity); try (right; reflexivity); try reflexivity; try discriminate.
  intros c t [= <- _]. reflexivity.
Defined.

Lemma all_chars_list P s : all_chars P s = forallb P (String.list_ascii_of_string s).
Proof. induction s as [|c s IH]; simpl; [reflexivity|]. rewrite IH. reflexivity. Qed.

Lemma has_char_false (Q : ascii -> bool) c s :
  all_chars Q s = true -> Q c = false -> has_char c s = false.
Proof.
  intros Hs Hc. induction s as [|c' s IH]; simpl; [reflexivity|].
  simpl in Hs. apply andb_prop in Hs as [Hc' Hs].
  destruct (Ascii.eqb_spec c c') as [->|_]; [congruence|]. apply IH, Hs.
Qed.

Lemma drop_final_newline_id (Q : ascii -> bool) s :
  all_chars Q s = true -> Q newline = false -> drop_final_newline s = s.
Proof.
  intros Hs Hn. unfold drop_final_newline.
  destruct (rev (String.list_ascii_of_string s)) as [|c r] eqn:E; [reflexivity|].
  destruct (Ascii.eqb_spec c newline) as [->|_]; [|reflexivity].
  exfalso. rewrite all_chars_list in Hs.
  assert (Hin : In newline (String.list_ascii_of_string s)).
  { apply in_rev. rewrite E. left. reflexivity. }
  rewrite forallb_forall in Hs. rewrite (Hs _ Hin) in Hn. discriminate.
Qed.

Lemma starts_with_upper_false (x : ascii) p c s :
  lower_digit_space c = true -> lower_digit_space x = false ->
  starts_with (String x p) (String c s) = false.
Proof.
  intros Hc Hx. simpl. destruct (Ascii.eqb_spec x c) as [->|_]; [congruence|reflexivity].
Qed.

Lemma conn_at_plain prev s :
  all_chars lower_digit_space s = true -> conn_at prev s = None.
Proof.
  intros Hs. unfold conn_at. destruct (word_char_opt prev); [reflexivity|].
  destruct s as [|c s']; [reflexivity|]. simpl in Hs. apply andb_prop in Hs as [Hc _].
  rewrite (starts_with_upper_false "A" "ND" c s' Hc eq_refl).
  rewrite (starts_with_upper_false "O" "R" c s' Hc eq_refl). reflexivity.
Qed.

Lemma find_conn_plain s : ∀ prev,
  all_chars lower_digit_space s = true -> find_conn prev s = (s, None).
Proof.
  induction s as [|c s IH]; intros prev Hs.
  - simpl find_conn. rewrite (conn_at_plain prev _ Hs). reflexivity.
  - simpl find_conn. rewrite (conn_at_plain prev _ Hs).
    simpl in Hs. apply andb_prop in Hs as [_ Hs]. rewrite (IH _ Hs). reflexivity.
Qed.

Lemma query_match_plain s :
  s ≠ EmptyString -> all_chars lower_digit_space s = true ->
  query_match s = Some (s, EmptyString, EmptyString).
Proof.
  intros Hne Hs. unfold query_match.
  rewrite (drop_final_newline_id lower_digit_space s Hs eq_refl).
  rewrite (has_char_false lower_digit_space newline s Hs eq_refl).
  destruct s as [|c s']; [contradiction|].
  rewrite (conn_at_plain None _ Hs), (find_conn_plain _ None Hs). reflexivity.
Qed.

Lemma not_split_plain s :
  all_chars lower_digit_space s = true -> not_split s = (false, s).
Proof.
  intros Hs. unfold not_split. destruct s as [|c s']; [reflexivity|].
  simpl in Hs. apply andb_prop in Hs as [Hc _].
  rewrite (starts_with_upper_false "N" "OT" c s' Hc eq_refl). reflexivity.
Qed.

Lemma boolean_query_plain cfg text s :
  text ≠ EmptyString -> all_chars lower_digit_space text = true ->
  boolean_query cfg text s =
    (let* D := _documents_containing_phrase cfg (strip text) in ret (merge_sort Z.le (elements D))) s.
Proof.
  intros Hne Hs. unfold boolean_query, boolean_query_parser. cbn [boolean_query_parser_loop].
  rewrite (query_match_plain text Hne Hs). cbn iota beta. rewrite (not_split_plain text Hs).
  cbn iota beta zeta. unfold bindM at 1 2 3 4.
  destruct (_documents_containing_phrase cfg (strip text) s) as [[D s1]|e]; reflexivity.
Qed.

(** X16. A boolean query made of one phrase of lower-case letters, digits and
    spaces (no [AND], [OR] or [NOT]) returns, in increasing order and
    without repetition, the documents where the words of the phrase occur
    at consecutive positions. *)
Theorem boolean_query_single_phrase cfg text s L s' :
  text ≠ EmptyString -> all_chars lower_digit_space text = true ->
  index_ok (inverted_index s) ->
  boolean_query cfg text s = Ok (L, s') ->
  strictly_sorted L /\
  ∀ d, In d L <-> exists p, phrase_at (inverted_index s) (split (my_preprocessor cfg (strip text))) d p.
Proof.
  intros Hne Hs Hok H. rewrite (boolean_query_plain cfg text s Hne Hs) in H.
  inv_bind H D s1 HD. apply ret_ok in H as [-> ->]. split.
  - apply strictly_sorted_merge_sort, NoDup_elements.
  - intros d. rewrite <- (documents_containing_phrase_spec cfg (strip text) s D s1 Hok HD d).
    rewrite <- list_elem_of_In, (merge_sort_Permutation _ (elements D)). apply elem_of_elements.
Qed.

Lemma boolean_query_single_phrase_witness :
  match boolean_query plain_config "the cat" sat_store with
  | Ok (L, _) => L = [0] /\
      (In 0 L <-> exists p, phrase_at (inverted_index sat_store) ["the"; "cat"]%string 0 p)
  | Raise _ => False
  end.
Proof.
  destruct (boolean_query plain_config "the cat" sat_store) as [[L s']|e] eqn:E.
  - split.
    + vm_compute in E. injection E as <- _. reflexivity.
    + apply (proj2 (boolean_query_single_phrase plain_config "the cat" sat_store L s'
                      ltac:(discriminate) ltac:(vm_compute; reflexivity) sat_store_ok E)).
  - vm_compute in E. discriminate.
Defined.

Lemma add_score_lookup {score} zero add (acc : list (Z * score)) d x d' :
  assoc_lookup (add_score zero add acc d x) d' =
  if d' =? d then Some (add (default zero (assoc_lookup acc d)) x) else assoc_lookup acc d'.
Proof.
  induction acc as [|[k v] rest IH]; simpl.
  - destruct (Z.eqb_spec d d'), (Z.eqb_spec d' d); subst; congruence.
  - destruct (Z.eqb_spec k d) as [->|Hne]; simpl.
    + destruct (Z.eqb_spec d d'), (Z.eqb_spec d' d); subst; congruence.
    + rewrite IH. destruct (Z.eqb_spec k d'), (Z.eqb_spec d' d); subst; congruence.
Qed.

Lemma assoc_lookup_in {V} (acc : list (Z * V)) d v :
  NoDup (map fst acc) -> In (d, v) acc <-> assoc_lookup acc d = Some v.
Proof.
  induction acc as [|[k v'] rest IH]; simpl; intros Hnd; [split; [tauto|discriminate]|].
  apply NoDup_cons in Hnd as [Hni Hnd]. rewrite list_elem_of_In in Hni.
  destruct (Z.eqb_spec k d) as [->|Hne].
  - split.
    + intros [He|Hin]; [congruence|].
      exfalso. apply Hni. apply (in_map fst) in Hin. exact Hin.
    + intros He. injection He as ->. auto.
  - rewrite <- IH by exact Hnd. split; [intros [He|Hin]; [congruence|exact Hin]|auto].
Qed.

Section Scores.
Context {score : Type} (zero : score) (add : score -> score -> score)
        (weight : Z -> nat -> nat -> score).
Variables (s0 : store) (my_N : Z) (tds : gset Z).
Hypothesis Hok0 : index_ok (inverted_index s0).
Hypothesis Htot0 : inverted_index s0 !! total_key = Some (TotalEntry my_N tds).

Local Abbreviation wt w d :=
  (weight my_N (size (word_positions (inverted_index s0) w d)) (size (docs_of (inverted_index s0) w))).

Lemma le_positions s w d p0 p ps :
  index_le s0 s -> inverted_index s0 !! w = Some (Posting p0) ->
  inverted_index s !! w = Some (Posting p) -> position_dict p0 !! d = Some ps ->
  position_dict p !! d = Some ps /\ document_set p = document_set p0.
Proof.
  intros Hle Hw0 Hw Hd. specialize (Hle w). rewrite Hw0, Hw in Hle.
  destruct Hle as (_ & Hds & Hsub & _). split; [|exact Hds].
  eapply lookup_weaken; eassumption.
Qed.

Lemma tfidf_term_weighting_value w d s x s' :
  index_le s0 s -> d ∈ docs_of (inverted_index s0) w ->
  _tfidf_term_weighting zero weight w d s = Ok (x, s') -> x = wt w d /\ s' = s.
Proof.
  intros Hle Hd H.
  destruct (docs_of_positions _ _ _ Hok0 Hd) as (p0 & Hw0 & Hps & _).
  destruct (le_posting _ _ _ _ Hle Hw0) as [p Hw].
  destruct (le_positions _ _ _ _ _ _ Hle Hw0 Hw Hps) as [Hps' Hds].
  pose proof (le_total _ _ _ _ _ Hle Htot0) as Htot.
  unfold _tfidf_term_weighting, total_size in H.
  inv_bind H ds s1 H1. apply set_read_ok in H1 as [H1 ->]. simpl in H1.
  rewrite Hw in H1. injection H1 as <-.
  destruct (decide _) as [Hn|_].
  { exfalso. apply Hn. rewrite Hds. unfold docs_of in Hd. rewrite Hw0 in Hd. exact Hd. }
  inv_bind H nN s2 HN. inv_bind HN e s5 He. unfold index_get in He. rewrite Htot in He.
  injection He as <- <-. apply ret_ok in HN as [-> ->].
  inv_bind H r s3 Hr. unfold pos_get in Hr. rewrite Hw, Hps' in Hr. injection Hr as <- <-.
  inv_bind H ps s4 H4. apply set_read_ok in H4 as [H4 ->]. simpl in H4.
  rewrite Hw, Hps' in H4. injection H4 as <-.
  apply ret_ok in H as [-> ->]. split; [|reflexivity].
  unfold docs_of. rewrite Hw0, Hds. reflexivity.
Qed.

(** The inner loop adds the weight of [w] to each of its documents. *)
Lemma add_fold_lookup w l : ∀ acc s acc' s',
  index_le s0 s -> (∀ d, d ∈ l -> d ∈ docs_of (inverted_index s0) w) -> NoDup l ->
  fold_M (λ acc' document,
            let* x := _tfidf_term_weighting zero weight w document in
            ret (add_score zero add acc' document x)) l acc s = Ok (acc', s') ->
  s' = s /\
  ∀ d, assoc_lookup acc' d =
       if decide (d ∈ l) then Some (add (default zero (assoc_lookup acc d)) (wt w d))
       else assoc_lookup acc d.
Proof.
  induction l as [|d0 l IH]; intros acc s acc' s' Hle Hl Hnd H; simpl in H.
  - apply ret_ok in H as [-> ->]. split; [reflexivity|].
    intros d. rewrite decide_False; [reflexivity|apply not_elem_of_nil].
  - apply NoDup_cons in Hnd as [Hni Hnd].
    inv_bind H acc1 s1 H1. inv_bind H1 x s2 Hx. apply ret_ok in H1 as [-> ->].
    destruct (tfidf_term_weighting_value _ _ _ _ _ Hle (Hl d0 (list_elem_of_here _ _)) Hx)
      as [-> ->].
    destruct (IH _ _ _ _ Hle (λ d Hd, Hl d (list_elem_of_further _ _ _ Hd)) Hnd H)
      as [-> Hlk].
    split; [reflexivity|]. intros d. rewrite Hlk.
    destruct (decide (d = d0)) as [->|Hne].
    + rewrite decide_False by exact Hni. rewrite decide_True by apply list_elem_of_here.
      rewrite add_score_lookup, Z.eqb_refl. reflexivity.
    + rewrite add_score_lookup. destruct (Z.eqb_spec d d0) as [|_]; [contradiction|].
      destruct (decide (d ∈ l)) as [Hin|Hin].
      * rewrite decide_True by (apply list_elem_of_further; exact Hin).
        reflexivity.
      * rewrite decide_False; [reflexivity|].
        intros Hc. apply elem_of_cons in Hc as [|]; contradiction.
Qed.

Lemma default_score_of terms d :
  default zero (score_of zero add weight (inverted_index s0) my_N terms d) = foldl add zero (term_weights weight (inverted_index s0) my_N terms d).
Proof. unfold score_of. destruct (term_weights _ _ _ _ _); reflexivity. Qed.

Lemma term_weights_snoc terms w d :
  term_weights weight (inverted_index s0) my_N (terms ++ [w]) d =
  term_weights weight (inverted_index s0) my_N terms d ++
  (if decide (d ∈ docs_of (inverted_index s0) w) then [wt w d] else []).
Proof.
  unfold term_weights. rewrite filter_app, map_app, filter_cons, filter_nil. f_equal.
  destruct (decide _); reflexivity.
Qed.

(** The outer loop: after the words [prefix], each document maps to the
    sum of the weights it got from them. *)
Lemma ranked_fold_lookup terms : ∀ prefix acc s acc' s',
  index_le s0 s ->
  (∀ d, assoc_lookup acc d = score_of zero add weight (inverted_index s0) my_N prefix d) ->
  fold_M (λ acc term,
            let* term_present_in_collection := _word_dict term in
            if term_present_in_collection then
              let* document_set := set_read (RDocs term) in
              fold_M (λ acc' document,
                        let* x := _tfidf_term_weighting zero weight term document in
                        ret (add_score zero add acc' document x)) (elements document_set) acc
            else ret acc) terms acc s = Ok (acc', s') ->
  ∀ d, assoc_lookup acc' d = score_of zero add weight (inverted_index s0) my_N (prefix ++ terms) d.
Proof.
  induction terms as [|w terms IH]; intros prefix acc s acc' s' Hle Hacc H; simpl in H.
  - apply ret_ok in H as [-> ->]. intros d. rewrite app_nil_r. apply Hacc.
  - inv_bind H acc1 s1 Hstep. inv_bind Hstep b s2 Hb.
    pose proof (index_ok_le _ _ Hok0 Hle) as Hok.
    destruct (word_dict_docs _ _ _ _ Hok Hb) as (Hle2 & Ht & Hf).
    assert (Hstep' : index_le s0 s1 /\ ∀ d, assoc_lookup acc1 d = score_of zero add weight (inverted_index s0) my_N (prefix ++ [w]) d).
    { destruct b.
      - destruct (Ht eq_refl) as [-> [p Hw]].
        inv_bind Hstep ds s3 Hds. apply set_read_ok in Hds as [Hds ->].
        simpl in Hds. rewrite Hw in Hds. injection Hds as <-.
        assert (Hdocs : docs_of (inverted_index s0) w = document_set p).
        { rewrite <- (docs_of_le _ _ _ Hle). unfold docs_of. rewrite Hw. reflexivity. }
        destruct (add_fold_lookup w (elements (document_set p)) acc s acc1 s1 Hle) as [-> Hlk];
          [intros d Hd; rewrite Hdocs; apply elem_of_elements, Hd|apply NoDup_elements|exact Hstep|].
        split; [exact Hle|]. intros d. rewrite Hlk.
          unfold score_of. rewrite term_weights_snoc.
          destruct (decide (d ∈ elements (document_set p))) as [Hin|Hin];
            rewrite elem_of_elements, <- Hdocs in Hin.
          * rewrite decide_True by exact Hin. rewrite Hacc, default_score_of.
            destruct (term_weights _ _ _ _ _); simpl; [reflexivity|].
            rewrite foldl_app. reflexivity.
          * rewrite decide_False by exact Hin. rewrite app_nil_r. apply Hacc.
      - apply ret_ok in Hstep as [-> ->]. split; [eapply index_le_trans; eassumption|].
        intros d. unfold score_of. rewrite term_weights_snoc.
        assert (Hd0 : docs_of (inverted_index s0) w = ∅).
        { rewrite <- (docs_of_le _ _ _ Hle). apply Hf. reflexivity. }
        rewrite Hd0, decide_False by apply not_elem_of_empty.
        rewrite app_nil_r. apply Hacc. }
    destruct Hstep' as [Hle1 Hacc1].
    intros d. rewrite (IH _ _ _ _ _ Hle1 Hacc1 H), <- app_assoc. reflexivity.
Qed.

Lemma ranked_scores ge cfg text_query L s' :
  ranked_ir_tfidf zero add weight ge cfg text_query s0 = Ok (L, s') ->
  ∀ d v, In (d, v) L <-> score_of zero add weight (inverted_index s0) my_N (split (my_preprocessor cfg text_query)) d = Some v.
Proof.
  intros H. unfold ranked_ir_tfidf in H.
  inv_bind H acc s1 Hfold. apply ret_ok in H as [-> ->].
  destruct (ranked_fold_keys _ _ _ _ _ _ _ _ Hok0 Hfold) as (_ & Hn).
  pose proof (ranked_fold_lookup _ [] [] _ _ _ (index_le_refl _) (λ d, eq_refl) Hfold) as Hlk.
  pose proof (sort_desc_perm ge acc) as Hp.
  intros d v. specialize (Hlk d). simpl app in Hlk. split.
  - intros Hin. eapply Permutation_in in Hin; [|exact Hp].
    rewrite assoc_lookup_in in Hin by (apply Hn; constructor). rewrite <- Hlk. exact Hin.
  - intros Hs. eapply Permutation_in; [symmetry; exact Hp|].
    rewrite assoc_lookup_in by (apply Hn; constructor). rewrite Hlk. exact Hs.
Qed.

End Scores.

(** X12. [ranked_ir_tfidf]: on a consistent index with total entry
    [my_N], a document is ranked exactly when some query word holds it,
    and its score is [0] plus the TF-IDF weights
    [(1 + log10 tf) * log10 (my_N / df)] of the query words (repeats
    included) that hold it, added in query order. *)
Theorem ranked_ir_tfidf_scores cfg text_query s my_N ds L s' :
  index_ok (inverted_index s) ->
  inverted_index s !! total_key = Some (TotalEntry my_N ds) ->
  ranked_ir_tfidf_R cfg text_query s = Ok (L, s') ->
  ∀ d v, In (d, v) L <->
    let ws := term_weights tfidf_weight (inverted_index s) my_N
                (split (my_preprocessor cfg text_query)) d in
    ws ≠ [] /\ v = foldl Rplus 0%R ws.
Proof.
  intros Hok Ht H d v.
  rewrite (ranked_scores 0%R Rplus tfidf_weight s my_N ds Hok Ht Rge_bool cfg text_query L s' H d v).
  unfold score_of. simpl.
  destruct (term_weights _ _ _ _ _) as [|w ws].
  - split; [discriminate|intros [[] _]; reflexivity].
  - split; [intros He; injection He as <-; split; [discriminate|reflexivity]|].
    intros [_ ->]. reflexivity.
Qed.

Lemma ranked_ir_tfidf_scores_witness :
  exists L s', ranked_ir_tfidf_R plain_config "sat cat" sat_store = Ok (L, s') /\
    ∀ v, In (0, v) L <-> v = (0 + tfidf_weight 2 1 1 + tfidf_weight 2 1 2)%R.
Proof.
  destruct (ranked_outcome 0%R Rplus tfidf_weight Rge_bool plain_config "sat cat" sat_store 2 {[0; 1]}
              sat_store_ok sat_store_total sat_store_totals_at_key) as [[Hin _]|[_ (L & s' & E)]].
  { exfalso. rewrite sat_cat_terms in Hin. simpl in Hin. destruct Hin as [Hin|[Hin|[]]]; discriminate. }
  exists L, s'. split; [exact E|]. intros v.
  rewrite (ranked_ir_tfidf_scores plain_config "sat cat" sat_store 2 {[0; 1]} L s'
             sat_store_ok sat_store_total E 0 v).
  rewrite sat_cat_terms.
  assert (Hw : term_weights tfidf_weight (inverted_index sat_store) 2 ["sat"; "cat"]%string 0 =
               [tfidf_weight 2 1 1; tfidf_weight 2 1 2]).
  { unfold term_weights.
    assert (Hf : filter (λ w, 0 ∈ docs_of (inverted_index sat_store) w) ["sat"; "cat"]%string =
                 ["sat"; "cat"]%string) by (vm_compute; reflexivity).
    rewrite Hf. cbn [map].
    assert (H1 : size (word_positions (inverted_index sat_store) "sat" 0) = 1%nat) by (vm_compute; reflexivity).
    assert (H2 : size (docs_of (inverted_index sat_store) "sat") = 1%nat) by (vm_compute; reflexivity).
    assert (H3 : size (word_positions (inverted_index sat_store) "cat" 0) = 1%nat) by (vm_compute; reflexivity).
    assert (H4 : size (docs_of (inverted_index sat_store) "cat") = 2%nat) by (vm_compute; reflexivity).
    rewrite H1, H2, H3, H4. reflexivity. }
  cbv zeta. rewrite Hw. cbn [foldl].
  split; [intros [_ ->]; reflexivity|intros ->; split; [discriminate|reflexivity]].
Defined.

(* ------------------------------------------------------------------ *)
(** ** Lookups of absent terms *)

Lemma empty_entry_le s s' w :
  empty_entry (inverted_index s) w -> index_le s s' -> empty_entry (inverted_index s') w.
Proof.
  intros (p & Hw & Hf & Hd & Hps) Hle. specialize (Hle w). rewrite Hw in Hle.
  destruct (inverted_index s' !! w) as [[p'|n ds]|] eqn:Hw'; simpl in Hle; try contradiction.
  destruct Hle as (Hf' & Hd' & Hsub & Hnew).
  exists p'. split; [exact Hw'|]. split; [congruence|]. split; [congruence|].
  intros d ps Hd0. destruct (position_dict p !! d) as [ps0|] eqn:E.
  - rewrite (lookup_weaken _ _ _ _ E Hsub) in Hd0. injection Hd0 as <-. eapply Hps; exact E.
  - eapply Hnew; eassumption.
Qed.

Lemma absent_or_empty_le s s' w :
  absent_or_empty (inverted_index s) w -> index_le s s' -> absent_or_empty (inverted_index s') w.
Proof.
  intros [Hw|He] Hle; [|right; eapply empty_entry_le; eassumption].
  specialize (Hle w). rewrite Hw in Hle.
  destruct (inverted_index s' !! w) as [e'|] eqn:Hw'; [right|left; exact Hw'].
  destruct e' as [p'|n ds]; simpl in Hle; try contradiction.
  destruct Hle as (Hf & Hd & _ & Hnew). exists p'. split; [exact Hw'|].
  split; [exact Hf|]. split; [exact Hd|].
  intros d ps Hps. eapply Hnew; [exact Hps|]. reflexivity.
Qed.

Lemma word_present_le s s' w :
  word_present (inverted_index s) w -> index_le s s' -> word_present (inverted_index s') w.
Proof.
  intros (p & Hw & Hf) Hle. specialize (Hle w). rewrite Hw in Hle.
  destruct (inverted_index s' !! w) as [[p'|n ds]|] eqn:Hw'; simpl in Hle; try contradiction.
  exists p'. split; [exact Hw'|]. destruct Hle as [-> _]. exact Hf.
Qed.

Lemma reaches_le s s' ws w :
  reaches (inverted_index s) ws w -> index_le s s' -> reaches (inverted_index s') ws w.
Proof.
  intros H Hle. induction ws as [|w' ws IH]; simpl in *; [exact H|].
  destruct H as [->|[Hp Hr]]; [left; reflexivity|right].
  split; [eapply word_present_le; eassumption|apply IH, Hr].
Qed.

(** The lookup itself: afterwards [w] holds an empty-but-present entry. *)
Lemma word_dict_empty_entry w s b s' :
  absent_or_empty (inverted_index s) w -> _word_dict w s = Ok (b, s') ->
  b = false /\ empty_entry (inverted_index s') w.
Proof.
  intros Haz H. unfold _word_dict in H. inv_bind H e s1 He. unfold index_get in He.
  destruct Haz as [Hw|(p & Hw & Hf & Hd & Hps)]; rewrite Hw in He; injection He as <- <-.
  - apply ret_ok in H as [-> ->]. split; [reflexivity|].
    exists default_posting. simpl. rewrite lookup_insert_eq. split; [reflexivity|].
    split; [reflexivity|]. split; [reflexivity|]. intros d ps Hps.
    rewrite lookup_empty in Hps. discriminate.
  - apply ret_ok in H as [-> ->]. rewrite Hf. split; [reflexivity|].
    exists p. auto.
Qed.

Lemma word_dict_found w s b s' :
  word_present (inverted_index s) w -> _word_dict w s = Ok (b, s') -> b = true /\ s' = s.
Proof.
  intros (p & Hw & Hf) H. unfold _word_dict in H. inv_bind H e s1 He. unfold index_get in He.
  rewrite Hw in He. injection He as <- <-. apply ret_ok in H as [-> ->].
  split; [|reflexivity]. apply negb_true_iff, Z.eqb_neq, Hf.
Qed.

(** A lookup followed by a method that only extends the index. *)
Lemma empty_entry_bind {A B} (m : M A) (k : A -> M B) s b s' w :
  index_ok (inverted_index s) -> mono m -> (∀ a, mono (k a)) ->
  (∀ a s1, m s = Ok (a, s1) -> empty_entry (inverted_index s1) w) ->
  bindM m k s = Ok (b, s') -> empty_entry (inverted_index s') w.
Proof.
  intros Hok Hm Hk He H. inv_bind H a s1 H1.
  eapply empty_entry_le; [exact (He _ _ H1)|].
  eapply Hk; [eapply index_ok_le; [exact Hok|exact (Hm _ _ _ Hok H1)]|exact H].
Qed.

Lemma mono_check_words ws : mono (check_words ws).
Proof. intros s r s' _ H. eapply check_words_le; exact H. Qed.

Lemma check_words_empty_entry w ws : ∀ s r s',
  absent_or_empty (inverted_index s) w -> reaches (inverted_index s) ws w ->
  check_words ws s = Ok (r, s') -> empty_entry (inverted_index s') w.
Proof.
  induction ws as [|w' ws IH]; intros s r s' Haz Hr H; simpl in Hr; [contradiction|].
  simpl in H. inv_bind H b s1 Hb.
  destruct Hr as [<-|[Hp Hr]].
  - destruct (word_dict_empty_entry _ _ _ _ Haz Hb) as [-> He].
    apply ret_ok in H as [_ <-]. exact He.
  - destruct (word_dict_found _ _ _ _ Hp Hb) as [-> ->].
    inv_bind H rest s2 Hrest. apply ret_ok in H as [_ ->].
    eapply IH; eassumption.
Qed.

Lemma reaches_in idx ws w : reaches idx ws w -> In w ws.
Proof. induction ws as [|w' ws IH]; simpl; [auto|]. intros [->|[_ H]]; auto. Qed.

Lemma phrase_search_empty_entry cfg t w s r s' :
  absent_or_empty (inverted_index s) w ->
  reaches (inverted_index s) (split (my_preprocessor cfg t)) w ->
  _phrase_search cfg t s = Ok (r, s') -> empty_entry (inverted_index s') w.
Proof.
  intros Haz Hr H. unfold _phrase_search, phrase_search_words in H.
  inv_bind H found s1 Hc. destruct found as [wd|].
  - exfalso. apply check_words_some in Hc as (_ & _ & Hall).
    destruct (Hall w (reaches_in _ _ _ Hr)) as (p & Hw & Hf).
    destruct Haz as [Hn|(p' & Hw' & Hf' & _)]; congruence.
  - apply ret_ok in H as [_ ->]. eapply check_words_empty_entry; eassumption.
Qed.

Lemma documents_containing_phrase_empty_entry cfg t w s D s' :
  absent_or_empty (inverted_index s) w ->
  reaches (inverted_index s) (split (my_preprocessor cfg t)) w ->
  _documents_containing_phrase cfg t s = Ok (D, s') -> empty_entry (inverted_index s') w.
Proof.
  intros Haz Hr H. unfold _documents_containing_phrase in H. inv_bind H r s1 H1.
  pose proof (phrase_search_empty_entry _ _ _ _ _ _ Haz Hr H1) as He.
  destruct r.1; apply ret_ok in H as [_ ->]; exact He.
Qed.

Lemma parser_loop_empty_entry cfg w fuel : ∀ text acc s L s',
  index_ok (inverted_index s) -> absent_or_empty (inverted_index s) w ->
  (exists phrase, In phrase (boolean_phrases fuel text) /\
                  reaches (inverted_index s) (split (my_preprocessor cfg phrase)) w) ->
  boolean_query_parser_loop fuel cfg text acc s = Ok (L, s') -> empty_entry (inverted_index s') w.
Proof.
  induction fuel as [|fuel IH]; intros text acc s L s' Hok Haz (phrase & Hin & Hr) H;
    simpl in Hin; [contradiction|].
  simpl in H. destruct (query_match text) as [[[g connector] remaining]|];
    [|contradiction].
  destruct (not_split g) as [initial_NOT ph] eqn:Hns. simpl in Hin.
  inv_bind H D s1 HD.
  pose proof (mono_documents_containing_phrase cfg (strip ph) _ _ _ Hok HD) as Hle1.
  pose proof (index_ok_le _ _ Hok Hle1) as Hok1.
  destruct Hin as [<-|Hin].
  - pose proof (documents_containing_phrase_empty_entry _ _ _ _ _ _ Haz Hr HD) as He.
    eapply empty_entry_le; [exact He|].
    refine (mono_bind _ _ _ _ _ _ _ Hok1 H).
    + destruct initial_NOT; [apply mono_not_operator|apply mono_ret].
    + intros item. cbv zeta.
      repeat case_match; first [apply mono_ret|apply mono_throw|apply mono_parser_loop].
  - destruct (String.eqb connector "" || String.eqb (strip remaining) "") eqn:Hc;
      [contradiction|].
    inv_bind H item s2 Hitem.
    assert (Hle2 : index_le s1 s2).
    { destruct initial_NOT; [exact (mono_not_operator _ _ _ _ Hok1 Hitem)|].
      apply ret_ok in Hitem as [_ ->]. apply index_le_refl. }
    assert (Hle : index_le s s2) by (eapply index_le_trans; eassumption).
    apply orb_false_iff in Hc as [Hc1 Hc2]. rewrite Hc1, Hc2 in H. simpl in H.
    eapply IH; [eapply index_ok_le; [exact Hok|exact Hle]
               |eapply absent_or_empty_le; eassumption
               |exists phrase; split; [exact Hin|eapply reaches_le; eassumption]
               |exact H].
Qed.

Lemma boolean_query_empty_entry cfg t w s L s' :
  index_ok (inverted_index s) -> absent_or_empty (inverted_index s) w ->
  (exists phrase, In phrase (boolean_phrases (S (String.length t)) t) /\
                  reaches (inverted_index s) (split (my_preprocessor cfg phrase)) w) ->
  boolean_query cfg t s = Ok (L, s') -> empty_entry (inverted_index s') w.
Proof.
  intros Hok Haz Hr H. unfold boolean_query in H.
  refine (empty_entry_bind _ _ _ _ _ _ Hok _ _ _ H); [apply mono_parser_loop|intros; apply mono_lift|].
  intros a s1 H1. eapply parser_loop_empty_entry; eassumption.
Qed.

Lemma proximity_search_empty_entry cfg p1 p2 k w s L s' :
  index_ok (inverted_index s) -> absent_or_empty (inverted_index s) w ->
  (reaches (inverted_index s) (split (my_preprocessor cfg p1)) w \/
   ((exists d p, phrase_at (inverted_index s) (split (my_preprocessor cfg p1)) d p) /\
    reaches (inverted_index s) (split (my_preprocessor cfg p2)) w)) ->
  _proximity_search cfg (p1, p2) k s = Ok (L, s') -> empty_entry (inverted_index s') w.
Proof.
  intros Hok Haz Hr H. unfold _proximity_search in H.
  destruct Hr as [Hr|[(d & p & Hph) Hr]].
  - refine (empty_entry_bind _ _ _ _ _ _ Hok _ _ _ H); [apply mono_phrase_search|intros; mono_tac|].
    intros a s1 H1. eapply phrase_search_empty_entry; eassumption.
  - inv_bind H r1 s1 H1.
    destruct (phrase_search_spec _ _ _ _ _ Hok H1) as [(Hphr & Hflag & _) _].
    assert (Hr1 : r1.1 = true).
    { apply Hflag. destruct (proj1 (Hphr d p) Hph) as (ps & Hin & _).
      intros E. simpl in Hin. rewrite E in Hin. exact Hin. }
    rewrite Hr1 in H. simpl in H.
    pose proof (mono_phrase_search cfg p1 _ _ _ Hok H1) as Hle1.
    refine (empty_entry_bind _ _ _ _ _ _ ltac:(eapply index_ok_le; eassumption) _ _ _ H); [apply mono_phrase_search|intros; mono_tac|].
    intros a s2 H2. eapply phrase_search_empty_entry;
      [eapply absent_or_empty_le; eassumption|eapply reaches_le; eassumption|exact H2].
Qed.

(** [w] among the elements folded over: the step at [w] leaves the
    entry empty, and the other steps only extend the index. *)
Lemma fold_M_empty_entry {A B} (f : B -> A -> M B) (x : A) (w : string) :
  (∀ acc y, mono (f acc y)) ->
  (∀ acc s b s', index_ok (inverted_index s) -> absent_or_empty (inverted_index s) w ->
     f acc x s = Ok (b, s') -> empty_entry (inverted_index s') w) ->
  ∀ l acc s acc' s', index_ok (inverted_index s) -> absent_or_empty (inverted_index s) w ->
  In x l -> fold_M f l acc s = Ok (acc', s') -> empty_entry (inverted_index s') w.
Proof.
  intros Hf Hx l. induction l as [|y l IH]; intros acc s acc' s' Hok Haz Hin H;
    [contradiction|].
  simpl in H. inv_bind H b s1 H1.
  pose proof (Hf _ _ _ _ _ Hok H1) as Hle1.
  pose proof (index_ok_le _ _ Hok Hle1) as Hok1.
  destruct Hin as [->|Hin].
  - eapply empty_entry_le; [exact (Hx _ _ _ _ Hok Haz H1)|].
    exact (mono_fold_M f Hf l b _ _ _ Hok1 H).
  - eapply IH; [exact Hok1|eapply absent_or_empty_le; eassumption|exact Hin|exact H].
Qed.

Lemma ranked_empty_entry {score} zero add weight ge cfg t w s L s' :
  index_ok (inverted_index s) -> absent_or_empty (inverted_index s) w ->
  In w (split (my_preprocessor cfg t)) ->
  @ranked_ir_tfidf score zero add weight ge cfg t s = Ok (L, s') ->
  empty_entry (inverted_index s') w.
Proof.
  intros Hok Haz Hin H. unfold ranked_ir_tfidf in H.
  refine (empty_entry_bind _ _ _ _ _ _ Hok _ _ _ H); [ |intros; mono_tac|].
  { apply mono_fold_M. intros acc term. mono_tac.
    unfold _tfidf_term_weighting, total_size. mono_tac. }
  intros a s1 H1. revert H1. eapply fold_M_empty_entry; [| |exact Hok|exact Haz|exact Hin].
  - intros acc term. mono_tac. unfold _tfidf_term_weighting, total_size. mono_tac.
  - intros acc s0 b s0' Hok0 Haz0 H0.
    refine (empty_entry_bind _ _ _ _ _ _ Hok0 _ _ _ H0); [apply mono_word_dict| |].
    + intros b'. mono_tac. unfold _tfidf_term_weighting, total_size. mono_tac.
    + intros b' s2 H2. exact (proj2 (word_dict_empty_entry _ _ _ _ Haz0 H2)).
Qed.

Lemma run_query_op_empty_entry cfg op w s u s' :
  index_ok (inverted_index s) -> absent_or_empty (inverted_index s) w ->
  looks_up cfg (inverted_index s) op w ->
  run_query_op cfg op s = Ok (u, s') -> empty_entry (inverted_index s') w.
Proof.
  intros Hok Haz Hl H. destruct op as [t|t|p1 p2 k|t]; simpl in Hl, H;
    (refine (empty_entry_bind _ _ _ _ _ _ Hok _ _ _ H); [ |intros; apply mono_ret|]).
  - apply mono_phrase_search.
  - intros a s1 H1. eapply phrase_search_empty_entry; eassumption.
  - apply mono_boolean_query.
  - intros a s1 H1. eapply boolean_query_empty_entry; eassumption.
  - apply mono_proximity_search.
  - intros a s1 H1. eapply proximity_search_empty_entry; eassumption.
  - apply mono_ranked.
  - intros a s1 H1. eapply ranked_empty_entry; eassumption.
Qed.

Lemma cat_store_ok : index_ok (inverted_index cat_store).
Proof.
  apply (build_index_ok plain_config cat_docs); [apply (bool_decide_unpack _); vm_compute; exact I|].
  vm_compute. reflexivity.
Qed.

(** C1 (amended): a term absent from the index is stored by the lookup
    that misses it. [_word_dict] answers [False] and inserts the default
    dictionary; a phrase search whose first term is absent returns
    [(False, {})] with that entry inserted; and every query that passes the
    term to [_word_dict] (see [looks_up]: phrase, boolean, proximity and
    TF-IDF queries) ends with the term stored with frequency 0, no document
    and only empty position sets. *)
Theorem absent_term_lookup_inserts_default cfg w s :
  inverted_index s !! w = None ->
  _word_dict w s = Ok (false, set_index s (<[w := Posting default_posting]> (inverted_index s))) /\
  (∀ text ws, split (my_preprocessor cfg text) = w :: ws ->
     _phrase_search cfg text s =
       Ok ((false, []), set_index s (<[w := Posting default_posting]> (inverted_index s)))) /\
  (∀ op u s', index_ok (inverted_index s) -> looks_up cfg (inverted_index s) op w ->
     run_query_op cfg op s = Ok (u, s') -> empty_entry (inverted_index s') w).
Proof.
  intros Hw. pose proof (word_dict_absent w s Hw) as Hd.
  split; [exact Hd|split].
  - intros text ws Hsplit. unfold _phrase_search. rewrite Hsplit.
    unfold phrase_search_words, bindM at 1. simpl.
    unfold bindM at 1. rewrite Hd. reflexivity.
  - intros op u s' Hok Hl H. eapply run_query_op_empty_entry; [exact Hok|left; exact Hw|exact Hl|exact H].
Qed.

Lemma absent_term_lookup_inserts_default_witness :
  inverted_index cat_store !! "dog"%string = None /\
  looks_up plain_config (inverted_index cat_store) (QBoolean "cat AND dog") "dog" /\
  exists s', run_query_op plain_config (QBoolean "cat AND dog") cat_store = Ok (tt, s') /\
             empty_entry (inverted_index s') "dog".
Proof.
  assert (Hw : inverted_index cat_store !! "dog"%string = None) by (vm_compute; reflexivity).
  assert (Hl : looks_up plain_config (inverted_index cat_store) (QBoolean "cat AND dog") "dog").
  { exists "dog"%string. split; [vm_compute; tauto|left; reflexivity]. }
  split; [exact Hw|split; [exact Hl|]].
  exists (match run_query_op plain_config (QBoolean "cat AND dog") cat_store with
          | Ok (_, s') => s' | Raise _ => cat_store end).
  assert (Hr : run_query_op plain_config (QBoolean "cat AND dog") cat_store =
               Ok (tt, match run_query_op plain_config (QBoolean "cat AND dog") cat_store with
                       | Ok (_, s') => s' | Raise _ => cat_store end)) by (vm_compute; reflexivity).
  split; [exact Hr|].
  exact (proj2 (proj2 (absent_term_lookup_inserts_default plain_config "dog" cat_store Hw))
           _ _ _ cat_store_ok Hl Hr).
Defined.
